(** * Email tracker: a shallow embedding of [server/database.py] and
      [server/main.py], and the properties of its handlers.

    The store is a SQLite file; the handlers are coroutines that open a
    connection, run a few statements and close it.  The embedding keeps that
    shape: tables are finite maps (or a list for the append-only event log),
    a handler is a computation in a state-and-exception monad over a
    [world] holding the committed store, the open connection with its
    uncommitted working copy, and the trace of externally visible actions.
    Everything outside the repository (the clock, the uuid generator, the
    geolocation service, engine-level storage errors, SQLite's LIKE and
    number formatting) is read from an environment [env]. *)

From Stdlib Require Import ZArith Floats Ascii String.
From stdpp Require Import gmap strings list fin_maps pretty sorting.

Open Scope string_scope.
Open Scope nat_scope.
Set Warnings "-register-all".

(** ** Python values and exceptions *)

(** The exception classes the handlers can meet. *)
Inductive exn :=
| OperationalError (msg : string)
| IntegrityError (msg : string)
| InterfaceError
| OverflowError
| ProgrammingError
| TypeError
| AttributeError
| JSONDecodeError
| ZeroDivisionError.

Inductive outcome (A : Type) :=
| Ok (a : A)
| Raise (e : exn).
Arguments Ok {A} a.
Arguments Raise {A} e.

(** What [json.loads] produces: None, bool, int, float, str, list, dict.  A
    dict is kept as its items in insertion order (keys are unique). *)
Inductive json :=
| JNull
| JBool (b : bool)
| JInt (z : Z)
| JFloat (f : float)
| JStr (s : string)
| JArr (l : list json)
| JObj (kv : list (string * json)).

(** Truth value of a Python object, as used by [or] and [if]. *)
Definition py_truthy (v : json) : bool :=
  match v with
  | JNull => false
  | JBool b => b
  | JInt z => negb (z =? 0)%Z
  | JFloat f => negb (PrimFloat.eqb f 0%float)
  | JStr s => negb (bool_decide (s = ""))
  | JArr l => negb (bool_decide (l = []))
  | JObj kv => negb (bool_decide (kv = []))
  end.

(** [d.get(key)]: the value, or None. *)
Fixpoint dict_lookup (key : string) (kv : list (string * json)) : option json :=
  match kv with
  | [] => None
  | (k, v) :: kv' => if bool_decide (k = key) then Some v else dict_lookup key kv'
  end.

(** [d.get(key, default)] *)
Definition dict_get (key : string) (default : json) (kv : list (string * json)) : json :=
  from_option id default (dict_lookup key kv).

(** ** Requests and the client address *)

(** A request as the handlers see it: header names are lower-case (ASGI),
    [client] is [request.client.host] when there is a peer, and [body] is the
    parsed JSON body, [None] when it does not parse. *)
Record request := Request {
  headers : list (string * string);
  client : option string;
  body : option json
}.

(** [request.headers.get(name)] *)
Fixpoint headers_get (name : string) (hs : list (string * string)) : option string :=
  match hs with
  | [] => None
  | (k, v) :: hs' => if bool_decide (k = name) then Some v else headers_get name hs'
  end.

(** The characters [str.strip()] removes (code points below 256). *)
Definition py_isspace (c : ascii) : bool :=
  let n := nat_of_ascii c in
  (((9 <=? n) && (n <=? 13)) || ((28 <=? n) && (n <=? 32)) || (n =? 133) || (n =? 160))%nat.

Fixpoint lstrip (s : string) : string :=
  match s with
  | "" => ""
  | String c s' => if py_isspace c then lstrip s' else s
  end.

Definition strip (s : string) : string :=
  String.rev (lstrip (String.rev (lstrip s))).

(** [s.split(",")[0]] *)
Fixpoint split_comma_head (s : string) : string :=
  match s with
  | "" => ""
  | String c s' => if bool_decide (c = ","%char) then "" else String c (split_comma_head s')
  end.

(** Python's [a or b] on strings, with [None] for a missing value. *)
Definition str_or (a : option string) (b : string) : string :=
  match a with
  | Some s => if bool_decide (s = "") then b else s
  | None => b
  end.

Definition client_ip (request : request) : string :=
  str_or (headers_get "cf-connecting-ip" (headers request))
    (str_or (Some (strip (split_comma_head
                            (default "" (headers_get "x-forwarded-for" (headers request))))))
       (default "" (client request))).

(** ** The pixel *)

Definition b64_index (c : ascii) : option N :=
  let n := N_of_ascii c in
  if ((65 <=? n) && (n <=? 90))%N then Some (n - 65)%N
  else if ((97 <=? n) && (n <=? 122))%N then Some (n - 71)%N
  else if ((48 <=? n) && (n <=? 57))%N then Some (n + 4)%N
  else if (n =? 43)%N then Some 62%N
  else if (n =? 47)%N then Some 63%N
  else None.

(** Decoding of full four-character groups; the literal below consists of
    23 of them followed by padding. *)
Fixpoint b64decode (s : string) : list N :=
  match s with
  | String a (String b (String c (String d rest))) =>
      match b64_index a, b64_index b, b64_index c, b64_index d with
      | Some x, Some y, Some z, Some w =>
          let n := (x * 262144 + y * 4096 + z * 64 + w)%N in
          (n / 65536)%N :: ((n / 256) mod 256)%N :: (n mod 256)%N :: b64decode rest
      | _, _, _, _ => []
      end
  | _ => []
  end.

Definition PIXEL_PNG : list N :=
  Eval vm_compute in
    b64decode ("iVBORw0KGgoAAAANSUhEUgAAAAEAAAABCAYAAAAfFcSJAAAADUlEQVR4"
               ++ "nGNgYPgPAAEDAQAIicLsAAAABJRU5ErkJggg==").

Inductive response :=
| Response (content : list N) (media_type : string) (resp_headers : list (string * string))
| RedirectResponse (url : string) (status_code : nat)
| JSONResponse (content : json) (status_code : nat).

(** ** The store ([init_db]'s schema) *)

(** [emails]: [id TEXT PRIMARY KEY] is the map key. *)
Record email_row := EmailRow {
  subject : string;
  recipient : string;
  created_at : N
}.

(** [links]: [id TEXT PRIMARY KEY] is the map key. *)
Record link_row := LinkRow {
  link_email_id : string;
  original_url : string
}.

(** [event_type TEXT NOT NULL CHECK(event_type IN ('open', 'click'))] *)
Inductive event_type := EvOpen | EvClick.

(** [events]: [link_id] is nullable; the handlers always bind str values to
    [ip], [user_agent] and [country]. *)
Record event_row := EventRow {
  ev_id : nat;
  ev_email_id : string;
  ev_link_id : option string;
  ev_type : event_type;
  ev_timestamp : N;
  ev_ip : string;
  ev_user_agent : string;
  ev_country : string
}.

(** Modelled from the spec: the [CREATE TABLE] of [ignored_ips] is not in
    [init_db]; the spec gives the row as "identity: IP string (unique).
    Attributes: optional human label, creation timestamp".  The key of the
    map is the [ip] column. *)
Record ignored_row := IgnoredRow {
  label : option string;
  ig_created_at : N
}.

(** The store file.  A table that has not been created is [None];
    [events_seq] is the AUTOINCREMENT counter of [events]. *)
Record db := Db {
  emails : option (gmap string email_row);
  links : option (gmap string link_row);
  events : option (list event_row);
  events_seq : nat;
  ignored_ips : option (gmap string ignored_row)
}.

(** A file that does not exist yet: SQLite creates it empty on connect. *)
Definition empty_db : db := Db None None None 0 None.

Global Instance event_type_eq_dec : EqDecision event_type.
Proof. solve_decision. Defined.

Definition set_emails (m : gmap string email_row) (d : db) : db :=
  Db (Some m) (links d) (events d) (events_seq d) (ignored_ips d).
Definition set_links (m : gmap string link_row) (d : db) : db :=
  Db (emails d) (Some m) (events d) (events_seq d) (ignored_ips d).
Definition set_events (l : list event_row) (n : nat) (d : db) : db :=
  Db (emails d) (links d) (Some l) n (ignored_ips d).
Definition set_ignored_ips (m : gmap string ignored_row) (d : db) : db :=
  Db (emails d) (links d) (events d) (events_seq d) (Some m).

(** ** SQL statements, as functions on the store

    Each statement either fails as a whole, leaving the store as it was, or
    returns its rows and the new store.  [fk] is the connection's
    [PRAGMA foreign_keys] setting. *)

Definition no_such_table {A} (name : string) : outcome A :=
  Raise (OperationalError ("no such table: " ++ name)).

Definition fk_failed {A} : outcome A :=
  Raise (IntegrityError "FOREIGN KEY constraint failed").

(** The [CREATE TABLE IF NOT EXISTS] script of [init_db] (the three indexes
    hold no data of their own). *)
Definition create_schema (d : db) : db :=
  Db (Some (default ∅ (emails d)))
     (Some (default ∅ (links d)))
     (Some (default [] (events d)))
     (events_seq d)
     (ignored_ips d).

(** [SELECT ip FROM ignored_ips WHERE ip = ?] *)
Definition select_ignored_ip (ip : string) (d : db) : outcome (list string) :=
  match ignored_ips d with
  | None => no_such_table "ignored_ips"
  | Some m => Ok (if bool_decide (is_Some (m !! ip)) then [ip] else [])
  end.

(** [SELECT email_id, original_url FROM links WHERE id = ?] *)
Definition select_link (link_id : string) (d : db) : outcome (list link_row) :=
  match links d with
  | None => no_such_table "links"
  | Some m => Ok (option_list (m !! link_id))
  end.

(** [INSERT OR IGNORE INTO emails (id, subject, recipient) VALUES (?, '', '')] *)
Definition insert_or_ignore_email (now : N) (id : string) (d : db) : outcome db :=
  match emails d with
  | None => no_such_table "emails"
  | Some m =>
      Ok (match m !! id with
          | Some _ => d
          | None => set_emails (<[id := EmailRow "" "" now]> m) d
          end)
  end.

(** The parent rows an [events] or [links] row needs when foreign keys are
    enforced: the statement is compiled against both parent tables, then the
    keys are looked up. *)
Definition check_event_parents (email_id : string) (link_id : option string) (d : db)
  : outcome unit :=
  match emails d, links d with
  | None, _ => no_such_table "main.emails"
  | _, None => no_such_table "main.links"
  | Some em, Some lk =>
      if bool_decide (is_Some (em !! email_id))
         && match link_id with
            | None => true
            | Some l => bool_decide (is_Some (lk !! l))
            end
      then Ok tt else fk_failed
  end.

(** [INSERT INTO events (email_id, link_id, event_type, ip, user_agent,
    country) VALUES (...)]; [id] and [timestamp] take their defaults. *)
Definition insert_event (fk : bool) (now : N) (email_id : string)
    (link_id : option string) (ty : event_type) (ip user_agent country : string)
    (d : db) : outcome db :=
  match events d with
  | None => no_such_table "events"
  | Some evs =>
      match (if fk then check_event_parents email_id link_id d else Ok tt) with
      | Raise e => Raise e
      | Ok _ =>
          let id := S (events_seq d) in
          Ok (set_events
                (evs ++ [EventRow id email_id link_id ty now ip user_agent country])
                id d)
      end
  end.

(** [INSERT INTO emails (id, subject, recipient) VALUES (?, ?, ?)
     ON CONFLICT(id) DO UPDATE SET subject=excluded.subject,
     recipient=excluded.recipient WHERE subject = '' OR recipient = ''] *)
Definition upsert_email (now : N) (id subj rcpt : string) (d : db) : outcome db :=
  match emails d with
  | None => no_such_table "emails"
  | Some m =>
      Ok (match m !! id with
          | None => set_emails (<[id := EmailRow subj rcpt now]> m) d
          | Some r =>
              if bool_decide (subject r = "") || bool_decide (recipient r = "")
              then set_emails (<[id := EmailRow subj rcpt (created_at r)]> m) d
              else d
          end)
  end.

(** [INSERT INTO links (id, email_id, original_url) VALUES (?, ?, ?)] *)
Definition insert_link (fk : bool) (id email_id url : string) (d : db) : outcome db :=
  match links d with
  | None => no_such_table "links"
  | Some lk =>
      if bool_decide (is_Some (lk !! id))
      then Raise (IntegrityError "UNIQUE constraint failed: links.id")
      else if fk then
        match emails d with
        | None => no_such_table "main.emails"
        | Some em =>
            if bool_decide (is_Some (em !! email_id))
            then Ok (set_links (<[id := LinkRow email_id url]> lk) d)
            else fk_failed
        end
      else Ok (set_links (<[id := LinkRow email_id url]> lk) d)
  end.

(** The rows [ON DELETE CASCADE] removes with email [id]: its links, the
    events of the email, and the events of those links. *)
Definition owned_by (id : string) (l : link_row) : Prop := link_email_id l = id.

Global Instance owned_by_dec id l : Decision (owned_by id l).
Proof. unfold owned_by. apply _. Defined.

Definition event_survives (id : string) (lk : gmap string link_row) (e : event_row) : Prop :=
  ev_email_id e ≠ id
  ∧ from_option (λ l, from_option (λ r, ¬ owned_by id r) True (lk !! l)) True (ev_link_id e).

Global Instance event_survives_dec id lk e : Decision (event_survives id lk e).
Proof.
  unfold event_survives. destruct (ev_link_id e) as [l|]; simpl; [|apply _].
  destruct (lk !! l); simpl; apply _.
Defined.

Definition cascade (id : string) (d : db) : db :=
  let lk := default ∅ (links d) in
  Db (emails d)
     (filter (λ kv, ¬ owned_by id kv.2) <$> links d)
     (filter (event_survives id lk) <$> events d)
     (events_seq d)
     (ignored_ips d).

(** [DELETE FROM emails WHERE id = ?] *)
Definition sql_delete_email (fk : bool) (id : string) (d : db) : outcome db :=
  match emails d with
  | None => no_such_table "emails"
  | Some m =>
      Ok (match m !! id with
          | None => d
          | Some _ =>
              let d' := set_emails (delete id m) d in
              if fk then cascade id d' else d'
          end)
  end.

(** [INSERT OR IGNORE INTO ignored_ips (ip, label) VALUES (?, ?)] *)
Definition insert_or_ignore_ignored_ip (now : N) (ip : string) (lbl : option string)
    (d : db) : outcome db :=
  match ignored_ips d with
  | None => no_such_table "ignored_ips"
  | Some m =>
      Ok (match m !! ip with
          | Some _ => d
          | None => set_ignored_ips (<[ip := IgnoredRow lbl now]> m) d
          end)
  end.

(** [DELETE FROM ignored_ips WHERE ip = ?] *)
Definition sql_delete_ignored_ip (ip : string) (d : db) : outcome db :=
  match ignored_ips d with
  | None => no_such_table "ignored_ips"
  | Some m => Ok (set_ignored_ips (delete ip m) d)
  end.

(** ** Python arithmetic used by the statistics *)

(** [float(n)] for an int: the nearest double. *)
Definition float_of_Z (z : Z) : float :=
  SF2Prim (binary_normalize prec emax z 0 false).

(** [a / b] on ints (the nearest double to the quotient for operands below
    2^53, as row counts are). *)
Definition py_truediv (a b : nat) : outcome float :=
  if (b =? 0)%nat then Raise ZeroDivisionError
  else Ok (float_of_Z (Z.of_nat a) / float_of_Z (Z.of_nat b))%float.

(** [n / d] rounded to the nearest integer, ties to even ([0 < d], [0 <= n]). *)
Definition round_half_even (n d : Z) : Z :=
  let q := (n / d)%Z in
  let r := (n mod d)%Z in
  if (2 * r <? d)%Z then q
  else if (d <? 2 * r)%Z then (q + 1)%Z
  else if Z.even q then q else (q + 1)%Z.

(** [round(x, 1)]: the exact value of [x] is rounded to one decimal, ties to
    even, and the decimal is converted back to the nearest double. *)
Definition py_round1 (x : float) : float :=
  match Prim2SF x with
  | S754_finite s m e =>
      let k := if (0 <=? e)%Z
               then (Z.pos m * 10 * 2 ^ e)%Z
               else round_half_even (Z.pos m * 10) (2 ^ (- e)) in
      let r := (float_of_Z k / 10)%float in
      if s then (- r)%float else r
  | _ => x
  end.

(** ** Environment, world and the handler monad *)

(** Statements the handlers send to the engine. *)
Inductive stmt :=
| PRAGMA_journal_mode | PRAGMA_foreign_keys | CREATE_schema
| SELECT_ignored_ip | SELECT_link | INSERT_OR_IGNORE_email | INSERT_event
| UPSERT_email | INSERT_link | DELETE_email
| SELECT_email_count | SELECT_email_page
| SELECT_email | SELECT_email_events | SELECT_unique_opens | SELECT_counts
| SELECT_link_stats | SELECT_totals | SELECT_opened | SELECT_activity
| SELECT_ignored_ips | INSERT_OR_IGNORE_ignored_ip | DELETE_ignored_ip.

(** What a handler does to the outside, in order: the trace lists the
    actions that were taken. *)
Inductive action :=
| Connect
| Execute (s : stmt)
| Commit
| Close
| HttpGet (ip : string).

Global Instance stmt_eq_dec : EqDecision stmt.
Proof. solve_decision. Defined.
Global Instance action_eq_dec : EqDecision action.
Proof. solve_decision. Defined.

(** The answer of ip-api.com: status code and the [city] and [country]
    fields of the payload (empty when absent). *)
Record geo_reply := GeoReply {
  geo_status : nat;
  geo_city : string;
  geo_country : string
}.

Record env := Env {
  (** CURRENT_TIMESTAMP, in seconds *)
  now : N;
  (** engine-level failure of a storage action (locked database, I/O
      error): the message of the [OperationalError] it raises *)
  fault : action → option string;
  (** the GET to ip-api.com; [None] is a timeout or any other exception *)
  ip_api : string → option geo_reply;
  (** [uuid.uuid4().hex], one per call *)
  uuid4_hex : nat → string;
  (** SQLite's [value LIKE pattern] *)
  sql_like : string → string → bool;
  (** SQLite's rendering of a REAL stored in a TEXT column *)
  sql_real_text : float → string;
  (** Python's [str] of a float, and of a list or dict *)
  py_float_str : float → string;
  py_repr : json → string;
  (** the contents of static/index.html *)
  index_html : string
}.

(** An open connection: its view of the store, including uncommitted
    changes, and its foreign-key setting (off on a fresh connection). *)
Record connection := Conn {
  c_db : db;
  foreign_keys : bool
}.

Record world := World {
  disk : db;
  conn : option connection;
  trace : list action;
  uuid_ctr : nat
}.

Definition M (A : Type) : Type := world → outcome A * world.

Definition ret {A} (a : A) : M A := λ w, (Ok a, w).

Definition raise {A} (e : exn) : M A := λ w, (Raise e, w).

Definition bind {A B} (m : M A) (f : A → M B) : M B :=
  λ w, match m w with
       | (Ok a, w') => f a w'
       | (Raise e, w') => (Raise e, w')
       end.

Notation "x <- m ;; k" := (bind m (λ x, k))
  (at level 100, m at next level, right associativity).
Notation "m ;; k" := (bind m (λ _, k))
  (at level 100, right associativity).

(** [try: body finally: fin]: [fin] runs on every exit of [body]. *)
Definition try_finally {A} (body : M A) (fin : M unit) : M A :=
  λ w, match body w with
       | (r, w') =>
           match fin w' with
           | (Ok _, w'') => (r, w'')
           | (Raise e, w'') => (Raise e, w'')
           end
       end.

(** Lifting of a pure result. *)
Definition lift {A} (r : outcome A) : M A := λ w, (r, w).

(** [for x in l: ...] accumulating results. *)
Fixpoint for_each {A B} (l : list A) (f : A → M B) : M (list B) :=
  match l with
  | [] => ret []
  | x :: l' => y <- f x ;; ys <- for_each l' f ;; ret (y :: ys)
  end.

Definition str_take (n : nat) (s : string) : string :=
  string_of_list_ascii (take n (list_ascii_of_string s)).

Section Handlers.
Context (E : env).

Definition emit (a : action) : M unit :=
  λ w, (Ok tt, World (disk w) (conn w) (trace w ++ [a]) (uuid_ctr w)).

(** A storage action either fails in the engine or is taken (and
    logged). *)
Definition attempt (a : action) : M unit :=
  match fault E a with
  | Some msg => raise (OperationalError msg)
  | None => emit a
  end.

(** [aiosqlite.connect(DB_PATH)] *)
Definition connect : M unit :=
  attempt Connect ;;
  λ w, (Ok tt, World (disk w) (Some (Conn (disk w) false)) (trace w) (uuid_ctr w)).

(** [db.execute(...)] / [db.execute_fetchall(...)] of a statement [f] *)
Definition execute {A} (s : stmt) (f : bool → db → outcome (A * db)) : M A :=
  attempt (Execute s) ;;
  λ w, match conn w with
       | None => (Raise ProgrammingError, w)
       | Some c =>
           match f (foreign_keys c) (c_db c) with
           | Ok (a, d) =>
               (Ok a, World (disk w) (Some (Conn d (foreign_keys c))) (trace w) (uuid_ctr w))
           | Raise e => (Raise e, w)
           end
       end.

(** A statement that only reads. *)
Definition query {A} (f : db → outcome A) : bool → db → outcome (A * db) :=
  λ _ d, match f d with Ok a => Ok (a, d) | Raise e => Raise e end.

(** A statement that only writes. *)
Definition update (f : bool → db → outcome db) : bool → db → outcome (unit * db) :=
  λ fk d, match f fk d with Ok d' => Ok (tt, d') | Raise e => Raise e end.

(** [PRAGMA foreign_keys=ON] *)
Definition pragma_foreign_keys : M unit :=
  attempt (Execute PRAGMA_foreign_keys) ;;
  λ w, match conn w with
       | None => (Raise ProgrammingError, w)
       | Some c => (Ok tt, World (disk w) (Some (Conn (c_db c) true)) (trace w) (uuid_ctr w))
       end.

(** [db.executescript(...)]: the script runs outside any transaction, so
    its effect reaches the file at once. *)
Definition executescript (s : stmt) (f : db → db) : M unit :=
  attempt (Execute s) ;;
  λ w, match conn w with
       | None => (Raise ProgrammingError, w)
       | Some c =>
           (Ok tt, World (f (disk w)) (Some (Conn (f (c_db c)) (foreign_keys c)))
                     (trace w) (uuid_ctr w))
       end.

(** [db.commit()] *)
Definition commit : M unit :=
  attempt Commit ;;
  λ w, match conn w with
       | None => (Raise ProgrammingError, w)
       | Some c => (Ok tt, World (c_db c) (conn w) (trace w) (uuid_ctr w))
       end.

(** [db.close()]: uncommitted changes are dropped. *)
Definition close : M unit :=
  emit Close ;;
  λ w, (Ok tt, World (disk w) None (trace w) (uuid_ctr w)).

(** [uuid.uuid4().hex] *)
Definition uuid4 : M string :=
  λ w, (Ok (uuid4_hex E (uuid_ctr w)),
        World (disk w) (conn w) (trace w) (S (uuid_ctr w))).

(** *** database.py *)

Definition get_db : M unit :=
  connect ;;
  execute PRAGMA_journal_mode (query (λ _, Ok tt)) ;;
  pragma_foreign_keys.

Definition init_db : M unit :=
  get_db ;;
  executescript CREATE_schema create_schema ;;
  commit ;;
  close.

(** *** main.py: tracking routes *)

Definition geolocate_ip (ip : string) : M string :=
  if bool_decide (ip = "") || bool_decide (ip ∈ ["127.0.0.1"; "::1"; "testclient"])
  then ret ""
  else
    emit (HttpGet ip) ;;
    ret (match ip_api E ip with
         | Some r =>
             if (geo_status r =? 200)%nat then
               if negb (bool_decide (geo_city r = ""))
                  && negb (bool_decide (geo_country r = ""))
               then geo_city r ++ ", " ++ geo_country r
               else geo_country r
             else ""
         | None => ""
         end).

Definition no_cache : string := "no-store, no-cache, must-revalidate, max-age=0".

Definition track_open (tracking_id : string) (request : request) : M response :=
  get_db ;;
  early <- try_finally
    (let ip := client_ip request in
     ignored <- execute SELECT_ignored_ip (query (select_ignored_ip ip)) ;;
     if negb (bool_decide (ignored = [])) then
       ret (Some (Response PIXEL_PNG "image/png" [("Cache-Control", no_cache)]))
     else
       execute INSERT_OR_IGNORE_email
         (update (λ _, insert_or_ignore_email (now E) tracking_id)) ;;
       country <- geolocate_ip ip ;;
       execute INSERT_event
         (update (λ fk, insert_event fk (now E) tracking_id None EvOpen ip
                          (default "" (headers_get "user-agent" (headers request)))
                          country)) ;;
       commit ;;
       ret None)
    close ;;
  match early with
  | Some resp => ret resp
  | None =>
      ret (Response PIXEL_PNG "image/png"
             [("Cache-Control", no_cache); ("Pragma", "no-cache"); ("Expires", "0")])
  end.

Definition track_click (link_id : string) (request : request) : M response :=
  get_db ;;
  r <- try_finally
    (rows <- execute SELECT_link (query (select_link link_id)) ;;
     match rows with
     | [] => ret (inl (JSONResponse (JObj [("error", JStr "Link not found")]) 404))
     | link :: _ =>
         let ip := client_ip request in
         ignored <- execute SELECT_ignored_ip (query (select_ignored_ip ip)) ;;
         (if bool_decide (ignored = []) then
            country <- geolocate_ip ip ;;
            execute INSERT_event
              (update (λ fk, insert_event fk (now E) (link_email_id link) (Some link_id)
                               EvClick ip
                               (default "" (headers_get "user-agent" (headers request)))
                               country)) ;;
            commit
          else ret tt) ;;
         ret (inr (original_url link))
     end)
    close ;;
  match r with
  | inl resp => ret resp
  | inr redirect_url => ret (RedirectResponse redirect_url 302)
  end.

(** *** main.py: API routes *)

(** A Python value bound to a statement parameter, as it is stored in a
    TEXT column; [None] is NULL.  Lists and dicts cannot be bound. *)
Definition bind_param (v : json) : outcome (option string) :=
  match v with
  | JNull => Ok None
  | JBool b => Ok (Some (if b then "1" else "0"))
  | JInt z =>
      if ((- 2 ^ 63 <=? z) && (z <? 2 ^ 63))%Z then Ok (Some (pretty z))
      else Raise OverflowError
  | JFloat f => Ok (Some (sql_real_text E f))
  | JStr s => Ok (Some s)
  | JArr _ | JObj _ => Raise InterfaceError
  end.

Definition not_null (col : string) (v : option string) : outcome string :=
  match v with
  | Some s => Ok s
  | None => Raise (IntegrityError ("NOT NULL constraint failed: " ++ col))
  end.

(** [str(v)], as an f-string formats it. *)
Definition py_str (v : json) : string :=
  match v with
  | JNull => "None"
  | JBool b => if b then "True" else "False"
  | JInt z => pretty z
  | JFloat f => py_float_str E f
  | JStr s => s
  | JArr _ | JObj _ => py_repr E v
  end.

(** The sequence a [for] loop walks through. *)
Definition py_iter (v : json) : outcome (list json) :=
  match v with
  | JArr l => Ok l
  | JStr s => Ok ((λ c, JStr (String c "")) <$> list_ascii_of_string s)
  | JObj kv => Ok ((λ p, JStr p.1) <$> kv)
  | _ => Raise TypeError
  end.

(** [await request.json()], then the [.get] calls need a dict. *)
Definition request_dict (request : request) : M (list (string * json)) :=
  match body request with
  | None => raise JSONDecodeError
  | Some (JObj kv) => ret kv
  | Some _ => raise AttributeError
  end.

(** The upsert of [create_email] with its parameters: the statement is
    compiled, the parameters are bound, then the row is written.  (The id
    is a truthy value, so it is never NULL.) *)
Definition upsert_email_stmt (email_id subj rcpt : json) (d : db) : outcome db :=
  match emails d with
  | None => no_such_table "emails"
  | Some _ =>
      match bind_param email_id, bind_param subj, bind_param rcpt with
      | Raise e, _, _ | Ok _, Raise e, _ | Ok _, Ok _, Raise e => Raise e
      | Ok i, Ok s, Ok r =>
          match not_null "emails.id" i, not_null "emails.subject" s,
                not_null "emails.recipient" r with
          | Raise e, _, _ | Ok _, Raise e, _ | Ok _, Ok _, Raise e => Raise e
          | Ok i', Ok s', Ok r' => upsert_email (now E) i' s' r' d
          end
      end
  end.

Definition insert_link_stmt (fk : bool) (link_id : string) (email_id url : json) (d : db)
  : outcome db :=
  match links d with
  | None => no_such_table "links"
  | Some _ =>
      match bind_param email_id, bind_param url with
      | Raise e, _ | Ok _, Raise e => Raise e
      | Ok i, Ok u =>
          match not_null "links.email_id" i, not_null "links.original_url" u with
          | Raise e, _ | Ok _, Raise e => Raise e
          | Ok i', Ok u' => insert_link fk link_id i' u' d
          end
      end
  end.

(** The body returned by [create_email]. *)
Record registration := Registration {
  reg_email_id : json;
  reg_pixel_url : string;
  reg_links : list (json * string)
}.

Definition create_email (request : request) : M registration :=
  body <- request_dict request ;;
  email_id <- (let v := default JNull (dict_lookup "emailId" body) in
               if py_truthy v then ret v
               else hex <- uuid4 ;; ret (JStr (str_take 12 hex))) ;;
  let subj := dict_get "subject" (JStr "") body in
  let rcpt := dict_get "recipient" (JStr "") body in
  let link_urls := dict_get "links" (JArr []) body in
  get_db ;;
  link_mappings <- try_finally
    (execute UPSERT_email (update (λ _, upsert_email_stmt email_id subj rcpt)) ;;
     urls <- lift (py_iter link_urls) ;;
     link_mappings <- for_each urls (λ url,
       hex <- uuid4 ;;
       let link_id := str_take 10 hex in
       execute INSERT_link (update (λ fk, insert_link_stmt fk link_id email_id url)) ;;
       ret (url, "/c/" ++ link_id)) ;;
     commit ;;
     ret link_mappings)
    close ;;
  ret (Registration email_id ("/t/" ++ py_str email_id ++ ".png") link_mappings).

(** [DELETE /api/emails/{email_id}] *)
Definition delete_email (email_id : string) : M unit :=
  get_db ;;
  try_finally
    (execute DELETE_email (update (λ fk, sql_delete_email fk email_id)) ;;
     commit)
    close.

(** *** main.py: analytics *)

Definition is_open (e : event_row) : Prop := ev_type e = EvOpen.
Definition is_click (e : event_row) : Prop := ev_type e = EvClick.
Definition of_email (id : string) (e : event_row) : Prop := ev_email_id e = id.

Global Instance is_open_dec e : Decision (is_open e).
Proof. unfold is_open. apply _. Defined.
Global Instance is_click_dec e : Decision (is_click e).
Proof. unfold is_click. apply _. Defined.
Global Instance of_email_dec id e : Decision (of_email id e).
Proof. unfold of_email. apply _. Defined.

(** A row of the listing. *)
Record email_summary := EmailSummary {
  sum_id : string;
  sum_subject : string;
  sum_recipient : string;
  sum_created_at : N;
  open_count : nat;
  click_count : nat;
  last_opened : option N
}.

(** [WHERE e.subject LIKE ? OR e.recipient LIKE ?], present only when
    [search] is not empty *)
Definition matches (search : string) (kv : string * email_row) : Prop :=
  search = ""
  ∨ sql_like E ("%" ++ search ++ "%") (subject kv.2)
  ∨ sql_like E ("%" ++ search ++ "%") (recipient kv.2).

Global Instance matches_dec search kv : Decision (matches search kv).
Proof. unfold matches. apply _. Defined.

(** [MAX(...)] over a column: NULL when there is no row. *)
Definition sql_max (l : list N) : option N :=
  match l with
  | [] => None
  | x :: l' => Some (foldr N.max x l')
  end.

Definition summary (evs : list event_row) (kv : string * email_row) : email_summary :=
  let mine := filter (of_email kv.1) evs in
  EmailSummary kv.1 (subject kv.2) (recipient kv.2) (created_at kv.2)
    (length (filter is_open mine))
    (length (filter is_click mine))
    (sql_max (ev_timestamp <$> filter is_open mine)).

(** [ORDER BY e.created_at DESC] (rows created in the same second come in
    the order of the scan). *)
Definition newest_first (a b : email_summary) : Prop :=
  (sum_created_at b ≤ sum_created_at a)%N.

Global Instance newest_first_dec : RelDecision newest_first.
Proof. intros a b. unfold newest_first. apply _. Defined.

(** [SELECT COUNT( * ) as total FROM emails e {where}] *)
Definition select_email_count (search : string) (d : db) : outcome nat :=
  match emails d with
  | None => no_such_table "emails"
  | Some m => Ok (length (filter (matches search) (map_to_list m)))
  end.

(** The grouped join of [list_emails], before [LIMIT] and [OFFSET]. *)
Definition select_email_page (search : string) (per_page offset : nat) (d : db)
  : outcome (list email_summary) :=
  match emails d, events d with
  | None, _ => no_such_table "emails"
  | _, None => no_such_table "events"
  | Some m, Some evs =>
      Ok (take per_page (drop offset
            (merge_sort newest_first
               (summary evs <$> filter (matches search) (map_to_list m)))))
  end.

Record listing := Listing {
  lst_emails : list email_summary;
  lst_total : nat;
  lst_page : Z;
  lst_per_page : Z
}.

(** [page: int = Query(1, ge=1)], [per_page: int = Query(50, ge=1, le=200)]:
    a request outside these bounds is answered by the framework ([None]
    here) and the handler body does not run. *)
Definition list_emails (page per_page : Z) (search : string) : M (option listing) :=
  if negb ((1 <=? page) && (1 <=? per_page) && (per_page <=? 200))%Z then ret None
  else
    get_db ;;
    try_finally
      (let offset := ((page - 1) * per_page)%Z in
       total <- execute SELECT_email_count (query (select_email_count search)) ;;
       rows <- execute SELECT_email_page
                 (query (select_email_page search (Z.to_nat per_page) (Z.to_nat offset))) ;;
       ret (Some (Listing rows total page per_page)))
      close.

(** [SELECT * FROM emails WHERE id = ?] *)
Definition select_email (id : string) (d : db) : outcome (list email_row) :=
  match emails d with
  | None => no_such_table "emails"
  | Some m => Ok (option_list (m !! id))
  end.

Definition latest_first (a b : event_row * option string) : Prop :=
  (ev_timestamp b.1 ≤ ev_timestamp a.1)%N.

Global Instance latest_first_dec : RelDecision latest_first.
Proof. intros a b. unfold latest_first. apply _. Defined.

(** [SELECT ev.*, l.original_url FROM events ev LEFT JOIN links l
     ON l.id = ev.link_id WHERE ev.email_id = ? ORDER BY ev.timestamp DESC] *)
Definition select_email_events (id : string) (d : db)
  : outcome (list (event_row * option string)) :=
  match events d, links d with
  | None, _ => no_such_table "events"
  | _, None => no_such_table "links"
  | Some evs, Some lk =>
      Ok (merge_sort latest_first
            ((λ e, (e, ev_link_id e ≫= λ l, original_url <$> lk !! l))
               <$> filter (of_email id) evs))
  end.

(** [SELECT COUNT(DISTINCT ip) as count FROM events
     WHERE email_id = ? AND event_type = 'open'] *)
Definition select_unique_opens (id : string) (d : db) : outcome nat :=
  match events d with
  | None => no_such_table "events"
  | Some evs =>
      Ok (length (remove_dups (ev_ip <$> filter is_open (filter (of_email id) evs))))
  end.

(** The two [COALESCE(SUM(CASE ...), 0)] totals of one email *)
Definition select_counts (id : string) (d : db) : outcome (nat * nat) :=
  match events d with
  | None => no_such_table "events"
  | Some evs =>
      Ok (length (filter is_open (filter (of_email id) evs)),
          length (filter is_click (filter (of_email id) evs)))
  end.

(** [SELECT l.id, l.original_url, COUNT(ev.id) as click_count FROM links l
     LEFT JOIN events ev ON ev.link_id = l.id AND ev.event_type = 'click'
     WHERE l.email_id = ? GROUP BY l.id] *)
Definition select_link_stats (id : string) (d : db)
  : outcome (list (string * string * nat)) :=
  match links d, events d with
  | None, _ => no_such_table "links"
  | _, None => no_such_table "events"
  | Some lk, Some evs =>
      Ok ((λ kv : string * link_row,
             (kv.1, original_url kv.2,
              length (filter (λ e, ev_link_id e = Some kv.1 ∧ is_click e) evs)))
            <$> filter (λ kv : string * link_row, owned_by id kv.2) (map_to_list lk))
  end.

Record email_detail := EmailDetail {
  det_id : string;
  det_email : email_row;
  det_events : list (event_row * option string);
  unique_opens : nat;
  total_opens : nat;
  total_clicks : nat;
  link_stats : list (string * string * nat)
}.

Definition get_email (email_id : string) : M (response + email_detail) :=
  get_db ;;
  try_finally
    (rows <- execute SELECT_email (query (select_email email_id)) ;;
     match rows with
     | [] => ret (inl (JSONResponse (JObj [("error", JStr "Not found")]) 404))
     | email :: _ =>
         evs <- execute SELECT_email_events (query (select_email_events email_id)) ;;
         uniq <- execute SELECT_unique_opens (query (select_unique_opens email_id)) ;;
         counts <- execute SELECT_counts (query (select_counts email_id)) ;;
         ls <- execute SELECT_link_stats (query (select_link_stats email_id)) ;;
         ret (inr (EmailDetail email_id email evs uniq counts.1 counts.2 ls))
     end)
    close.

(** The three scalar subqueries of [get_stats] *)
Definition select_totals (d : db) : outcome (nat * nat * nat) :=
  match emails d, events d with
  | None, _ => no_such_table "emails"
  | _, None => no_such_table "events"
  | Some m, Some evs =>
      Ok (size m, length (filter is_open evs), length (filter is_click evs))
  end.

(** [SELECT COUNT(DISTINCT email_id) as count FROM events
     WHERE event_type = 'open'] *)
Definition select_opened (d : db) : outcome nat :=
  match events d with
  | None => no_such_table "events"
  | Some evs => Ok (length (remove_dups (ev_email_id <$> filter is_open evs)))
  end.

(** [DATE(timestamp)], as a day number *)
Definition sql_date (t : N) : N := (t / 86400)%N.

(** [SELECT DATE(timestamp) as date, SUM(...) as opens, SUM(...) as clicks
     FROM events WHERE timestamp >= DATE('now', '-30 days')
     GROUP BY DATE(timestamp) ORDER BY date] *)
Definition select_activity (d : db) : outcome (list (N * nat * nat)) :=
  match events d with
  | None => no_such_table "events"
  | Some evs =>
      let recent := filter (λ e, (sql_date (now E) - 30 ≤ sql_date (ev_timestamp e))%N) evs in
      let days := merge_sort N.le (remove_dups (sql_date ∘ ev_timestamp <$> recent)) in
      Ok ((λ day,
             let that_day := filter (λ e, sql_date (ev_timestamp e) = day) recent in
             (day, length (filter is_open that_day), length (filter is_click that_day)))
            <$> days)
  end.

Record stats := Stats {
  total_emails : nat;
  st_total_opens : nat;
  st_total_clicks : nat;
  emails_opened : nat;
  open_rate : json;
  activity : list (N * nat * nat)
}.

Definition get_stats : M stats :=
  get_db ;;
  try_finally
    (t <- execute SELECT_totals (query select_totals) ;;
     opened <- execute SELECT_opened (query select_opened) ;;
     rate <- (if (0 <? t.1.1)%nat
              then q <- lift (py_truediv opened t.1.1) ;;
                   ret (JFloat (py_round1 (q * 100)))
              else ret (JInt 0)) ;;
     act <- execute SELECT_activity (query select_activity) ;;
     ret (Stats t.1.1 t.1.2 t.2 opened rate act))
    close.

(** *** main.py: ignored IPs *)

Definition added_last (a b : string * ignored_row) : Prop :=
  (ig_created_at b.2 ≤ ig_created_at a.2)%N.

Global Instance added_last_dec : RelDecision added_last.
Proof. intros a b. unfold added_last. apply _. Defined.

(** [SELECT * FROM ignored_ips ORDER BY created_at DESC] *)
Definition select_ignored_ips (d : db) : outcome (list (string * ignored_row)) :=
  match ignored_ips d with
  | None => no_such_table "ignored_ips"
  | Some m => Ok (merge_sort added_last (map_to_list m))
  end.

Definition list_ignored_ips : M (list (string * ignored_row)) :=
  get_db ;;
  try_finally (execute SELECT_ignored_ips (query select_ignored_ips)) close.

(** The insert of [add_ignored_ip] and [dashboard] with its parameters.
    (The ip is a truthy value, so it is never NULL.) *)
Definition insert_ignored_ip_stmt (ip lbl : json) (d : db) : outcome db :=
  match ignored_ips d with
  | None => no_such_table "ignored_ips"
  | Some _ =>
      match bind_param ip, bind_param lbl with
      | Raise e, _ | Ok _, Raise e => Raise e
      | Ok i, Ok l =>
          match not_null "ignored_ips.ip" i with
          | Raise e => Raise e
          | Ok i' => insert_or_ignore_ignored_ip (now E) i' l d
          end
      end
  end.

Definition add_ignored_ip (request : request) : M json :=
  body <- request_dict request ;;
  let ip := (let v := default JNull (dict_lookup "ip" body) in
             if py_truthy v then v else JStr (client_ip request)) in
  let lbl := dict_get "label" (JStr "") body in
  get_db ;;
  try_finally
    (execute INSERT_OR_IGNORE_ignored_ip (update (λ _, insert_ignored_ip_stmt ip lbl)) ;;
     commit)
    close ;;
  ret ip.

Definition remove_ignored_ip (ip : string) : M unit :=
  get_db ;;
  try_finally
    (execute DELETE_ignored_ip (update (λ _, sql_delete_ignored_ip ip)) ;;
     commit)
    close.

Definition my_ip (request : request) : M string :=
  ret (client_ip request).

Definition dashboard (request : request) : M string :=
  let ip := client_ip request in
  (if negb (bool_decide (ip = "")) && negb (bool_decide (ip ∈ ["127.0.0.1"; "::1"]))
   then
     get_db ;;
     try_finally
       (execute INSERT_OR_IGNORE_ignored_ip
          (update (λ _, insert_ignored_ip_stmt (JStr ip)
                          (JStr "Auto-detected (dashboard visit)"))) ;;
        commit)
       close
   else ret tt) ;;
  ret (index_html E).
End Handlers.

(** ** Vocabulary of the properties *)

(** Rows of a table, none when the table has not been created. *)
Definition emails_of (d : db) : gmap string email_row := default ∅ (emails d).
Definition links_of (d : db) : gmap string link_row := default ∅ (links d).
Definition events_of (d : db) : list event_row := default [] (events d).

(** The kind/link rule for one event: an open has no link, a click names a
    link row of the same email. *)
Definition event_ok (lk : gmap string link_row) (e : event_row) : Prop :=
  match ev_type e with
  | EvOpen => ev_link_id e = None
  | EvClick => ∃ l row, ev_link_id e = Some l ∧ lk !! l = Some row
                        ∧ link_email_id row = ev_email_id e
  end.

Definition kind_link_invariant (d : db) : Prop :=
  Forall (event_ok (links_of d)) (events_of d).

(** Every reference points at an existing row. *)
Definition event_refs_ok (d : db) (e : event_row) : Prop :=
  is_Some (emails_of d !! ev_email_id e)
  ∧ ∀ l, ev_link_id e = Some l → is_Some (links_of d !! l).

Definition referential_integrity (d : db) : Prop :=
  Forall (event_refs_ok d) (events_of d)
  ∧ map_Forall (λ _ row, is_Some (emails_of d !! link_email_id row)) (links_of d).

Definition store_invariant (d : db) : Prop :=
  kind_link_invariant d ∧ referential_integrity d.

(** ** A small program logic for the handler monad *)

(** [hoare P m Q R]: from a world in [P], [m] either returns [a] in a world
    in [Q a] or raises in a world in [R]. *)
Definition hoare {A} (P : world → Prop) (m : M A)
    (Q : A → world → Prop) (R : world → Prop) : Prop :=
  ∀ w, P w → match m w with
             | (Ok a, w') => Q a w'
             | (Raise _, w') => R w'
             end.

(** A connection is open with foreign keys on; the file satisfies [D] and
    the connection's view satisfies [J]. *)
Definition opened (D J : db → Prop) (w : world) : Prop :=
  D (disk w) ∧ ∃ c, conn w = Some c ∧ J (c_db c) ∧ foreign_keys c = true.

Definition on_disk (D : db → Prop) (w : world) : Prop := D (disk w).

(** [keeps m]: inside the connection scope, [m] maintains the invariant of
    the file and of the connection's view. *)
Definition keeps {A} (m : M A) : Prop :=
  hoare (opened store_invariant store_invariant) m
    (λ _, opened store_invariant store_invariant)
    (opened store_invariant store_invariant).

(** [safe m]: a handler as a whole maintains the invariant of the file. *)
Definition safe {A} (m : M A) : Prop :=
  hoare (on_disk store_invariant) m
    (λ _, on_disk store_invariant) (on_disk store_invariant).

(** ** Requests over time *)

Inductive call :=
| InitDb
| TrackOpen (tracking_id : string) (rq : request)
| TrackClick (link_id : string) (rq : request)
| CreateEmail (rq : request)
| ListEmails (page per_page : Z) (search : string)
| GetEmail (email_id : string)
| DeleteEmail (email_id : string)
| GetStats
| ListIgnoredIps
| AddIgnoredIp (rq : request)
| RemoveIgnoredIp (ip : string)
| MyIp (rq : request)
| Dashboard (rq : request).

(** The world after one call, whatever it returned. *)
Definition run_call (E : env) (c : call) (w : world) : world :=
  match c with
  | InitDb => (init_db E w).2
  | TrackOpen tracking_id rq => (track_open E tracking_id rq w).2
  | TrackClick link_id rq => (track_click E link_id rq w).2
  | CreateEmail rq => (create_email E rq w).2
  | ListEmails page per_page search => (list_emails E page per_page search w).2
  | GetEmail email_id => (get_email E email_id w).2
  | DeleteEmail email_id => (delete_email E email_id w).2
  | GetStats => (get_stats E w).2
  | ListIgnoredIps => (list_ignored_ips E w).2
  | AddIgnoredIp rq => (add_ignored_ip E rq w).2
  | RemoveIgnoredIp ip => (remove_ignored_ip E ip w).2
  | MyIp rq => (my_ip rq w).2
  | Dashboard rq => (dashboard E rq w).2
  end.

(** The worlds the server can be in, started on the store file [d0]; the
    environment may differ from call to call. *)
Inductive reachable (d0 : db) : world → Prop :=
| reachable_start : reachable d0 (World d0 None [] 0)
| reachable_step E c w : reachable d0 w → reachable d0 (run_call E c w).

(** ** Traces *)

(** Some lookup is made while a connection is open ([held] tells whether one
    is open before the first action of [tr]). *)
Fixpoint held_during_lookup (held : bool) (tr : list action) : bool :=
  match tr with
  | [] => false
  | Connect :: tr' => held_during_lookup true tr'
  | Close :: tr' => held_during_lookup false tr'
  | HttpGet _ :: tr' => held || held_during_lookup held tr'
  | Execute _ :: tr' | Commit :: tr' => held_during_lookup held tr'
  end.

(** Some lookup is made while no connection is open. *)
Fixpoint lookup_without_connection (held : bool) (tr : list action) : bool :=
  match tr with
  | [] => false
  | Connect :: tr' => lookup_without_connection true tr'
  | Close :: tr' => lookup_without_connection false tr'
  | HttpGet _ :: tr' => negb held || lookup_without_connection held tr'
  | Execute _ :: tr' | Commit :: tr' => lookup_without_connection held tr'
  end.

(** The connection of one request: opened once, closed once, at the end. *)
Definition scoped_connection (tr : list action) : Prop :=
  count_occ action_eq_dec tr Connect = 1
  ∧ count_occ action_eq_dec tr Close = 1
  ∧ last tr = Some Close.

(** The environment [E] on a day without storage faults. *)
Definition quiet (E : env) : env :=
  Env (now E) (λ _, None) (ip_api E) (uuid4_hex E) (sql_like E) (sql_real_text E)
    (py_float_str E) (py_repr E) (index_html E).

(** ** Sample data *)

(** A store with all four tables, empty. *)
Definition provisioned : db := Db (Some ∅) (Some ∅) (Some []) 0 (Some ∅).

(** An ordinary day: no storage faults, the geolocation service answers. *)
Definition calm : env :=
  Env 1700000000%N (λ _, None) (λ _, Some (GeoReply 200 "Paris" "France"))
    (λ n, match n with
          | 0 => "a1b2c3d4e5f60718293a4b5c6d7e8f90"
          | 1 => "0f1e2d3c4b5a69788796a5b4c3d2e1f0"
          | _ => "5566778899aabbccddeeff0011223344"
          end)
    (λ _ _, true) (λ _, "0.0") (λ _, "0.0") (λ _, "[]") "<html></html>".

(** A recipient's mail client. *)
Definition reader : request :=
  Request [("user-agent", "Mail/1.0"); ("x-forwarded-for", "203.0.113.7, 10.0.0.1")]
    (Some "10.0.0.1") None.

(** Registration of email "x" with one link. *)
Definition register_x : request :=
  Request [] (Some "198.51.100.1")
    (Some (JObj [("emailId", JStr "x"); ("subject", JStr "Hello");
                 ("recipient", JStr "bob@example.org");
                 ("links", JArr [JStr "https://example.org/a"])])).

(** The link id that registration hands out first on a [calm] day. *)
Definition first_link : string := "a1b2c3d4e5".

(** Email "x" registered, its link clicked and its pixel loaded. *)
Definition after_click_and_open : world :=
  run_call calm (TrackOpen "x" reader)
    (run_call calm (TrackClick first_link reader)
       (run_call calm (CreateEmail register_x) (World provisioned None [] 0))).

(** ** Vocabulary of the tracking routes *)

(** The storage engine serves the connection and the two lookups of the
    tracking routes. *)
Definition lookups_succeed (E : env) : Prop :=
  fault E Connect = None
  ∧ fault E (Execute PRAGMA_journal_mode) = None
  ∧ fault E (Execute PRAGMA_foreign_keys) = None
  ∧ fault E (Execute SELECT_ignored_ip) = None
  ∧ fault E (Execute SELECT_link) = None.

(** The storage engine serves the connection and the ignore-list lookup: the
    request gets to the ignored-IP check. *)
Definition check_is_reached (E : env) : Prop :=
  fault E Connect = None
  ∧ fault E (Execute PRAGMA_journal_mode) = None
  ∧ fault E (Execute PRAGMA_foreign_keys) = None
  ∧ fault E (Execute SELECT_ignored_ip) = None.

(** The functional part of the open response: the pixel, as a PNG, not to be
    cached. *)
Definition pixel_response (r : response) : Prop :=
  ∃ hs, r = Response PIXEL_PNG "image/png" hs
        ∧ headers_get "Cache-Control" hs = Some no_cache.

(** The response at the end of [track_open]. *)
Definition pixel_full : response :=
  Response PIXEL_PNG "image/png"
    [("Cache-Control", no_cache); ("Pragma", "no-cache"); ("Expires", "0")].

(** Some lookup is made in [tr]. *)
Fixpoint looks_up (tr : list action) : bool :=
  match tr with
  | [] => false
  | HttpGet _ :: _ => true
  | _ :: tr' => looks_up tr'
  end.

(** The connection has been acquired in [tr]: [get_db] ran to its end. *)
Fixpoint acquired (tr : list action) : bool :=
  match tr with
  | [] => false
  | Execute PRAGMA_foreign_keys :: _ => true
  | _ :: tr' => acquired tr'
  end.

(** A day on which the store is locked whenever an event is to be written. *)
Definition locked : env :=
  Env 1700000000%N
    (λ a, if bool_decide (a = Execute INSERT_event) then Some "database is locked" else None)
    (ip_api calm) (uuid4_hex calm) (sql_like calm) (sql_real_text calm)
    (py_float_str calm) (py_repr calm) (index_html calm).

(** Email "x" registered with its link, nothing else yet. *)
Definition after_registration : world :=
  run_call calm (CreateEmail register_x) (World provisioned None [] 0).

(** The same, after the reader's address has been put on the ignore list. *)
Definition reader_ignored : world :=
  run_call calm
    (AddIgnoredIp (Request [] None (Some (JObj [("ip", JStr "203.0.113.7")]))))
    after_registration.

(** ** Vocabulary of registration *)

(** A registration body: id, subject and, when given, recipient. *)
Definition registration_of (id subj : string) (rcpt : option string) : request :=
  Request [] None
    (Some (JObj ([("emailId", JStr id); ("subject", JStr subj)]
                 ++ from_option (λ r, [("recipient", JStr r)]) [] rcpt))).

Definition register_a : request := registration_of "x" "A" None.
Definition register_b : request := registration_of "x" "B" None.




(** ** Tactics *)

Ltac unfold_monad :=
  unfold get_db, connect, execute, pragma_foreign_keys, executescript, commit, close,
    geolocate_ip, try_finally, bind, attempt, emit, ret, raise, lift, query, update.

Ltac innermost x :=
  lazymatch x with
  | context [match ?y with _ => _ end] => innermost y
  | _ => x
  end.

(** Case analysis on every storage fault, statement outcome and test met on
    the way, innermost first; known outcomes are rewritten. *)
Ltac walk :=
  repeat (simpl in *; try done;
          match goal with
          | |- context [match ?x with _ => _ end] =>
              let y := innermost x in
              first [ match goal with H : y = _ |- _ => rewrite H end
                    | destruct y eqn:? ]
          end).

(** ** Vocabulary of the analytics *)

(** Email [id] has at least one open event. *)
Definition has_open (evs : list event_row) (id : string) : Prop :=
  Exists (λ e, is_open e ∧ of_email id e) evs.

Global Instance has_open_dec evs id : Decision (has_open evs id).
Proof. unfold has_open. apply _. Defined.

(** The number of emails with at least one open event. *)
Definition emails_with_open (d : db) : nat :=
  size (filter (λ kv, has_open (events_of d) kv.1) (emails_of d)).

(** [part] out of [whole] as a percentage rounded to one decimal, 0 when
    there is nothing to take a share of. *)
Definition percentage (part whole : nat) : json :=
  if bool_decide (whole = 0) then JInt 0
  else JFloat (py_round1 (float_of_Z (Z.of_nat part) / float_of_Z (Z.of_nat whole) * 100)).

(** *** Binary64 rounding *)

(** The rational [num / den] lies at the place [shr_r], [shr_s] say it does
    between the integers [shr_m] and [shr_m + 1]: on the lower one, below
    the middle, on the middle or above it. *)
Definition lies_at (num den : Z) (mrs : shr_record) : Prop :=
  (0 < den)%Z
  ∧ match shr_r mrs, shr_s mrs with
    | false, false => (num = shr_m mrs * den)%Z
    | false, true => (shr_m mrs * den < num ∧ 2 * num < (2 * shr_m mrs + 1) * den)%Z
    | true, false => (2 * num = (2 * shr_m mrs + 1) * den)%Z
    | true, true => ((2 * shr_m mrs + 1) * den < 2 * num ∧ num < (shr_m mrs + 1) * den)%Z
    end.

(** [f] is a double nearest to the rational [num / den], for [0 ≤ num] and
    [0 < den]: zero for zero, and otherwise a normal number [m * 2 ^ e],
    [2 ^ 52 ≤ m < 2 ^ 53], [e ≤ 0], at most half a unit in the last place
    away from [num / den]. *)
Definition nearest_double (num den : Z) (f : float) : Prop :=
  match Prim2SF f with
  | S754_zero false => num = 0%Z
  | S754_finite false m e =>
      (2 ^ 52 ≤ Z.pos m < 2 ^ 53)%Z ∧ (e ≤ 0)%Z
      ∧ (2 * Z.abs (Z.pos m * den - num * 2 ^ (- e)) ≤ den)%Z
  | _ => False
  end.

(** [d] tenths is a multiple of 0.1 nearest to [part] out of [whole] as a
    percentage: [d] is an integer nearest to [1000 * part / whole]. *)
Definition nearest_tenth (part whole : nat) (d : Z) : Prop :=
  (Z.abs (2 * d * Z.of_nat whole - 2000 * Z.of_nat part) ≤ Z.of_nat whole)%Z.

(** [j] is the float that [part] out of [whole] makes as a percentage
    rounded to one decimal: a double nearest to [d / 10] for a nearest
    number of tenths [d]. *)
Definition rounded_percentage (part whole : nat) (j : json) : Prop :=
  ∃ d f, j = JFloat f ∧ nearest_double d 10 f ∧ nearest_tenth part whole d.

(** The client addresses of the open events of email [id], one per event. *)
Definition open_ips (id : string) (d : db) : list string :=
  ev_ip <$> filter (λ e, of_email id e ∧ is_open e) (events_of d).

(** Three emails, the first opened twice from one address and once from
    another, the second opened once, the third never. *)
Definition three_emails : world :=
  let opened_from ip id :=
    TrackOpen id (Request [("user-agent", "Mail/1.0")] (Some ip) None) in
  foldl (λ w c, run_call calm c w) (World provisioned None [] 0)
    [CreateEmail (registration_of "x" "A" None);
     CreateEmail (registration_of "y" "B" None);
     CreateEmail (registration_of "z" "C" None);
     opened_from "203.0.113.7" "x";
     opened_from "203.0.113.7" "x";
     opened_from "198.51.100.9" "x";
     opened_from "203.0.113.7" "y"].

(** ** Vocabulary of the client address *)

(** Only whitespace. *)
Fixpoint blank (s : string) : bool :=
  match s with
  | "" => true
  | String c s' => py_isspace c && blank s'
  end.

Fixpoint has_comma (s : string) : bool :=
  match s with
  | "" => false
  | String c s' => bool_decide (c = ","%char) || has_comma s'
  end.

Fixpoint last_char (s : string) : option ascii :=
  match s with
  | "" => None
  | String c "" => Some c
  | String _ s' => last_char s'
  end.

(** Not empty, and neither the first nor the last character is whitespace. *)
Definition trimmed (s : string) : bool :=
  match s, last_char s with
  | String c _, Some c' => negb (py_isspace c) && negb (py_isspace c')
  | _, _ => false
  end.

(** What may follow the first entry of a comma-separated header. *)
Definition more_entries (t : string) : bool :=
  match t with
  | "" => true
  | String c _ => bool_decide (c = ","%char)
  end.


(** ** Vocabulary of the handlers as a whole *)

(** The addresses [geolocate_ip] does not look up. *)
Definition local_address (ip : string) : bool :=
  bool_decide (ip ∈ [""; "127.0.0.1"; "::1"; "testclient"]).

(** The storage engine lets [get_db] through. *)
Definition acquires (E : env) : Prop :=
  fault E Connect = None
  ∧ fault E (Execute PRAGMA_journal_mode) = None
  ∧ fault E (Execute PRAGMA_foreign_keys) = None.

(** The exception a computation ended with, if any. *)
Definition failure {A} (r : outcome A * world) : option exn :=
  match r.1 with
  | Raise e => Some e
  | Ok _ => None
  end.

(** The exception a call ended with, if any. *)
Definition call_failure (E : env) (c : call) (w : world) : option exn :=
  match c with
  | InitDb => failure (init_db E w)
  | TrackOpen tracking_id rq => failure (track_open E tracking_id rq w)
  | TrackClick link_id rq => failure (track_click E link_id rq w)
  | CreateEmail rq => failure (create_email E rq w)
  | ListEmails page per_page search => failure (list_emails E page per_page search w)
  | GetEmail email_id => failure (get_email E email_id w)
  | DeleteEmail email_id => failure (delete_email E email_id w)
  | GetStats => failure (get_stats E w)
  | ListIgnoredIps => failure (list_ignored_ips E w)
  | AddIgnoredIp rq => failure (add_ignored_ip E rq w)
  | RemoveIgnoredIp ip => failure (remove_ignored_ip E ip w)
  | MyIp rq => failure (my_ip rq w)
  | Dashboard rq => failure (dashboard E rq w)
  end.

(** The calls that only read the store. *)
Definition read_only (c : call) : bool :=
  match c with
  | ListEmails _ _ _ | GetEmail _ | GetStats | ListIgnoredIps | MyIp _ => true
  | _ => false
  end.

(** The file is [d]. *)
Definition at_store (d : db) : world → Prop := on_disk (eq d).

(** No connection is open. *)
Definition released (w : world) : Prop := conn w = None.

(** The place [geolocate_ip] reports for an address. *)
Definition located (E : env) (ip : string) : string :=
  match (geolocate_ip E ip (World empty_db None [] 0)).1 with
  | Ok place => place
  | Raise _ => ""
  end.

(** The User-Agent a request is logged with. *)
Definition user_agent (rq : request) : string :=
  default "" (headers_get "user-agent" (headers rq)).

(** A day on which the schema cannot be written. *)
Definition frozen : env :=
  Env 1700000000%N
    (λ a, if bool_decide (a = Execute CREATE_schema)
          then Some "attempt to write a readonly database" else None)
    (ip_api calm) (uuid4_hex calm) (sql_like calm) (sql_real_text calm)
    (py_float_str calm) (py_repr calm) (index_html calm).

(** A registration whose [links] is not a sequence. *)
Definition register_bad_links : request :=
  Request [] None (Some (JObj [("emailId", JStr "x"); ("links", JInt 5)])).

(** ** Vocabulary of the ignore list *)

Definition ignored_of (d : db) : gmap string ignored_row := default ∅ (ignored_ips d).

(** The address [add_ignored_ip] puts on the list: the body's [ip] when it
    is truthy, the caller's own address otherwise. *)
Definition address_to_ignore (rq : request) (kv : list (string * json)) : json :=
  match dict_lookup "ip" kv with
  | Some v => if py_truthy v then v else JStr (client_ip rq)
  | None => JStr (client_ip rq)
  end.

(** The addresses the dashboard does not put on the list. *)
Definition own_machine (ip : string) : bool :=
  bool_decide (ip ∈ [""; "127.0.0.1"; "::1"]).

(** A visitor of the dashboard. *)
Definition visitor : request :=
  Request [("cf-connecting-ip", "203.0.113.7")] (Some "10.0.0.1") None.

(** ** Vocabulary of the invariants *)

(** A property of the store that each statement of the handlers keeps (with
    foreign keys on, as [get_db] sets them). *)
Definition statements_keep (E : env) (I : db → Prop) : Prop :=
  (∀ d, I d → I (create_schema d))
  ∧ (∀ id d d', I d → insert_or_ignore_email (now E) id d = Ok d' → I d')
  ∧ (∀ email_id link_id ty ip ua country d d',
       I d → insert_event true (now E) email_id link_id ty ip ua country d = Ok d' → I d')
  ∧ (∀ id subj rcpt d d', I d → upsert_email (now E) id subj rcpt d = Ok d' → I d')
  ∧ (∀ id email_id url d d', I d → insert_link true id email_id url d = Ok d' → I d')
  ∧ (∀ id d d', I d → sql_delete_email true id d = Ok d' → I d')
  ∧ (∀ ip lbl d d', I d → insert_or_ignore_ignored_ip (now E) ip lbl d = Ok d' → I d')
  ∧ (∀ ip d d', I d → sql_delete_ignored_ip ip d = Ok d' → I d').

(** The three tables of [init_db] exist. *)
Definition schema_exists (d : db) : Prop :=
  is_Some (emails d) ∧ is_Some (links d) ∧ is_Some (events d).

(** Event ids are below the counter and grow along the log. *)
Definition ids_in_order (d : db) : Prop :=
  Forall (λ e, ev_id e ≤ events_seq d) (events_of d)
  ∧ StronglySorted (λ a b, ev_id a < ev_id b) (events_of d).

(** The store after start-up on a new file. *)
Definition started : world := (init_db calm (World empty_db None [] 0)).2.

(** ** Vocabulary of registration *)

(** The pair [p] of a submitted URL and the tracked URL handed out for it
    stands for a link row of the email: the row's key follows "/c/", and the
    row holds the email id and the URL as they are stored. *)
Definition link_registered (E : env) (d : db) (email_id : json) (p : json * string) : Prop :=
  ∃ id eid url,
    p.2 = "/c/" ++ id
    ∧ bind_param E email_id = Ok (Some eid)
    ∧ bind_param E p.1 = Ok (Some url)
    ∧ links_of d !! id = Some (LinkRow eid url).

Definition links_registered (E : env) (email_id : json) (l : list (json * string)) (d : db)
  : Prop :=
  Forall (link_registered E d email_id) l ∧ NoDup l.*2.

(** A registration with two links. *)
Definition register_two_links : request :=
  Request [] None
    (Some (JObj [("emailId", JStr "x");
                 ("links", JArr [JStr "https://example.org/a"; JStr "https://example.org/b"])])).

(** ** Vocabulary of the listing and the detail view *)

(** The events of email [id]. *)
Definition events_for (id : string) (d : db) : list event_row :=
  filter (of_email id) (events_of d).

(** The times at which email [id] was opened. *)
Definition open_times (id : string) (d : db) : list N :=
  ev_timestamp <$> filter is_open (events_for id d).

(** The offset of a page. *)
Definition page_offset (page per_page : Z) : nat := Z.to_nat ((page - 1) * per_page).

(** [page] and [per_page] are within the bounds the route declares. *)
Definition page_in_bounds (page per_page : Z) : Prop :=
  (1 ≤ page)%Z ∧ (1 ≤ per_page)%Z ∧ (per_page ≤ 200)%Z.

(** The clicks counted in a link breakdown. *)
Definition breakdown_clicks (ls : list (string * string * nat)) : nat :=
  sum_list (snd <$> ls).

(** A click on one of the links [ks]. *)
Definition click_on (ks : list string) (e : event_row) : Prop :=
  is_click e ∧ from_option (λ l, l ∈ ks) False (ev_link_id e).

Global Instance click_on_dec ks e : Decision (click_on ks e).
Proof. unfold click_on. destruct (ev_link_id e); simpl; apply _. Defined.

(** Email "x" registered with two links, the first of them clicked once. *)
Definition two_links_one_click : world :=
  run_call calm (TrackClick first_link reader)
    (run_call calm (CreateEmail register_two_links) (World provisioned None [] 0)).

(** The day after [calm]. *)
Definition a_day_later : env :=
  Env (now calm + 86400)%N (fault calm) (ip_api calm) (uuid4_hex calm) (sql_like calm)
    (sql_real_text calm) (py_float_str calm) (py_repr calm) (index_html calm).

(** The reader's address ignored, and a second address ignored a day later. *)
Definition two_ignored : world :=
  run_call a_day_later
    (AddIgnoredIp (Request [] None (Some (JObj [("ip", JStr "198.51.100.9")]))))
    reader_ignored.

(** The opens of [three_emails], and one more a day later. *)
Definition two_days : world :=
  run_call a_day_later (TrackOpen "x" reader) three_emails.

(** * Proofs *)

(** ** Rules of the program logic *)

Section Logic.
Context (E : env).

Lemma hoare_ret {A} (a : A) (P : world → Prop) (Q : A → world → Prop) R :
  (∀ w, P w → Q a w) → hoare P (ret a) Q R.
Proof. intros HPQ w Hw. exact (HPQ w Hw). Qed.

Lemma hoare_raise {A} e (P : world → Prop) (Q : A → world → Prop) (R : world → Prop) :
  (∀ w, P w → R w) → hoare P (raise e) Q R.
Proof. intros HPR w Hw. exact (HPR w Hw). Qed.

Lemma hoare_lift {A} (r : outcome A) (P : world → Prop) :
  hoare P (lift r) (λ a w, r = Ok a ∧ P w) P.
Proof. intros w Hw. unfold lift. destruct r; auto. Qed.

Lemma hoare_bind {A B} (m : M A) (f : A → M B) P Q Q' R :
  hoare P m Q R → (∀ a, hoare (Q a) (f a) Q' R) → hoare P (bind m f) Q' R.
Proof.
  intros Hm Hf w Hw. unfold bind. specialize (Hm w Hw).
  destruct (m w) as [[a|e] w']; [exact (Hf a w' Hm) | exact Hm].
Qed.

Lemma hoare_conseq {A} (m : M A) (P P' : world → Prop) (Q Q' : A → world → Prop)
    (R R' : world → Prop) :
  hoare P' m Q' R' → (∀ w, P w → P' w) → (∀ a w, Q' a w → Q a w) →
  (∀ w, R' w → R w) → hoare P m Q R.
Proof.
  intros Hm HP HQ HR w Hw. specialize (Hm w (HP w Hw)).
  destruct (m w) as [[a|e] w']; auto.
Qed.

Lemma hoare_try_finally {A} (body : M A) (fin : M unit) P Q R Q' R' :
  hoare P body Q R →
  (∀ a, hoare (Q a) fin (λ _, Q' a) R') →
  hoare R fin (λ _, R') R' →
  hoare P (try_finally body fin) Q' R'.
Proof.
  intros Hb Hq Hr w Hw. unfold try_finally. specialize (Hb w Hw).
  destruct (body w) as [[a|e] w'].
  - specialize (Hq a w' Hb). destruct (fin w') as [[[]|e'] w'']; exact Hq.
  - specialize (Hr w' Hb). destruct (fin w') as [[[]|e'] w'']; exact Hr.
Qed.

Lemma hoare_for_each {A B} (l : list A) (f : A → M B) (I : world → Prop) :
  (∀ x, hoare I (f x) (λ _, I) I) → hoare I (for_each l f) (λ _, I) I.
Proof.
  intros Hf. induction l as [|x l IH]; simpl.
  - by apply hoare_ret.
  - eapply hoare_bind; [apply Hf|]. intros y.
    eapply hoare_bind; [apply IH|]. intros ys. by apply hoare_ret.
Qed.

(** *** The primitives *)

Lemma hoare_emit a D J :
  hoare (opened D J) (emit a) (λ _, opened D J) (opened D J).
Proof. intros w Hw. exact Hw. Qed.

Lemma hoare_attempt a (P : world → Prop) :
  (∀ d c t n, P (World d c t n) → P (World d c (t ++ [a]) n)) →
  hoare P (attempt E a) (λ _, P) P.
Proof.
  intros HP [d c t n] Hw. unfold attempt. destruct (fault E a); simpl; auto.
Qed.

Lemma opened_trace D J d c t t' n n' :
  opened D J (World d c t n) → opened D J (World d c t' n').
Proof. intros Hw. exact Hw. Qed.

Lemma opened_weaken D (J J' : db → Prop) :
  (∀ d, J d → J' d) → ∀ w, opened D J w → opened D J' w.
Proof. intros HJ w [HD (c & Hc & Hd & Hfk)]. split; [done|]. eauto. Qed.

Lemma hoare_raises {A} (m : M A) P Q (R R' : world → Prop) :
  hoare P m Q R → (∀ w, R w → R' w) → hoare P m Q R'.
Proof. intros Hm HR. eapply hoare_conseq; [exact Hm|done|done|exact HR]. Qed.

Lemma hoare_uuid4 D J :
  hoare (opened D J) (uuid4 E) (λ _, opened D J) (opened D J).
Proof. intros w Hw. exact Hw. Qed.

Lemma hoare_geolocate_ip ip D J :
  hoare (opened D J) (geolocate_ip E ip) (λ _, opened D J) (opened D J).
Proof.
  intros w Hw. unfold geolocate_ip.
  destruct (_ || _); exact Hw.
Qed.

(** A statement run on the open connection. *)
Lemma hoare_execute {A} s (f : bool → db → outcome (A * db)) D J (J' : A → db → Prop) :
  (∀ d a d', J d → f true d = Ok (a, d') → J' a d') →
  hoare (opened D J) (execute E s f) (λ a, opened D (J' a)) (opened D J).
Proof.
  intros Hf [d c t n] [HD (c' & Hc & HJ & Hfk)]. simpl in *. subst c.
  unfold execute, bind, attempt. destruct (fault E (Execute s)); simpl.
  { split; [done|]. eauto. }
  rewrite Hfk. destruct (f true (c_db c')) as [[a d']|e] eqn:Hfd; simpl.
  - split; [done|]. eexists. split; [done|]. simpl. eauto.
  - split; [done|]. eauto.
Qed.

Lemma hoare_query {A} s (f : db → outcome A) D J :
  hoare (opened D J) (execute E s (query f))
    (λ a, opened D (λ d, J d ∧ f d = Ok a)) (opened D J).
Proof.
  apply hoare_execute. intros d a d' HJ. unfold query.
  destruct (f d) eqn:Hf; [|done]. intros [= -> ->]. done.
Qed.

Lemma hoare_update s (f : bool → db → outcome db) D J (J' : db → Prop) :
  (∀ d d', J d → f true d = Ok d' → J' d') →
  hoare (opened D J) (execute E s (update f)) (λ _, opened D J') (opened D J).
Proof.
  intros Hf. apply hoare_execute. intros d a d' HJ. unfold update.
  destruct (f true d) eqn:Hfd; [|done]. intros [= <- <-]. eauto.
Qed.

Lemma hoare_commit D J :
  (∀ d, J d → D d) →
  hoare (opened D J) (commit E) (λ _, opened D J) (opened D J).
Proof.
  intros HJD [d c t n] [HD (c' & Hc & HJ & Hfk)]. simpl in *. subst c.
  unfold commit, bind, attempt. destruct (fault E Commit); simpl.
  { split; [done|]. eauto. }
  split; [by apply HJD|]. eauto.
Qed.

Lemma hoare_close D J R :
  hoare (opened D J) close (λ _, on_disk D) R.
Proof. intros [d c t n] [HD _]. exact HD. Qed.

Lemma hoare_get_db D :
  hoare (on_disk D) (get_db E) (λ _, opened D D) (on_disk D).
Proof.
  intros [d c t n] HD. unfold on_disk in HD. simpl in HD.
  unfold get_db, connect, execute, pragma_foreign_keys, bind, attempt, query.
  destruct (fault E Connect); simpl; [done|].
  destruct (fault E (Execute PRAGMA_journal_mode)); simpl; [done|].
  destruct (fault E (Execute PRAGMA_foreign_keys)); simpl; [done|].
  split; [done|]. eexists. split; [done|]. done.
Qed.

(** The shape of every handler: connect, run the body, close. *)
Lemma hoare_scoped {A} (body : M A) D (Q : A → db → Prop) :
  hoare (opened D D) body (λ a, opened (Q a) (λ _, True)) (opened D (λ _, True)) →
  hoare (on_disk D) (get_db E ;; try_finally body close)
    (λ a, on_disk (Q a)) (on_disk D).
Proof.
  intros Hb. eapply hoare_bind; [apply hoare_get_db|]. intros [].  
  eapply hoare_try_finally; [apply Hb| |].
  - intros a. apply hoare_close.
  - apply hoare_close.
Qed.
End Logic.

(** ** The statements keep the store invariant *)

Lemma store_invariant_ext d d' :
  emails_of d' = emails_of d → links_of d' = links_of d → events_of d' = events_of d →
  store_invariant d → store_invariant d'.
Proof.
  unfold store_invariant, kind_link_invariant, referential_integrity, event_refs_ok.
  intros -> -> ->. done.
Qed.

Lemma store_invariant_emails_grow d d' :
  (∀ k, is_Some (emails_of d !! k) → is_Some (emails_of d' !! k)) →
  links_of d' = links_of d → events_of d' = events_of d →
  store_invariant d → store_invariant d'.
Proof.
  unfold store_invariant, kind_link_invariant, referential_integrity, event_refs_ok.
  intros Hem -> -> [Hk [Hev Hlk]]. split; [done|]. split.
  - eapply Forall_impl; [exact Hev|]. intros e [? ?]. auto.
  - eapply map_Forall_impl; [exact Hlk|]. simpl. auto.
Qed.

Lemma create_schema_invariant d : store_invariant d → store_invariant (create_schema d).
Proof.
  apply store_invariant_ext; unfold emails_of, links_of, events_of, create_schema; simpl.
  - by destruct (emails d).
  - by destruct (links d).
  - by destruct (events d).
Qed.

Lemma insert_or_ignore_email_invariant now id d d' :
  store_invariant d → insert_or_ignore_email now id d = Ok d' → store_invariant d'.
Proof.
  intros Hinv. unfold insert_or_ignore_email.
  destruct (emails d) as [m|] eqn:Hm; [|done].
  destruct (m !! id) eqn:Hid; intros [= <-]; [done|].
  revert Hinv. apply store_invariant_emails_grow; try done.
  unfold emails_of. rewrite Hm. simpl. intros k Hk.
  destruct (decide (id = k)) as [->|Hne].
  - rewrite lookup_insert_eq. eauto.
  - by rewrite lookup_insert_ne.
Qed.

Lemma upsert_email_invariant now id subj rcpt d d' :
  store_invariant d → upsert_email now id subj rcpt d = Ok d' → store_invariant d'.
Proof.
  intros Hinv. unfold upsert_email.
  destruct (emails d) as [m|] eqn:Hm; [|done].
  assert (∀ row, store_invariant (set_emails (<[id := row]> m) d)) as Hset.
  { intros row. revert Hinv. apply store_invariant_emails_grow; try done.
    unfold emails_of. rewrite Hm. simpl. intros k Hk.
    destruct (decide (id = k)) as [->|Hne].
    - rewrite lookup_insert_eq. eauto.
    - by rewrite lookup_insert_ne. }
  destruct (m !! id) eqn:Hid; [destruct (_ || _)|]; intros [= <-]; auto.
Qed.

Lemma insert_event_invariant now email_id link_id ty ip ua country d d' :
  store_invariant d →
  event_ok (links_of d)
    (EventRow (S (events_seq d)) email_id link_id ty now ip ua country) →
  insert_event true now email_id link_id ty ip ua country d = Ok d' →
  store_invariant d'.
Proof.
  intros [Hk [Hev Hlk]] Hok. unfold insert_event.
  destruct (events d) as [evs|] eqn:Hevs; [|done].
  destruct (check_event_parents email_id link_id d) as [[]|] eqn:Hchk; [|done].
  intros [= <-]. unfold check_event_parents in Hchk.
  destruct (emails d) as [em|] eqn:Hem; [|done].
  destruct (links d) as [lk|] eqn:Hl; [|done].
  destruct (bool_decide _ && _) eqn:Hb; [|done].
  apply andb_true_iff in Hb as [Hb1 Hb2]. apply bool_decide_eq_true in Hb1.
  unfold store_invariant, kind_link_invariant, referential_integrity, event_refs_ok,
    emails_of, links_of, events_of in *.
  rewrite ?Hevs, ?Hem, ?Hl in *. simpl in *. rewrite Hem, Hl. simpl.
  split; [|split].
  - apply Forall_app. split; [done|]. by apply Forall_singleton.
  - apply Forall_app. split; [done|]. apply Forall_singleton. simpl.
    split; [done|]. intros l ->. by apply bool_decide_eq_true in Hb2.
  - done.
Qed.

Lemma insert_link_invariant id email_id url d d' :
  store_invariant d → insert_link true id email_id url d = Ok d' → store_invariant d'.
Proof.
  intros [Hk [Hev Hlk]]. unfold insert_link.
  destruct (links d) as [lk|] eqn:Hl; [|done].
  case_bool_decide as Hfresh; [done|].
  destruct (emails d) as [em|] eqn:Hem; [|done].
  case_bool_decide as Hparent; [|done]. intros [= <-].
  assert (lk !! id = None) as Hnone.
  { destruct (lk !! id) eqn:?; [|done]. exfalso. apply Hfresh. eauto. }
  unfold store_invariant, kind_link_invariant, referential_integrity, event_refs_ok,
    event_ok, emails_of, links_of, events_of in *.
  simpl. rewrite ?Hem, ?Hl in *. simpl in *.
  split; [|split].
  - eapply Forall_impl; [exact Hk|]. intros e. simpl. destruct (ev_type e); [done|].
    intros (l & row & ? & Hrow & ?). exists l, row. split_and!; try done.
    rewrite lookup_insert_ne; [done|]. intros ->. congruence.
  - eapply Forall_impl; [exact Hev|]. intros e [? Hl']. split; [done|].
    intros l Hel. specialize (Hl' l Hel).
    destruct (decide (id = l)) as [->|?].
    + rewrite lookup_insert_eq. eauto.
    + by rewrite lookup_insert_ne.
  - apply map_Forall_insert_2; [done|]. done.
Qed.

(** What the cascading delete leaves. *)
Lemma sql_delete_email_rows id d d' :
  sql_delete_email true id d = Ok d' →
  ∃ m, emails d = Some m
    ∧ (m !! id = None ∧ d' = d
       ∨ is_Some (m !! id)
         ∧ emails_of d' = delete id m
         ∧ links_of d' = filter (λ kv, ¬ owned_by id kv.2) (links_of d)
         ∧ events_of d' = filter (event_survives id (links_of d)) (events_of d)).
Proof.
  unfold sql_delete_email. destruct (emails d) as [m|] eqn:Hm; [|done].
  intros [= <-]. exists m. split; [done|].
  destruct (m !! id) eqn:Hid; [right|left; done].
  split; [eauto|]. unfold emails_of, links_of, events_of, cascade. simpl.
  split_and!; [done| |].
  - destruct (links d); simpl; [done|]. by rewrite map_filter_empty.
  - by destruct (events d).
Qed.

Lemma sql_delete_email_invariant id d d' :
  store_invariant d → sql_delete_email true id d = Ok d' → store_invariant d'.
Proof.
  intros Hinv Hdel. apply sql_delete_email_rows in Hdel as (m & Hm & Hcases).
  destruct Hcases as [[_ ->]|(Hin & Hem & Hlk & Hev)]; [done|].
  destruct Hinv as [Hk [Hrefs Hlinks]].
  unfold store_invariant, kind_link_invariant, referential_integrity, event_refs_ok in *.
  rewrite Hem, Hlk, Hev. unfold emails_of in *. rewrite Hm in *. simpl in *.
  split; [|split].
  - apply Forall_forall. intros e [Hsurv He]%list_elem_of_filter.
    rewrite Forall_forall in Hk. specialize (Hk e He). unfold event_ok in *.
    destruct (ev_type e); [done|]. destruct Hk as (l & row & Hl & Hrow & Hown).
    exists l, row. split_and!; try done. apply map_lookup_filter_Some. split; [done|].
    simpl. unfold owned_by. destruct Hsurv as [Hne _]. congruence.
  - apply Forall_forall. intros e [Hsurv He]%list_elem_of_filter.
    rewrite Forall_forall in Hrefs. destruct (Hrefs e He) as [Hemail Hlink].
    destruct Hsurv as [Hne Hlsurv]. split.
    + rewrite lookup_delete_ne; [done|]. congruence.
    + intros l Hl. destruct (Hlink l Hl) as [row Hrow]. exists row.
      apply map_lookup_filter_Some. split; [done|]. simpl.
      rewrite Hl in Hlsurv. simpl in Hlsurv. by rewrite Hrow in Hlsurv.
  - intros l row [Hrow Hown]%map_lookup_filter_Some. simpl in *.
    rewrite lookup_delete_ne; [by eapply Hlinks|]. unfold owned_by in Hown. congruence.
Qed.

Lemma insert_or_ignore_ignored_ip_invariant now ip lbl d d' :
  store_invariant d → insert_or_ignore_ignored_ip now ip lbl d = Ok d' → store_invariant d'.
Proof.
  intros Hinv. unfold insert_or_ignore_ignored_ip.
  destruct (ignored_ips d) as [m|]; [|done].
  destruct (m !! ip); intros [= <-]; [done|]. revert Hinv. by apply store_invariant_ext.
Qed.

Lemma sql_delete_ignored_ip_invariant ip d d' :
  store_invariant d → sql_delete_ignored_ip ip d = Ok d' → store_invariant d'.
Proof.
  intros Hinv. unfold sql_delete_ignored_ip.
  destruct (ignored_ips d) as [m|]; [|done].
  intros [= <-]. revert Hinv. by apply store_invariant_ext.
Qed.

(** ** The handlers keep the store invariant *)

Section Keeps.
Context (E : env).

Local Abbreviation SI := store_invariant.
Local Abbreviation inside := (opened store_invariant store_invariant).

Lemma keeps_bind {A B} (m : M A) (f : A → M B) :
  keeps m → (∀ a, keeps (f a)) → keeps (bind m f).
Proof. intros Hm Hf. eapply hoare_bind; [exact Hm|exact Hf]. Qed.

Lemma keeps_ret {A} (a : A) : keeps (ret a).
Proof. by apply hoare_ret. Qed.

Lemma keeps_lift {A} (r : outcome A) : keeps (lift r).
Proof. eapply hoare_conseq; [apply hoare_lift|done|by intros ?? [_ ?]|done]. Qed.

Lemma keeps_query {A} s (f : db → outcome A) : keeps (execute E s (query f)).
Proof. eapply hoare_conseq; [apply hoare_query|done| |done].
  intros a w [HD (c & Hc & [HJ _] & Hfk)]. split; [done|]. eauto. Qed.

Lemma keeps_update s (f : bool → db → outcome db) :
  (∀ d d', SI d → f true d = Ok d' → SI d') → keeps (execute E s (update f)).
Proof. intros Hf. by apply hoare_update. Qed.

Lemma keeps_commit : keeps (commit E).
Proof. by apply hoare_commit. Qed.

Lemma keeps_uuid4 : keeps (uuid4 E).
Proof. apply hoare_uuid4. Qed.

Lemma keeps_geolocate_ip ip : keeps (geolocate_ip E ip).
Proof. apply hoare_geolocate_ip. Qed.

Lemma keeps_for_each {A B} (l : list A) (f : A → M B) :
  (∀ x, keeps (f x)) → keeps (for_each l f).
Proof. apply hoare_for_each. Qed.

Lemma safe_scoped {A} (body : M A) :
  keeps body → safe (get_db E ;; try_finally body close).
Proof.
  intros Hb. eapply hoare_bind; [apply hoare_get_db|]. intros [].
  eapply hoare_try_finally; [exact Hb| |]; intros; apply hoare_close.
Qed.

Lemma safe_scoped_then {A B} (body : M A) (k : A → M B) :
  keeps body → (∀ a, safe (k a)) →
  safe (get_db E ;; r <- try_finally body close ;; k r).
Proof.
  intros Hb Hk. eapply hoare_bind; [apply hoare_get_db|]. intros [].
  eapply hoare_bind; [|exact Hk].
  eapply hoare_try_finally; [exact Hb| |]; intros; apply hoare_close.
Qed.

Lemma safe_bind {A B} (m : M A) (f : A → M B) :
  safe m → (∀ a, safe (f a)) → safe (bind m f).
Proof. intros Hm Hf. eapply hoare_bind; [exact Hm|exact Hf]. Qed.

Lemma safe_ret {A} (a : A) : safe (ret a).
Proof. by apply hoare_ret. Qed.

Lemma safe_raise {A} e : safe (raise (A := A) e).
Proof. by apply hoare_raise. Qed.

Ltac keeps_auto :=
  repeat first
    [ apply keeps_ret | apply keeps_query | apply keeps_commit | apply keeps_uuid4
    | apply keeps_geolocate_ip | apply keeps_lift
    | apply keeps_bind; [|intros ?] ].

Lemma init_db_safe : safe (init_db E).
Proof.
  intros [d c t n] HD. unfold on_disk in *. simpl in HD.
  unfold init_db, get_db, connect, execute, pragma_foreign_keys, executescript,
    commit, close, bind, attempt, emit, query.
  pose proof (create_schema_invariant d HD).
  repeat (simpl; match goal with
                 | |- context [fault E ?a] => destruct (fault E a)
                 end); simpl; done.
Qed.

Lemma track_open_safe tracking_id rq : safe (track_open E tracking_id rq).
Proof.
  unfold track_open. apply safe_scoped_then; [|intros [?|]; apply safe_ret].
  simpl.
  apply keeps_bind; [apply keeps_query|]. intros ignored.
  destruct (negb _); [apply keeps_ret|].
  apply keeps_bind.
  { apply keeps_update. intros d d'. apply insert_or_ignore_email_invariant. }
  intros []. apply keeps_bind; [apply keeps_geolocate_ip|]. intros country.
  apply keeps_bind.
  { apply keeps_update. intros d d' Hd. by apply insert_event_invariant. }
  intros []. keeps_auto.
Qed.

Lemma track_click_safe link_id rq : safe (track_click E link_id rq).
Proof.
  unfold track_click.
  eapply hoare_bind; [apply hoare_get_db|]. intros [].
  eapply hoare_bind with (Q := λ _, on_disk SI); [|intros [?|?]; apply safe_ret].
  eapply hoare_try_finally; [| intros; apply hoare_close | apply hoare_close].
  eapply hoare_bind; [apply hoare_query|]. intros rows.
  destruct rows as [|link rows].
  { apply hoare_ret. apply opened_weaken. by intros d [? _]. }
  simpl. eapply hoare_bind with (R := inside).
  { eapply hoare_raises; [apply hoare_query|]. apply opened_weaken. by intros d [? _]. }
  intros ignored. eapply hoare_bind with (Q := λ _, inside);
    [|intros; by apply hoare_ret].
  destruct (bool_decide _).
  - eapply hoare_bind with (R := inside).
    { eapply hoare_raises; [apply hoare_geolocate_ip|].
      apply opened_weaken. by intros d [[? _] _]. }
    intros country.
    eapply hoare_bind with (Q := λ _, inside); [|intros []; apply keeps_commit].
    eapply hoare_raises.
    + apply hoare_update with (J' := store_invariant).
      intros d d' [[Hd Hsel] _]. apply insert_event_invariant; [done|].
      unfold select_link in Hsel. destruct (links d) as [lk|] eqn:Hlk; [|done].
      injection Hsel as Hrow. destruct (lk !! link_id) as [row|] eqn:Hl; [|done].
      injection Hrow as -> _. unfold event_ok. simpl. exists link_id, link.
      unfold links_of. rewrite Hlk. done.
    + apply opened_weaken. by intros d [[? _] _].
  - apply hoare_ret. apply opened_weaken. by intros d [[? _] _].
Qed.

Lemma upsert_email_stmt_invariant email_id subj rcpt d d' :
  SI d → upsert_email_stmt E email_id subj rcpt d = Ok d' → SI d'.
Proof.
  intros Hd. unfold upsert_email_stmt. destruct (emails d); [|done].
  destruct (bind_param E email_id) as [i|]; [|done].
  destruct (bind_param E subj) as [s|]; [|done].
  destruct (bind_param E rcpt) as [r|]; [|done].
  destruct (not_null _ i) as [i'|]; [|done].
  destruct (not_null _ s) as [s'|]; [|done].
  destruct (not_null _ r) as [r'|]; [|done].
  by apply upsert_email_invariant.
Qed.

Lemma insert_link_stmt_invariant link_id email_id url d d' :
  SI d → insert_link_stmt E true link_id email_id url d = Ok d' → SI d'.
Proof.
  intros Hd. unfold insert_link_stmt. destruct (links d); [|done].
  destruct (bind_param E email_id) as [i|]; [|done].
  destruct (bind_param E url) as [u|]; [|done].
  destruct (not_null _ i) as [i'|]; [|done].
  destruct (not_null _ u) as [u'|]; [|done].
  by apply insert_link_invariant.
Qed.

Lemma insert_ignored_ip_stmt_invariant ip lbl d d' :
  SI d → insert_ignored_ip_stmt E ip lbl d = Ok d' → SI d'.
Proof.
  intros Hd. unfold insert_ignored_ip_stmt. destruct (ignored_ips d); [|done].
  destruct (bind_param E ip) as [i|]; [|done].
  destruct (bind_param E lbl) as [l|]; [|done].
  destruct (not_null _ i) as [i'|]; [|done].
  by apply insert_or_ignore_ignored_ip_invariant.
Qed.

Lemma safe_uuid4 : safe (uuid4 E).
Proof. intros w Hw. exact Hw. Qed.

Lemma request_dict_safe rq : safe (request_dict rq).
Proof.
  unfold request_dict. destruct (body rq) as [[]|];
    first [apply safe_ret | apply safe_raise].
Qed.

Lemma create_email_safe rq : safe (create_email E rq).
Proof.
  unfold create_email. apply safe_bind; [apply request_dict_safe|]. intros kv.
  apply safe_bind.
  { simpl. destruct (py_truthy _); [apply safe_ret|].
    apply safe_bind; [apply safe_uuid4|]. intros; apply safe_ret. }
  intros email_id. simpl.
  apply safe_scoped_then; [|intros; apply safe_ret].
  apply keeps_bind.
  { apply keeps_update. intros d d'. apply upsert_email_stmt_invariant. }
  intros []. apply keeps_bind; [apply keeps_lift|]. intros urls.
  apply keeps_bind; [|intros; keeps_auto].
  apply keeps_for_each. intros url.
  apply keeps_bind; [apply keeps_uuid4|]. intros hex. simpl.
  apply keeps_bind; [|intros; apply keeps_ret].
  apply keeps_update. intros d d'. apply insert_link_stmt_invariant.
Qed.

Lemma delete_email_safe email_id : safe (delete_email E email_id).
Proof.
  unfold delete_email. apply safe_scoped.
  apply keeps_bind; [|intros; apply keeps_commit].
  apply keeps_update. intros d d'. apply sql_delete_email_invariant.
Qed.

Lemma list_emails_safe page per_page search : safe (list_emails E page per_page search).
Proof.
  unfold list_emails. destruct (negb _); [apply safe_ret|].
  apply safe_scoped. simpl. keeps_auto.
Qed.

Lemma get_email_safe email_id : safe (get_email E email_id).
Proof.
  unfold get_email. apply safe_scoped.
  apply keeps_bind; [apply keeps_query|]. intros [|email rows]; keeps_auto.
Qed.

Lemma get_stats_safe : safe (get_stats E).
Proof.
  unfold get_stats. apply safe_scoped.
  apply keeps_bind; [apply keeps_query|]. intros t.
  apply keeps_bind; [apply keeps_query|]. intros opened.
  apply keeps_bind; [destruct (_ <? _); keeps_auto|]. intros rate. keeps_auto.
Qed.

Lemma list_ignored_ips_safe : safe (list_ignored_ips E).
Proof. unfold list_ignored_ips. apply safe_scoped. keeps_auto. Qed.

Lemma add_ignored_ip_safe rq : safe (add_ignored_ip E rq).
Proof.
  unfold add_ignored_ip. apply safe_bind; [apply request_dict_safe|]. intros kv. simpl.
  apply safe_scoped_then; [|intros; apply safe_ret].
  apply keeps_bind; [|intros; apply keeps_commit].
  apply keeps_update. intros d d'. apply insert_ignored_ip_stmt_invariant.
Qed.

Lemma remove_ignored_ip_safe ip : safe (remove_ignored_ip E ip).
Proof.
  unfold remove_ignored_ip. apply safe_scoped.
  apply keeps_bind; [|intros; apply keeps_commit].
  apply keeps_update. intros d d'. apply sql_delete_ignored_ip_invariant.
Qed.

Lemma dashboard_safe rq : safe (dashboard E rq).
Proof.
  unfold dashboard. simpl. apply safe_bind; [|intros; apply safe_ret].
  destruct (_ && _); [|apply safe_ret]. apply safe_scoped.
  apply keeps_bind; [|intros; apply keeps_commit].
  apply keeps_update. intros d d'. apply insert_ignored_ip_stmt_invariant.
Qed.
End Keeps.

(** ** Reachable stores *)

Lemma safe_disk {A} (m : M A) w :
  safe m → store_invariant (disk w) → store_invariant (disk (m w).2).
Proof.
  intros Hm Hw. specialize (Hm w Hw). by destruct (m w) as [[a|e] w'].
Qed.

Lemma run_call_invariant E c w :
  store_invariant (disk w) → store_invariant (disk (run_call E c w)).
Proof.
  destruct c; simpl; try (apply safe_disk); auto using
    init_db_safe, track_open_safe, track_click_safe, create_email_safe,
    list_emails_safe, get_email_safe, delete_email_safe, get_stats_safe,
    list_ignored_ips_safe, add_ignored_ip_safe, remove_ignored_ip_safe, dashboard_safe.
Qed.

Lemma reachable_invariant d0 w :
  store_invariant d0 → reachable d0 w → store_invariant (disk w).
Proof.
  intros Hd0 Hw. induction Hw as [|E c w _ IH]; [exact Hd0|].
  by apply run_call_invariant.
Qed.

Lemma provisioned_invariant : store_invariant provisioned.
Proof.
  split; [apply Forall_nil_2|]. split; [apply Forall_nil_2|].
  intros l row Hl. unfold links_of in Hl. simpl in Hl. by rewrite lookup_empty in Hl.
Qed.

(** C5: in every world reachable from a consistent store, each event row
    obeys the kind/link rule: a click names a link row of the event's own
    email, an open names no link. *)
Theorem events_obey_kind_link_rule d0 w :
  store_invariant d0 → reachable d0 w → kind_link_invariant (disk w).
Proof.
  intros Hd0 Hw. cut (store_invariant (disk w)); [by intros [Hkind _]|].
  induction Hw as [|E c w _ IH]; [exact Hd0|].
  by apply run_call_invariant.
Qed.

Lemma events_obey_kind_link_rule_witness :
  kind_link_invariant (disk after_click_and_open).
Proof.
  apply (events_obey_kind_link_rule provisioned after_click_and_open).
  - exact provisioned_invariant.
  - unfold after_click_and_open. repeat apply reachable_step. apply reachable_start.
Defined.

(** ** The tracking routes *)

Section Tracking.
Local Arguments select_ignored_ip : simpl never.
Local Arguments select_link : simpl never.
Local Arguments insert_or_ignore_email : simpl never.
Local Arguments insert_event : simpl never.

(** C1 (the code does not do this): on a new store file and a day without
    storage faults, [init_db] returns after creating [emails], [links] and
    [events] only; [ignored_ips] does not exist, and the lookup in
    [track_open] fails with "no such table". *)
Theorem init_db_creates_no_ignored_ips E tracking_id rq :
  let r := init_db (quiet E) (World empty_db None [] 0) in
  r.1 = Ok tt
  ∧ emails (disk r.2) = Some ∅
  ∧ links (disk r.2) = Some ∅
  ∧ events (disk r.2) = Some []
  ∧ ignored_ips (disk r.2) = None
  ∧ (track_open (quiet E) tracking_id rq r.2).1
    = Raise (OperationalError "no such table: ignored_ips").
Proof. repeat split. Qed.

(** Whatever happens, [init_db] leaves [ignored_ips] as it found it. *)
Lemma init_db_ignored_ips E w : ignored_ips (disk (init_db E w).2) = ignored_ips (disk w).
Proof.
  destruct w as [d c t n]. unfold init_db. unfold_monad. walk; reflexivity.
Qed.

(** The storage engine serves the connection and the two lookups of the
    tracking routes. *)
Lemma select_ignored_ip_present ip d m :
  ignored_ips d = Some m → is_Some (m !! ip) → select_ignored_ip ip d = Ok [ip].
Proof.
  intros Hm Hip. unfold select_ignored_ip. rewrite Hm. by rewrite bool_decide_eq_true_2.
Qed.

Lemma select_link_known link_id d lk link :
  links d = Some lk → lk !! link_id = Some link → select_link link_id d = Ok [link].
Proof. intros Hlk Hl. unfold select_link. by rewrite Hlk, Hl. Qed.

Lemma track_open_pixel E w tracking_id rq r :
  (track_open E tracking_id rq w).1 = Ok r → pixel_response r.
Proof.
  destruct w as [d c t n]. unfold track_open. unfold_monad.
  walk; intros [= <-]; eexists; split; reflexivity.
Qed.

Lemma track_click_redirect E w link_id rq r lk link :
  links (disk w) = Some lk → lk !! link_id = Some link →
  (track_click E link_id rq w).1 = Ok r → r = RedirectResponse (original_url link) 302.
Proof.
  destruct w as [d c t n]. simpl. intros Hlk Hl.
  pose proof (select_link_known link_id d lk link Hlk Hl) as Hsel.
  unfold track_click. unfold_monad.
  walk; by intros [= <-].
Qed.

(** C4: when the client address is on the ignore list, neither tracking
    route changes the store (so no event row is added), whatever the engine
    does; when the lookups succeed, the open route answers with the pixel
    and the click route redirects a known link with status 302; and these
    are the answers the routes give for any address: every answer of the
    open route is the pixel, every answer of the click route for a known
    link is that redirect. *)
Theorem ignored_ip_is_suppressed E w tracking_id link_id rq m :
  ignored_ips (disk w) = Some m → is_Some (m !! client_ip rq) →
  disk (track_open E tracking_id rq w).2 = disk w
  ∧ disk (track_click E link_id rq w).2 = disk w
  ∧ (lookups_succeed E →
     (track_open E tracking_id rq w).1
     = Ok (Response PIXEL_PNG "image/png" [("Cache-Control", no_cache)])
     ∧ ∀ lk link, links (disk w) = Some lk → lk !! link_id = Some link →
         (track_click E link_id rq w).1 = Ok (RedirectResponse (original_url link) 302))
  ∧ (∀ E' w' r, (track_open E' tracking_id rq w').1 = Ok r → pixel_response r)
  ∧ (∀ E' w' r lk link, links (disk w') = Some lk → lk !! link_id = Some link →
       (track_click E' link_id rq w').1 = Ok r →
       r = RedirectResponse (original_url link) 302).
Proof.
  intros Hm Hip. destruct w as [d c t n]. simpl in *.
  pose proof (select_ignored_ip_present _ _ _ Hm Hip) as Hign.
  split_and!.
  - unfold track_open. unfold_monad. walk.
  - unfold track_click. unfold_monad. walk.
  - intros (Hc & Hj & Hf & Hi & Hl). split.
    + unfold track_open. unfold_monad. walk.
    + intros lk link Hlk Hlink.
      pose proof (select_link_known _ _ _ _ Hlk Hlink).
      unfold track_click. unfold_monad. walk.
  - intros E' w' r. apply track_open_pixel.
  - intros E' w' r lk link. apply track_click_redirect.
Qed.

Lemma insert_or_ignore_email_succeeds now id d :
  is_Some (emails d) →
  ∃ d', insert_or_ignore_email now id d = Ok d'
        ∧ is_Some (emails_of d' !! id)
        ∧ links d' = links d ∧ events d' = events d.
Proof.
  intros [em Hem]. unfold insert_or_ignore_email. rewrite Hem.
  destruct (em !! id) as [row|] eqn:Hid; eexists; (split; [reflexivity|]).
  - unfold emails_of. rewrite Hem. simpl. rewrite Hid. eauto.
  - unfold emails_of. simpl. rewrite lookup_insert_eq. eauto.
Qed.

Lemma insert_event_succeeds now email_id link_id ty ip ua country d :
  is_Some (events d) → is_Some (links d) →
  is_Some (emails_of d !! email_id) →
  from_option (λ l, is_Some (links_of d !! l)) True link_id →
  ∃ d', insert_event true now email_id link_id ty ip ua country d = Ok d'.
Proof.
  intros [evs Hevs] [lk Hlk] Hemail Hlink. unfold insert_event, check_event_parents.
  unfold emails_of, links_of in *. rewrite Hevs, Hlk in *.
  destruct (emails d) as [em|]; simpl in *; [|by destruct Hemail].
  rewrite (bool_decide_eq_true_2 _ Hemail).
  destruct link_id as [l|]; simpl in *; [rewrite (bool_decide_eq_true_2 _ Hlink)|];
    simpl; eauto.
Qed.

(** C2, amended: for every open request that gets past the ignored-IP
    check, and for every click request for a known link from a client that
    is not ignored, the handler answers with the pixel or the redirect only
    if ensuring the email row (open), writing the event and committing all
    went through; if one of them fails the handler raises, with the
    connection closed and the store as it was.  When the engine accepts the
    operations and the tables are there, the normal answer is returned. *)
Theorem storage_failure_reaches_the_client E w tracking_id link_id rq :
  check_is_reached E →
  select_ignored_ip (client_ip rq) (disk w) = Ok [] →
  let ro := track_open E tracking_id rq w in
  (match ro.1 with
   | Ok r => r = pixel_full
             ∧ fault E (Execute INSERT_OR_IGNORE_email) = None
             ∧ fault E (Execute INSERT_event) = None
             ∧ fault E Commit = None
   | Raise _ => disk ro.2 = disk w
   end
   ∧ conn ro.2 = None
   ∧ (fault E (Execute INSERT_OR_IGNORE_email) = None →
      fault E (Execute INSERT_event) = None →
      fault E Commit = None →
      is_Some (emails (disk w)) → is_Some (links (disk w)) → is_Some (events (disk w)) →
      ro.1 = Ok pixel_full))
  ∧ ∀ lk link,
      fault E (Execute SELECT_link) = None →
      links (disk w) = Some lk → lk !! link_id = Some link →
      let rc := track_click E link_id rq w in
      match rc.1 with
      | Ok r => r = RedirectResponse (original_url link) 302
                ∧ fault E (Execute INSERT_event) = None
                ∧ fault E Commit = None
      | Raise _ => disk rc.2 = disk w
      end
      ∧ conn rc.2 = None
      ∧ (fault E (Execute INSERT_event) = None →
         fault E Commit = None →
         is_Some (events (disk w)) →
         is_Some (emails_of (disk w) !! link_email_id link) →
         rc.1 = Ok (RedirectResponse (original_url link) 302)).
Proof.
  intros (Hc & Hj & Hf & Hi) Hign. destruct w as [d c t n]. simpl in *.
  split; [split_and!|].
  - unfold track_open. unfold_monad. walk.
  - unfold track_open. unfold_monad. walk.
  - intros H1 H2 H3 Hem Hlinks Hevs.
    destruct (insert_or_ignore_email_succeeds (now E) tracking_id d Hem)
      as (d1 & Hd1 & Hx & Hlk1 & Hev1).
    assert (∀ country, ∃ d2,
              insert_event true (now E) tracking_id None EvOpen (client_ip rq)
                (default "" (headers_get "user-agent" (headers rq))) country d1 = Ok d2)
      as Hins.
    { intros country.
      apply insert_event_succeeds; rewrite ?Hev1, ?Hlk1; eauto; done. }
    unfold track_open. unfold_monad. walk.
    all: match goal with
         | H : insert_event _ _ _ _ _ _ _ ?country _ = Raise _ |- _ =>
             destruct (Hins country); congruence
         end.
  - intros lk link Hl Hlk Hlink.
    pose proof (select_link_known _ _ _ _ Hlk Hlink) as Hsel.
    split_and!.
    + unfold track_click. unfold_monad. walk.
    + unfold track_click. unfold_monad. walk.
    + intros H2 H3 Hevs Hemail.
      assert (∀ country, ∃ d2,
                insert_event true (now E) (link_email_id link) (Some link_id) EvClick
                  (client_ip rq) (default "" (headers_get "user-agent" (headers rq)))
                  country d = Ok d2)
        as Hins.
      { intros country. apply insert_event_succeeds; rewrite ?Hlk; eauto.
        simpl. unfold links_of. rewrite Hlk. simpl. rewrite Hlink. eauto. }
      unfold track_click. unfold_monad. walk.
      all: match goal with
           | H : insert_event _ _ _ _ _ _ _ ?country _ = Raise _ |- _ =>
               destruct (Hins country); congruence
           end.
Qed.

(** C2 as stated fails: with the store locked at the event insert, past the
    ignored-IP check, both routes raise instead of answering. *)
Lemma storage_failure_breaks_response :
  lookups_succeed locked
  ∧ select_ignored_ip (client_ip reader) provisioned = Ok []
  ∧ (track_open locked "x" reader (World provisioned None [] 0)).1
    = Raise (OperationalError "database is locked")
  ∧ select_link first_link (disk after_registration)
    = Ok [LinkRow "x" "https://example.org/a"]
  ∧ select_ignored_ip (client_ip reader) (disk after_registration) = Ok []
  ∧ (track_click locked first_link reader after_registration).1
    = Raise (OperationalError "database is locked").
Proof. vm_compute. repeat split. Qed.

Lemma storage_failure_reaches_the_client_witness :
  (track_open calm "x" reader (World provisioned None [] 0)).1 = Ok pixel_full
  ∧ (track_click calm first_link reader after_registration).1
    = Ok (RedirectResponse "https://example.org/a" 302).
Proof.
  split.
  - destruct (storage_failure_reaches_the_client calm (World provisioned None [] 0)
                "x" first_link reader) as ((_ & _ & Ho) & _).
    + vm_compute. repeat split.
    + vm_compute. reflexivity.
    + apply Ho; vm_compute; eauto.
  - destruct (storage_failure_reaches_the_client calm after_registration
                "x" first_link reader) as (_ & Hc).
    + vm_compute. repeat split.
    + vm_compute. reflexivity.
    + destruct (Hc (default ∅ (links (disk after_registration)))
                  (LinkRow "x" "https://example.org/a")) as (_ & _ & Hr).
      * vm_compute. reflexivity.
      * vm_compute. reflexivity.
      * vm_compute. reflexivity.
      * apply Hr; vm_compute; eauto.
Defined.

(** C9 as stated fails: in both routes the geolocation request is made
    between [Connect] and [Close]. *)
Lemma connection_is_held_during_lookup :
  trace (track_open calm "x" reader (World provisioned None [] 0)).2
  = [Connect; Execute PRAGMA_journal_mode; Execute PRAGMA_foreign_keys;
     Execute SELECT_ignored_ip; Execute INSERT_OR_IGNORE_email;
     HttpGet "203.0.113.7"; Execute INSERT_event; Commit; Close]
  ∧ held_during_lookup false
      (trace (track_open calm "x" reader (World provisioned None [] 0)).2) = true
  ∧ trace (track_click calm first_link reader
             (World (disk after_registration) None [] 0)).2
    = [Connect; Execute PRAGMA_journal_mode; Execute PRAGMA_foreign_keys;
       Execute SELECT_link; Execute SELECT_ignored_ip;
       HttpGet "203.0.113.7"; Execute INSERT_event; Commit; Close]
  ∧ held_during_lookup false
      (trace (track_click calm first_link reader
                (World (disk after_registration) None [] 0)).2) = true.
Proof. vm_compute. repeat split. Qed.

(** C9, amended: in both tracking routes a geolocation request, when one is
    made, is made while the connection is open, never outside it; and once
    the connection has been acquired it is opened once and closed once, as
    the last action of the request, on every path. *)
Theorem lookup_runs_inside_the_connection_scope E d c n tracking_id link_id rq :
  let to := trace (track_open E tracking_id rq (World d c [] n)).2 in
  let tc := trace (track_click E link_id rq (World d c [] n)).2 in
  held_during_lookup false to = looks_up to
  ∧ held_during_lookup false tc = looks_up tc
  ∧ lookup_without_connection false to = false
  ∧ lookup_without_connection false tc = false
  ∧ (acquired to = true → scoped_connection to)
  ∧ (acquired tc = true → scoped_connection tc).
Proof.
  simpl. split_and!.
  - unfold track_open. unfold_monad. walk.
  - unfold track_click. unfold_monad. walk.
  - unfold track_open. unfold_monad. walk.
  - unfold track_click. unfold_monad. walk.
  - unfold track_open, scoped_connection. unfold_monad. walk.
  - unfold track_click, scoped_connection. unfold_monad. walk.
Qed.

End Tracking.

Lemma lookup_runs_inside_the_connection_scope_witness :
  scoped_connection
    (trace (track_open calm "x" reader (World provisioned None [] 0)).2)
  ∧ scoped_connection
      (trace (track_click calm first_link reader
                (World (disk after_registration) None [] 0)).2).
Proof.
  split.
  - destruct (lookup_runs_inside_the_connection_scope calm provisioned None 0 "x"
                first_link reader) as (_ & _ & _ & _ & Hopen & _).
    apply Hopen. vm_compute. reflexivity.
  - destruct (lookup_runs_inside_the_connection_scope calm (disk after_registration)
                None 0 "x" first_link reader) as (_ & _ & _ & _ & _ & Hclick).
    apply Hclick. vm_compute. reflexivity.
Defined.

Lemma ignored_ip_is_suppressed_witness :
  disk (track_open calm "x" reader reader_ignored).2 = disk reader_ignored
  ∧ disk (track_click calm first_link reader reader_ignored).2 = disk reader_ignored
  ∧ (track_open calm "x" reader reader_ignored).1
    = Ok (Response PIXEL_PNG "image/png" [("Cache-Control", no_cache)])
  ∧ (track_click calm first_link reader reader_ignored).1
    = Ok (RedirectResponse "https://example.org/a" 302).
Proof.
  destruct (ignored_ip_is_suppressed calm reader_ignored "x" first_link reader
              (default ∅ (ignored_ips (disk reader_ignored))))
    as (Hopen & Hclick & Hanswers & _).
  - vm_compute. reflexivity.
  - vm_compute. eauto.
  - destruct Hanswers as [Hpixel Hredirect].
    { vm_compute. repeat split. }
    split; [exact Hopen|]. split; [exact Hclick|]. split; [exact Hpixel|].
    apply (Hredirect (default ∅ (links (disk reader_ignored)))
             (LinkRow "x" "https://example.org/a")); vm_compute; reflexivity.
Defined.

(** ** Registration *)

Lemma upsert_email_row now id subj rcpt d m :
  emails d = Some m →
  ∃ d', upsert_email now id subj rcpt d = Ok d'
    ∧ emails_of d' !! id
      = Some (match m !! id with
              | None => EmailRow subj rcpt now
              | Some row =>
                  if bool_decide (subject row = "" ∨ recipient row = "")
                  then EmailRow subj rcpt (created_at row) else row
              end)
    ∧ (∀ k, k ≠ id → emails_of d' !! k = m !! k)
    ∧ links d' = links d ∧ events d' = events d ∧ ignored_ips d' = ignored_ips d.
Proof.
  intros Hm. unfold upsert_email. rewrite Hm. eexists. split; [reflexivity|].
  destruct (m !! id) as [row|] eqn:Hid.
  - repeat case_bool_decide; simpl; try tauto.
    + unfold emails_of. simpl. rewrite lookup_insert_eq.
      split_and!; try done. intros k Hk. by rewrite lookup_insert_ne.
    + unfold emails_of. simpl. rewrite lookup_insert_eq.
      split_and!; try done. intros k Hk. by rewrite lookup_insert_ne.
    + unfold emails_of. simpl. rewrite lookup_insert_eq.
      split_and!; try done. intros k Hk. by rewrite lookup_insert_ne.
    + unfold emails_of. rewrite Hm. simpl. by rewrite Hid.
  - unfold emails_of. simpl. rewrite lookup_insert_eq.
    split_and!; try done. intros k Hk. by rewrite lookup_insert_ne.
Qed.

(** What a registration without links does to the store on a quiet day. *)
Lemma register_without_links E w id subj rcpt :
  id ≠ "" → is_Some (emails (disk w)) →
  ∃ d', upsert_email (now E) id subj (default "" rcpt) (disk w) = Ok d'
        ∧ disk (create_email (quiet E) (registration_of id subj rcpt) w).2 = d'.
Proof.
  intros Hid [m Hm]. destruct w as [d c t n]. simpl in *.
  destruct (upsert_email_row (now E) id subj (default "" rcpt) d m Hm) as (d' & Hd' & _).
  exists d'. split; [done|].
  unfold create_email, registration_of, request_dict. unfold_monad.
  simpl. rewrite (bool_decide_eq_false_2 _ Hid). simpl.
  unfold upsert_email_stmt. rewrite Hm. simpl.
  destruct rcpt as [r|]; simpl in *; rewrite Hd'; simpl; done.
Qed.

(** C3 as stated fails: after registering {id: "x", subject: "A"} and then
    {id: "x", subject: "B"} the stored subject is "B", because the first
    registration left the recipient empty. *)
Lemma second_registration_overwrites_subject :
  let w1 := (create_email calm register_a (World provisioned None [] 0)).2 in
  let w2 := (create_email calm register_b w1).2 in
  subject <$> emails_of (disk w1) !! "x" = Some "A"
  ∧ subject <$> emails_of (disk w2) !! "x" = Some "B".
Proof. vm_compute. split; reflexivity. Qed.

(** C3, amended: on a conflict the upsert overwrites subject and recipient
    together when at least one of the stored two is empty, and leaves the
    row alone when both are filled in; so a registration with a non-empty
    subject and a non-empty recipient is kept when the same id is registered
    again with another subject. *)
Theorem first_registration_wins_once_complete :
  (∀ now id subj rcpt d m row,
     emails d = Some m → m !! id = Some row →
     ∃ d', upsert_email now id subj rcpt d = Ok d'
           ∧ emails_of d' !! id
             = Some (if bool_decide (subject row = "" ∨ recipient row = "")
                     then EmailRow subj rcpt (created_at row) else row))
  ∧ (∀ E1 E2 w id a r b,
       id ≠ "" → a ≠ "" → r ≠ "" →
       is_Some (emails (disk w)) → emails_of (disk w) !! id = None →
       let w1 := (create_email (quiet E1) (registration_of id a (Some r)) w).2 in
       let w2 := (create_email (quiet E2) (registration_of id b None) w1).2 in
       emails_of (disk w2) !! id = Some (EmailRow a r (now E1))).
Proof.
  split.
  - intros now id subj rcpt d m row Hm Hrow.
    destruct (upsert_email_row now id subj rcpt d m Hm) as (d' & Hd' & Hid & _).
    exists d'. split; [done|]. by rewrite Hid, Hrow.
  - intros E1 E2 w id a r b Hid Ha Hr [m Hm] Hfresh. simpl.
    destruct (register_without_links E1 w id a (Some r) Hid) as (d1 & Hd1 & Hw1); [eauto|].
    destruct (upsert_email_row (now E1) id a r (disk w) m Hm) as (d1' & Hd1' & Hrow1 & _).
    simpl in Hd1. rewrite Hd1 in Hd1'. injection Hd1' as <-.
    unfold emails_of in Hfresh. rewrite Hm in Hfresh. simpl in Hfresh.
    rewrite Hfresh in Hrow1.
    assert (∃ m1, emails d1 = Some m1 ∧ m1 !! id = Some (EmailRow a r (now E1)))
      as (m1 & Hm1 & Hrow1').
    { unfold emails_of in Hrow1. destruct (emails d1) as [m1|]; [eauto|].
      simpl in Hrow1. by rewrite lookup_empty in Hrow1. }
    set (w1 := (create_email (quiet E1) (registration_of id a (Some r)) w).2) in *.
    destruct (register_without_links E2 w1 id b None Hid) as (d2 & Hd2 & Hw2).
    { rewrite Hw1, Hm1. eauto. }
    rewrite Hw2. rewrite Hw1 in Hd2.
    destruct (upsert_email_row (now E2) id b "" d1 m1 Hm1) as (d2' & Hd2' & Hrow2 & _).
    simpl in Hd2. rewrite Hd2 in Hd2'. injection Hd2' as <-.
    rewrite Hrow2, Hrow1'. simpl. rewrite bool_decide_eq_false_2; [done|]. tauto.
Qed.

Lemma first_registration_wins_once_complete_witness :
  let w1 := (create_email (quiet calm)
               (registration_of "x" "A" (Some "bob@example.org"))
               (World provisioned None [] 0)).2 in
  let w2 := (create_email (quiet calm) (registration_of "x" "B" None) w1).2 in
  emails_of (disk w2) !! "x" = Some (EmailRow "A" "bob@example.org" (now calm)).
Proof.
  apply (proj2 first_registration_wins_once_complete calm calm
           (World provisioned None [] 0) "x" "A" "bob@example.org" "B");
    done.
Defined.









Lemma hoare_assume {A} (φ : Prop) (P : world → Prop) (m : M A) Q R :
  (φ → hoare P m Q R) → hoare (λ w, P w ∧ φ) m Q R.
Proof. intros Hm w [Hw Hφ]. exact (Hm Hφ w Hw). Qed.




Lemma hoare_commit_publishes E D J :
  hoare (opened D J) (commit E) (λ _, opened J J) (opened D J).
Proof.
  intros [d c t n] [HD (c' & Hc & HJ & Hfk)]. simpl in *. subst c.
  unfold commit, bind, attempt. destruct (fault E Commit); simpl.
  { split; [done|]. eauto. }
  split; [done|]. eauto.
Qed.








(** ** Binary64 rounding *)

Section Rounding.
Local Open Scope Z_scope.

Lemma digits2_pos_bounds p :
  2 ^ (Z.pos (digits2_pos p) - 1) ≤ Z.pos p < 2 ^ Z.pos (digits2_pos p).
Proof.
  induction p as [p IH|p IH|]; simpl digits2_pos.
  - rewrite Pos2Z.inj_succ. pose proof (Pos2Z.inj_xI p) as Hp.
    replace (Z.succ (Z.pos (digits2_pos p)) - 1) with (Z.succ (Z.pos (digits2_pos p) - 1))
      by lia.
    rewrite !Z.pow_succ_r by lia. lia.
  - rewrite Pos2Z.inj_succ. pose proof (Pos2Z.inj_xO p) as Hp.
    replace (Z.succ (Z.pos (digits2_pos p)) - 1) with (Z.succ (Z.pos (digits2_pos p) - 1))
      by lia.
    rewrite !Z.pow_succ_r by lia. lia.
  - simpl. lia.
Qed.

Lemma digits2_pos_unique p d :
  2 ^ (d - 1) ≤ Z.pos p < 2 ^ d → Z.pos (digits2_pos p) = d.
Proof.
  intros [Hlo Hhi]. pose proof (digits2_pos_bounds p) as [Hlo' Hhi'].
  set (d' := Z.pos (digits2_pos p)) in *.
  assert (0 < d) as Hd.
  { destruct (Z.lt_ge_cases 0 d) as [|Hneg]; [done|].
    rewrite (Z.pow_neg_r 2 (d - 1)) in Hlo by lia.
    destruct (Z.eq_dec d 0) as [->|]; [simpl in Hhi; lia|].
    rewrite Z.pow_neg_r in Hhi by lia. lia. }
  destruct (Z.lt_trichotomy d' d) as [Hlt|[Heq|Hgt]]; [|done|].
  - assert (2 ^ d' ≤ 2 ^ (d - 1)) by (apply Z.pow_le_mono_r; lia). lia.
  - assert (2 ^ d ≤ 2 ^ (d' - 1)) by (apply Z.pow_le_mono_r; lia). lia.
Qed.

(** One step to the right. *)
Lemma shr_1_lies_at num den mrs :
  0 ≤ shr_m mrs → lies_at num den mrs →
  lies_at num (2 * den) (shr_1 mrs) ∧ shr_m (shr_1 mrs) = shr_m mrs / 2.
Proof.
  destruct mrs as [m r s]. unfold lies_at. simpl. intros Hm [Hden Hloc].
  destruct m as [|[p|p|]|p]; try lia; simpl.
  - split; [|done]. split; [lia|]. destruct r, s; simpl in *; lia.
  - pose proof (Pos2Z.inj_xI p) as Hp. split; [|rewrite Hp;
      apply (Z.div_unique _ 2 _ 1); lia].
    split; [lia|]. destruct r, s; simpl in *; lia.
  - pose proof (Pos2Z.inj_xO p) as Hp. split; [|rewrite Hp;
      apply (Z.div_unique _ 2 _ 0); lia].
    split; [lia|]. destruct r, s; simpl in *; lia.
  - split; [|done]. split; [lia|]. destruct r, s; simpl in *; lia.
Qed.

Lemma shr_iter_lies_at p : ∀ num den mrs,
  0 ≤ shr_m mrs → lies_at num den mrs →
  lies_at num (2 ^ Z.pos p * den) (SpecFloat.iter_pos shr_1 p mrs)
  ∧ shr_m (SpecFloat.iter_pos shr_1 p mrs) = shr_m mrs / 2 ^ Z.pos p.
Proof.
  induction p as [p IH|p IH|]; intros num den mrs Hm Hloc; simpl SpecFloat.iter_pos.
  - destruct (shr_1_lies_at _ _ _ Hm Hloc) as [H1 E1].
    assert (0 ≤ shr_m (shr_1 mrs)) as Hm1 by (rewrite E1; apply Z.div_pos; lia).
    destruct (IH _ _ _ Hm1 H1) as [H2 E2].
    assert (0 ≤ shr_m (SpecFloat.iter_pos shr_1 p (shr_1 mrs))) as Hm2
      by (rewrite E2; apply Z.div_pos; lia).
    destruct (IH _ _ _ Hm2 H2) as [H3 E3].
    assert (2 ^ Z.pos p~1 = 2 ^ Z.pos p * (2 ^ Z.pos p * 2)) as Hpow.
    { pose proof (Pos2Z.inj_xI p) as Hp.
      replace (Z.pos p~1) with (Z.pos p + (Z.pos p + 1)) by lia.
      rewrite !Z.pow_add_r by lia. done. }
    split.
    + rewrite Hpow. replace (2 ^ Z.pos p * (2 ^ Z.pos p * 2) * den)
        with (2 ^ Z.pos p * (2 ^ Z.pos p * (2 * den))) by lia. exact H3.
    + rewrite E3, E2, E1, Hpow, !Z.div_div by lia. f_equal. lia.
  - destruct (IH _ _ _ Hm Hloc) as [H2 E2].
    assert (0 ≤ shr_m (SpecFloat.iter_pos shr_1 p mrs)) as Hm2
      by (rewrite E2; apply Z.div_pos; lia).
    destruct (IH _ _ _ Hm2 H2) as [H3 E3].
    assert (2 ^ Z.pos p~0 = 2 ^ Z.pos p * 2 ^ Z.pos p) as Hpow.
    { pose proof (Pos2Z.inj_xO p) as Hp.
      replace (Z.pos p~0) with (Z.pos p + Z.pos p) by lia.
      by rewrite Z.pow_add_r by lia. }
    split.
    + rewrite Hpow, <- Z.mul_assoc. exact H3.
    + rewrite E3, E2, Hpow, Z.div_div by lia. done.
  - change (2 ^ 1) with 2. by apply shr_1_lies_at.
Qed.

Lemma shr_lies_at num den mrs e n :
  0 ≤ n → 0 ≤ shr_m mrs → lies_at num den mrs →
  (shr mrs e n).2 = e + n
  ∧ lies_at num (2 ^ n * den) (shr mrs e n).1
  ∧ shr_m (shr mrs e n).1 = shr_m mrs / 2 ^ n.
Proof.
  intros Hn Hm Hloc. destruct n as [|p|p]; [|  |lia]; simpl.
  - split; [lia|]. split; [|by rewrite Z.div_1_r].
    destruct Hloc as [Hden Hloc]. split; [lia|].
    destruct (shr_r mrs), (shr_s mrs); lia.
  - split; [done|]. by apply shr_iter_lies_at.
Qed.

Lemma round_nearest_even_near num den mrs :
  lies_at num den mrs →
  let m' := round_nearest_even (shr_m mrs) (loc_of_shr_record mrs) in
  (m' = shr_m mrs ∨ m' = shr_m mrs + 1) ∧ 2 * Z.abs (m' * den - num) ≤ den.
Proof.
  destruct mrs as [m r s]. unfold lies_at. simpl. intros [Hden Hloc].
  destruct r, s; simpl; try destruct (Z.even m); split; lia.
Qed.

Lemma fexp_normal x : -1074 ≤ x - 53 → fexp prec emax x = x - 53.
Proof. unfold fexp, emin, prec, emax. lia. Qed.

Lemma shr_m_of_loc m l : shr_m (shr_record_of_loc m l) = m.
Proof. by destruct l as [|[]]. Qed.

Lemma Zdigits2_bounds m :
  0 < m → 2 ^ (Zdigits2 m - 1) ≤ m < 2 ^ Zdigits2 m.
Proof. destruct m as [|p|p]; [lia| |lia]. intros _. apply digits2_pos_bounds. Qed.

Lemma Zdigits2_unique m d : 2 ^ (d - 1) ≤ m < 2 ^ d → 0 < m → Zdigits2 m = d.
Proof. destruct m as [|p|p]; [lia| |lia]. intros H _. by apply digits2_pos_unique. Qed.

(** Rounding a quotient placed by [lies_at] whose integer part has at least
    53 digits, when the exponent stays in the normal range: the result is a
    normal number within half a unit in the last place. *)
Lemma binary_round_aux_normal mx ex lx num den :
  0 < mx → 53 ≤ Zdigits2 mx →
  lies_at num den (shr_record_of_loc mx lx) →
  -1074 ≤ ex + Zdigits2 mx - 53 → ex + Zdigits2 mx - 53 < 971 →
  ∃ m c, binary_round_aux prec emax false mx ex lx = S754_finite false m (ex + c)
    ∧ 2 ^ 52 ≤ Z.pos m < 2 ^ 53
    ∧ (c = Zdigits2 mx - 53 ∨ c = Zdigits2 mx - 52)
    ∧ 2 * Z.abs (Z.pos m * 2 ^ c * den - num) ≤ 2 ^ c * den.
Proof.
  intros Hmx Hd Hloc Hlo Hhi. set (d := Zdigits2 mx) in *.
  pose proof (Zdigits2_bounds mx Hmx) as Hdig. fold d in Hdig.
  assert (0 < den) as Hden by apply Hloc.
  unfold binary_round_aux, shr_fexp. fold d.
  rewrite fexp_normal by lia.
  replace (d + ex - 53 - ex) with (d - 53) by lia.
  destruct (shr_lies_at num den (shr_record_of_loc mx lx) ex (d - 53))
    as (E1 & L1 & M1); [lia|rewrite shr_m_of_loc; lia|done|].
  rewrite shr_m_of_loc in M1.
  destruct (shr (shr_record_of_loc mx lx) ex (d - 53)) as [mrs1 e1]. simpl in E1, L1, M1.
  subst e1.
  pose proof (round_nearest_even_near _ _ _ L1) as [Hm2 Hnear].
  set (m2 := round_nearest_even (shr_m mrs1) (loc_of_shr_record mrs1)) in *.
  assert (0 < 2 ^ (d - 53)) as Hpow by (apply Z.pow_pos_nonneg; lia).
  assert (2 ^ (d - 1) = 2 ^ 52 * 2 ^ (d - 53)) as Hp1
    by (rewrite <- Z.pow_add_r by lia; f_equal; lia).
  assert (2 ^ d = 2 ^ 53 * 2 ^ (d - 53)) as Hp2
    by (rewrite <- Z.pow_add_r by lia; f_equal; lia).
  assert (2 ^ 52 ≤ shr_m mrs1 < 2 ^ 53) as Hm1.
  { rewrite M1. split.
    - apply Z.div_le_lower_bound; lia.
    - apply Z.div_lt_upper_bound; lia. }
  destruct (Z.eq_dec m2 (2 ^ 53)) as [Heq|Hne].
  - rewrite Heq in *.
    replace (Zdigits2 (2 ^ 53)) with 54 by (by vm_compute).
    rewrite fexp_normal by lia.
    replace (54 + (ex + (d - 53)) - 53 - (ex + (d - 53))) with 1 by lia.
    change (shr (shr_record_of_loc (2 ^ 53) loc_Exact) (ex + (d - 53)) 1)
      with (Build_shr_record (2 ^ 52) false false, ex + (d - 53) + 1).
    cbn [shr_m]. change (2 ^ 52) with (Z.pos (2 ^ 52)) at 1.
    cbv iota beta.
    destruct (Z.leb_spec (ex + (d - 53) + 1) (emax - prec)) as [_|Hbad];
      [|unfold emax, prec in Hbad; lia].
    exists (2 ^ 52)%positive, (d - 52). split; [f_equal; lia|].
    split; [by vm_compute|]. split; [by right|].
    assert (2 ^ (d - 52) = 2 * 2 ^ (d - 53)) as Hp3.
    { replace (d - 52) with (1 + (d - 53)) by lia. by rewrite Z.pow_add_r by lia. }
    rewrite Hp3. change (Z.pos (2 ^ 52)) with (2 ^ 52).
    change (2 ^ 53) with (2 ^ 52 * 2) in Hnear. nia.
  - assert (2 ^ 52 ≤ m2 < 2 ^ 53) as Hm2' by lia.
    rewrite (Zdigits2_unique m2 53) by (change (2 ^ (53 - 1)) with (2 ^ 52); lia).
    rewrite fexp_normal by lia.
    replace (53 + (ex + (d - 53)) - 53 - (ex + (d - 53))) with 0 by lia.
    cbn [shr shr_record_of_loc shr_m fst snd].
    destruct m2 as [|p2|p2]; [lia| |lia].
    destruct (Z.leb_spec (ex + (d - 53)) (emax - prec)) as [_|Hbad];
      [|unfold emax, prec in Hbad; lia].
    exists p2, (d - 53). split; [done|]. split; [done|]. split; [by left|].
    nia.
Qed.

Lemma binary_round_aux_exact p e :
  2 ^ 52 ≤ Z.pos p < 2 ^ 53 → -1074 ≤ e ≤ 971 →
  binary_round_aux prec emax false (Z.pos p) e loc_Exact = S754_finite false p e.
Proof.
  intros Hp He. unfold binary_round_aux, shr_fexp.
  rewrite (Zdigits2_unique (Z.pos p) 53) by (change (2 ^ (53 - 1)) with (2 ^ 52); lia).
  rewrite fexp_normal by lia.
  replace (53 + e - 53 - e) with 0 by lia.
  cbn [shr shr_record_of_loc shr_m fst snd loc_of_shr_record round_nearest_even].
  rewrite (Zdigits2_unique (Z.pos p) 53) by (change (2 ^ (53 - 1)) with (2 ^ 52); lia).
  rewrite fexp_normal by lia.
  replace (53 + e - 53 - e) with 0 by lia.
  cbn [shr shr_record_of_loc shr_m fst snd].
  destruct (Z.leb_spec e (emax - prec)) as [_|Hbad]; [done|].
  unfold emax, prec in Hbad. lia.
Qed.

Lemma iter_xO_pow p n : Z.pos (Pos.iter xO p n) = Z.pos p * 2 ^ Z.pos n.
Proof.
  induction n as [|n IH] using Pos.peano_ind.
  - simpl. pose proof (Pos2Z.inj_xO p). lia.
  - rewrite Pos.iter_succ, Pos2Z.inj_succ, Z.pow_succ_r by lia.
    pose proof (Pos2Z.inj_xO (Pos.iter xO p n)). lia.
Qed.

Lemma valid_normal m e :
  2 ^ 52 ≤ Z.pos m < 2 ^ 53 → -1074 ≤ e ≤ 971 →
  valid_binary (S754_finite false m e) = true.
Proof.
  intros Hm He. unfold SpecFloat.valid_binary, bounded, canonical_mantissa.
  rewrite (digits2_pos_unique m 53) by (change (2 ^ (53 - 1)) with (2 ^ 52); lia).
  rewrite fexp_normal by lia. apply andb_true_iff. split.
  - apply Z.eqb_eq. lia.
  - apply Z.leb_le. unfold emax, prec. lia.
Qed.

(** [float(z)] is exact for a positive int below 2^53: the mantissa is [z]
    shifted to 53 bits. *)
Lemma float_of_Z_exact z :
  0 < z < 2 ^ 53 →
  ∃ m, Prim2SF (float_of_Z z) = S754_finite false m (Zdigits2 z - 53)
    ∧ Z.pos m = z * 2 ^ (53 - Zdigits2 z)
    ∧ 2 ^ 52 ≤ Z.pos m < 2 ^ 53
    ∧ 1 ≤ Zdigits2 z ≤ 53.
Proof.
  intros Hz. destruct z as [|p|p]; [lia| |lia].
  pose proof (Zdigits2_bounds (Z.pos p) ltac:(lia)) as Hdig.
  set (d := Zdigits2 (Z.pos p)) in *.
  assert (1 ≤ d) as Hd1 by (subst d; simpl; lia).
  assert (d ≤ 53) as Hd53.
  { destruct (Z.le_gt_cases d 53) as [|Hgt]; [done|].
    assert (2 ^ 53 ≤ 2 ^ (d - 1)) by (apply Z.pow_le_mono_r; lia). lia. }
  assert (2 ^ 52 ≤ Z.pos p * 2 ^ (53 - d) < 2 ^ 53) as Hm.
  { assert (2 ^ 52 = 2 ^ (d - 1) * 2 ^ (53 - d)) as ->
      by (rewrite <- Z.pow_add_r by lia; f_equal; lia).
    assert (2 ^ 53 = 2 ^ d * 2 ^ (53 - d)) as ->
      by (rewrite <- Z.pow_add_r by lia; f_equal; lia).
    assert (0 < 2 ^ (53 - d)) by (apply Z.pow_pos_nonneg; lia). nia. }
  unfold float_of_Z, binary_normalize, binary_round.
  change (Z.pos (digits2_pos p)) with d.
  rewrite fexp_normal by lia. unfold shl_align.
  replace (d + 0 - 53 - 0) with (d - 53) by lia.
  destruct (d - 53) as [|q|q] eqn:Hq; [| lia |].
  - replace (53 - d) with 0 in Hm by lia. rewrite Z.mul_1_r in Hm.
    rewrite binary_round_aux_exact by (done || lia).
    exists p. rewrite Prim2SF_SF2Prim by (apply valid_normal; done || lia).
    replace (53 - d) with 0 by lia. split; [f_equal; lia|]. split; [lia|]. done.
  - assert (53 - d = Z.pos q) as Hq' by lia. rewrite Hq' in *.
    rewrite <- iter_xO_pow in Hm.
    rewrite binary_round_aux_exact by (done || lia).
    exists (Pos.iter xO p q). rewrite Prim2SF_SF2Prim by (apply valid_normal; done || lia).
    split; [f_equal; lia|]. split; [apply iter_xO_pow|]. done.
Qed.

Lemma float_of_Z_zero : Prim2SF (float_of_Z 0) = S754_zero false.
Proof. by vm_compute. Qed.

Lemma new_location_lies_at q r d :
  0 < d → 0 ≤ r < d →
  lies_at (q * d + r) d (shr_record_of_loc q (new_location d r)).
Proof.
  intros Hd Hr. split; [done|].
  unfold new_location, new_location_even, new_location_odd.
  destruct (Z.even d) eqn:Hev.
  - destruct (Z.eqb_spec r 0) as [->|Hr0]; simpl; [lia|].
    destruct (Z.compare_spec (2 * r) d); simpl; lia.
  - assert (Z.odd d = true) as Hodd by (by rewrite <- Z.negb_even, Hev).
    apply Z.odd_spec in Hodd as [h Hh].
    destruct (Z.eqb_spec r 0) as [->|Hr0]; simpl; [lia|].
    destruct (Z.compare_spec (2 * r + 1) d); simpl; lia.
Qed.

(** Division of two normal numbers whose exponents are close: the quotient
    is correctly rounded. *)
Lemma SFdiv_normal mx ex my ey :
  2 ^ 52 ≤ Z.pos mx < 2 ^ 53 → 2 ^ 52 ≤ Z.pos my < 2 ^ 53 →
  -500 ≤ ex - ey ≤ 500 →
  ∃ m c, SFdiv prec emax (S754_finite false mx ex) (S754_finite false my ey)
         = S754_finite false m (ex - ey - 53 + c)
    ∧ 2 ^ 52 ≤ Z.pos m < 2 ^ 53 ∧ 0 ≤ c ≤ 2
    ∧ 2 * Z.abs (Z.pos m * 2 ^ c * Z.pos my - Z.pos mx * 2 ^ 53) ≤ 2 ^ c * Z.pos my.
Proof.
  intros Hmx Hmy He. cbn [SFdiv xorb]. unfold SFdiv_core_binary.
  rewrite (Zdigits2_unique (Z.pos mx) 53), (Zdigits2_unique (Z.pos my) 53)
    by (change (2 ^ (53 - 1)) with (2 ^ 52); lia).
  rewrite fexp_normal by lia.
  replace (Z.min (53 + ex - (53 + ey) - 53) (ex - ey)) with (ex - ey - 53) by lia.
  replace (ex - ey - (ex - ey - 53)) with 53 by lia.
  cbv zeta iota beta.
  rewrite Z.shiftl_mul_pow2 by lia.
  pose proof (Z_div_mod (Z.pos mx * 2 ^ 53) (Z.pos my) ltac:(lia)) as Hdiv.
  destruct (Z.div_eucl (Z.pos mx * 2 ^ 53) (Z.pos my)) as [q r].
  destruct Hdiv as [Hqr Hr].
  assert (2 ^ 52 ≤ q < 2 ^ 54) as Hq.
  { change (2 ^ 54) with (2 * 2 ^ 53). change (2 ^ 53) with (2 * 2 ^ 52) in *.
    split; nia. }
  assert (Zdigits2 q = 53 ∨ Zdigits2 q = 54) as Hdq.
  { destruct (Z.lt_ge_cases q (2 ^ 53)).
    - left. apply Zdigits2_unique; [|lia]. change (2 ^ (53 - 1)) with (2 ^ 52). lia.
    - right. apply Zdigits2_unique; [|lia]. change (2 ^ (54 - 1)) with (2 ^ 53). lia. }
  destruct (binary_round_aux_normal q (ex - ey - 53) (new_location (Z.pos my) r)
              (Z.pos mx * 2 ^ 53) (Z.pos my)) as (m & c & Hres & Hm & Hc & Hnear);
    [lia|lia| |lia|lia|].
  { rewrite Hqr, (Z.mul_comm (Z.pos my) q). apply new_location_lies_at; lia. }
  exists m, c. split; [done|]. split; [done|]. split; [lia|]. done.
Qed.

(** [a / b] on two positive ints, the dividend below 2^50: the double
    nearest to the quotient. *)
Lemma int_division_nearest a b :
  0 < a < 2 ^ 50 → 0 < b < 2 ^ 53 →
  ∃ m e, Prim2SF (float_of_Z a / float_of_Z b) = S754_finite false m e
    ∧ 2 ^ 52 ≤ Z.pos m < 2 ^ 53 ∧ -110 ≤ e ≤ -2
    ∧ 2 * Z.abs (Z.pos m * b - a * 2 ^ (- e)) ≤ b.
Proof.
  intros Ha Hb.
  destruct (float_of_Z_exact a) as (ma & Ea & Hma & Hma' & Hda); [lia|].
  destruct (float_of_Z_exact b) as (mb & Eb & Hmb & Hmb' & Hdb); [lia|].
  set (da := Zdigits2 a) in *. set (db := Zdigits2 b) in *.
  assert (da ≤ 50) as Hda50.
  { pose proof (Zdigits2_bounds a ltac:(lia)) as Hdig. fold da in Hdig.
    destruct (Z.le_gt_cases da 50) as [|Hgt]; [done|].
    assert (2 ^ 50 ≤ 2 ^ (da - 1)) by (apply Z.pow_le_mono_r; lia). lia. }
  rewrite div_spec, Ea, Eb.
  destruct (SFdiv_normal ma (da - 53) mb (db - 53)) as (m & c & Hres & Hm & Hc & Hnear);
    [done|done|lia|].
  unfold SF64div. rewrite Hres.
  exists m, (da - 53 - (db - 53) - 53 + c). split; [done|]. split; [done|].
  split; [lia|].
  replace (- (da - 53 - (db - 53) - 53 + c)) with (53 + db - da - c) by lia.
  rewrite Hma, Hmb in Hnear.
  set (s := 2 ^ c * 2 ^ (53 - db)).
  assert (0 < s) as Hs by (apply Z.mul_pos_pos; apply Z.pow_pos_nonneg; lia).
  assert (2 ^ (53 - da) * 2 ^ 53 = 2 ^ (53 + db - da - c) * s) as Hpow.
  { unfold s. rewrite <- !Z.pow_add_r by lia. f_equal. lia. }
  replace (Z.pos m * 2 ^ c * (b * 2 ^ (53 - db)) - a * 2 ^ (53 - da) * 2 ^ 53)
    with (s * (Z.pos m * b - a * 2 ^ (53 + db - da - c))) in Hnear
    by (unfold s in *; nia).
  replace (2 ^ c * (b * 2 ^ (53 - db))) with (s * b) in Hnear by (unfold s; lia).
  rewrite Z.abs_mul, (Z.abs_eq s) in Hnear by lia.
  nia.
Qed.

Lemma zero_division_zero y m e :
  Prim2SF y = S754_finite false m e →
  Prim2SF (float_of_Z 0 / y) = S754_zero false.
Proof. intros Hy. by rewrite div_spec, float_of_Z_zero, Hy. Qed.

(** Multiplication of a normal number by 100. *)
Lemma times_hundred_nearest x m e :
  Prim2SF x = S754_finite false m e → 2 ^ 52 ≤ Z.pos m < 2 ^ 53 → -500 ≤ e ≤ 0 →
  ∃ m' c, Prim2SF (x * 100) = S754_finite false m' (e - 46 + c)
    ∧ 2 ^ 52 ≤ Z.pos m' < 2 ^ 53 ∧ 52 ≤ c ≤ 54
    ∧ 2 * Z.abs (Z.pos m' * 2 ^ c - Z.pos m * (100 * 2 ^ 46)) ≤ 2 ^ c.
Proof.
  intros Hx Hm He. rewrite mul_spec, Hx.
  replace (Prim2SF 100) with (S754_finite false (100 * 2 ^ 46) (-46)) by (by vm_compute).
  unfold SF64mul. cbn [SFmul xorb].
  assert (Z.pos (m * (100 * 2 ^ 46)) = Z.pos m * (100 * 2 ^ 46)) as Hprod by done.
  assert (2 ^ 104 ≤ Z.pos (m * (100 * 2 ^ 46)) < 2 ^ 106) as Hrange.
  { rewrite Hprod. change (2 ^ 104) with (2 ^ 52 * 2 ^ 52).
    change (2 ^ 106) with (2 ^ 53 * 2 ^ 53).
    change (100 * 2 ^ 46) with 7036874417766400.
    change (2 ^ 52) with 4503599627370496 in *.
    change (2 ^ 53) with 9007199254740992 in *. lia. }
  assert (Zdigits2 (Z.pos (m * (100 * 2 ^ 46))) = 105
          ∨ Zdigits2 (Z.pos (m * (100 * 2 ^ 46))) = 106) as Hd.
  { destruct (Z.lt_ge_cases (Z.pos (m * (100 * 2 ^ 46))) (2 ^ 105)).
    - left. apply Zdigits2_unique; [|lia]. change (2 ^ (105 - 1)) with (2 ^ 104). lia.
    - right. apply Zdigits2_unique; [|lia]. change (2 ^ (106 - 1)) with (2 ^ 105). lia. }
  destruct (binary_round_aux_normal (Z.pos (m * (100 * 2 ^ 46))) (e + -46) loc_Exact
              (Z.pos (m * (100 * 2 ^ 46))) 1) as (m' & c & Hres & Hm' & Hc & Hnear);
    [lia|lia| |lia|lia|].
  { split; [lia|]. simpl. lia. }
  rewrite Hres. exists m', c. split; [f_equal; lia|]. split; [done|]. split; [lia|].
  rewrite Hprod in Hnear. rewrite !Z.mul_1_r in Hnear. done.
Qed.

Lemma round_half_even_near n d :
  0 < d → 0 ≤ n →
  0 ≤ round_half_even n d ∧ 2 * Z.abs (round_half_even n d * d - n) ≤ d.
Proof.
  intros Hd Hn. unfold round_half_even.
  pose proof (Z.div_mod n d ltac:(lia)) as Hdm.
  pose proof (Z.mod_pos_bound n d Hd) as Hr.
  assert (0 ≤ n / d) as Hq by (apply Z.div_pos; lia).
  destruct (Z.ltb_spec (2 * (n mod d)) d); [split; nia|].
  destruct (Z.ltb_spec d (2 * (n mod d))); [split; nia|].
  destruct (Z.even (n / d)); split; nia.
Qed.

(** The three roundings of [round(k / n * 100, 1)] together stay within the
    gap that separates [1000 k / n] from the nearest half-integer. *)
Lemma share_rounding k n m a m' c kk :
  0 < k ≤ n → n < 2 ^ 40 → 2 ^ 52 ≤ m → 0 ≤ a →
  2 * Z.abs (m * n - k * 2 ^ a) ≤ n →
  52 ≤ c ≤ 54 →
  2 * Z.abs (m' * 2 ^ c - m * (100 * 2 ^ 46)) ≤ 2 ^ c →
  2 * Z.abs (kk * 2 ^ (a + 46 - c) - m' * 10) ≤ 2 ^ (a + 46 - c) →
  Z.abs (2 * kk * n - 2000 * k) ≤ n.
Proof.
  intros Hk Hn Hm Ha H1 Hc H2 H3.
  assert (52 ≤ a) as Ha52.
  { destruct (Z.le_gt_cases 52 a) as [|Hlt]; [done|].
    assert (2 ^ a ≤ 2 ^ 51) by (apply Z.pow_le_mono_r; lia).
    change (2 ^ 51) with 2251799813685248 in *.
    change (2 ^ 52) with 4503599627370496 in *. nia. }
  assert (2 ^ 52 ≤ 2 ^ a) as HA by (apply Z.pow_le_mono_r; lia).
  assert (2 ^ c ≤ 2 ^ 54) as HC by (apply Z.pow_le_mono_r; lia).
  assert (0 < 2 ^ c) as HC0 by (apply Z.pow_pos_nonneg; lia).
  assert (0 < 2 ^ (a + 46 - c)) as HB0 by (apply Z.pow_pos_nonneg; lia).
  assert (2 ^ (a + 46 - c) * 2 ^ c = 2 ^ a * 2 ^ 46) as HBC
    by (rewrite <- !Z.pow_add_r by lia; f_equal; lia).
  set (A := 2 ^ a) in *. set (B := 2 ^ (a + 46 - c)) in *. set (C := 2 ^ c) in *.
  change (2 ^ 40) with 1099511627776 in *.
  change (2 ^ 46) with 70368744177664 in *.
  change (2 ^ 52) with 4503599627370496 in *.
  change (2 ^ 54) with 18014398509481984 in *.
  set (E1 := m * n - k * A) in *.
  set (E2 := m' * C - m * (100 * 70368744177664)) in *.
  set (E3 := kk * B - m' * 10) in *.
  set (D := 2 * kk * n - 2000 * k).
  assert (D * (A * 70368744177664)
          = n * C * (2 * E3) + 10 * n * (2 * E2) + 10 * (100 * 70368744177664) * (2 * E1))
    as Hid.
  { rewrite <- HBC. unfold D, E1, E2, E3.
    transitivity (2 * kk * n * (B * C) - 2000 * k * (B * C)); [ring|].
    rewrite HBC at 2. ring. }
  destruct (Z.le_gt_cases (Z.abs D) n) as [|Hgt]; [done|exfalso].
  assert (Z.abs (n * C * (2 * E3)) ≤ n * (A * 70368744177664)) as B3.
  { rewrite Z.abs_mul, (Z.abs_eq (n * C)) by nia. rewrite <- HBC.
    replace (n * (B * C)) with (n * C * B) by ring.
    apply Z.mul_le_mono_nonneg_l; [nia|]. rewrite Z.abs_mul. simpl Z.abs. lia. }
  assert (Z.abs (10 * n * (2 * E2)) ≤ 10 * n * C) as B2.
  { rewrite Z.abs_mul, (Z.abs_eq (10 * n)) by lia.
    apply Z.mul_le_mono_nonneg_l; [lia|]. rewrite Z.abs_mul. simpl Z.abs. lia. }
  assert (Z.abs (10 * (100 * 70368744177664) * (2 * E1))
          ≤ 10 * (100 * 70368744177664) * n) as B1.
  { rewrite Z.abs_mul, (Z.abs_eq (10 * (100 * 70368744177664))) by lia.
    apply Z.mul_le_mono_nonneg_l; [lia|]. rewrite Z.abs_mul. simpl Z.abs. lia. }
  assert (Z.abs D * (A * 70368744177664)
          ≤ n * (A * 70368744177664) + 10 * n * C + 10 * (100 * 70368744177664) * n) as HD.
  { rewrite <- (Z.abs_eq (A * 70368744177664)) at 1 by lia.
    rewrite <- Z.abs_mul, Hid. lia. }
  assert ((n + 1) * (A * 70368744177664) ≤ Z.abs D * (A * 70368744177664)) as HD'
    by (apply Z.mul_le_mono_nonneg_r; lia).
  assert (n * C ≤ n * 18014398509481984) as HnC
    by (apply Z.mul_le_mono_nonneg_l; lia).
  lia.
Qed.

Lemma quotient_exponent k n m a :
  0 < k ≤ n → 2 ^ 52 ≤ m → 2 * Z.abs (m * n - k * 2 ^ a) ≤ n → 52 ≤ a.
Proof.
  intros Hk Hm H1. destruct (Z.le_gt_cases 52 a) as [|Hlt]; [done|exfalso].
  assert (2 ^ a ≤ 2 ^ 51) as Hpow.
  { destruct (Z.le_gt_cases 0 a).
    - apply Z.pow_le_mono_r; lia.
    - rewrite Z.pow_neg_r by lia. done. }
  assert (0 ≤ 2 ^ a) as Hnn by (apply Z.pow_nonneg; lia).
  change (2 ^ 51) with 2251799813685248 in *.
  change (2 ^ 52) with 4503599627370496 in *.
  assert (k * 2 ^ a ≤ n * 2251799813685248) as Hprod.
  { transitivity (n * 2 ^ a).
    - apply Z.mul_le_mono_nonneg_r; lia.
    - apply Z.mul_le_mono_nonneg_l; lia. }
  assert (4503599627370496 * n ≤ m * n) as Hmn
    by (apply Z.mul_le_mono_nonneg_r; lia).
  lia.
Qed.

(** [round(k / n * 100, 1)] for [0 <= k <= n < 2^40]: the double nearest
    to [d / 10], where [d] is an integer nearest to [1000 k / n]. *)
Lemma round1_of_share k n :
  0 ≤ k ≤ n → 0 < n < 2 ^ 40 →
  ∃ d, nearest_double d 10 (py_round1 (float_of_Z k / float_of_Z n * 100))
    ∧ Z.abs (2 * d * n - 2000 * k) ≤ n.
Proof.
  intros Hk Hn.
  assert (2 ^ 40 < 2 ^ 50 ∧ 2 ^ 50 < 2 ^ 53) as [H40 H50] by (by vm_compute).
  destruct (Z.eq_dec k 0) as [->|Hk0].
  - exists 0. split; [|rewrite Z.abs_eq; lia].
    destruct (float_of_Z_exact n) as (mn & En & _); [lia|].
    pose proof (zero_division_zero _ _ _ En) as Hq.
    assert (Prim2SF (float_of_Z 0 / float_of_Z n * 100) = S754_zero false) as Hx.
    { rewrite mul_spec, Hq. by vm_compute. }
    unfold py_round1, nearest_double. by rewrite Hx, Hx.
  - destruct (int_division_nearest k n) as (m & e & Hq & Hm & He & H1); [lia|lia|].
    pose proof (quotient_exponent k n (Z.pos m) (- e) ltac:(lia) ltac:(lia) H1) as Ha.
    destruct (times_hundred_nearest _ m e Hq Hm) as (m' & c & Hx & Hm' & Hc & H2); [lia|].
    unfold py_round1. rewrite Hx.
    destruct (Z.leb_spec 0 (e - 46 + c)) as [|_]; [lia|]. cbv zeta.
    replace (- (e - 46 + c)) with (- e + 46 - c) by lia.
    assert (0 < 2 ^ (- e + 46 - c)) as Hpow by (apply Z.pow_pos_nonneg; lia).
    destruct (round_half_even_near (Z.pos m' * 10) (2 ^ (- e + 46 - c)))
      as [Hkk0 H3]; [done|lia|].
    set (kk := round_half_even (Z.pos m' * 10) (2 ^ (- e + 46 - c))) in *.
    pose proof (share_rounding k n (Z.pos m) (- e) (Z.pos m') c kk
                  ltac:(lia) ltac:(lia) ltac:(lia) ltac:(lia) H1 Hc H2 H3) as Hshare.
    exists kk. split; [|done].
    assert (kk ≤ 1000) as Hkk.
    { destruct (Z.le_gt_cases kk 1000) as [|Hgt]; [done|exfalso].
      assert (1001 * n ≤ kk * n) by (apply Z.mul_le_mono_nonneg_r; lia). lia. }
    destruct (Z.eq_dec kk 0) as [->|Hkk1].
    + assert (Prim2SF (float_of_Z 0 / 10) = S754_zero false) as Hr.
      { apply (zero_division_zero _ (10 * 2 ^ 49) (-49)). by vm_compute. }
      unfold nearest_double. by rewrite Hr.
    + replace 10%float with (float_of_Z 10) by (by vm_compute).
      destruct (int_division_nearest kk 10) as (m3 & e3 & Hr & Hm3 & He3 & H4);
        [change (2 ^ 50) with 1125899906842624; lia|by vm_compute|].
      unfold nearest_double. rewrite Hr. split; [done|]. split; [lia|]. done.
Qed.

(** The double nearest to 66.7 is unique. *)
Lemma nearest_double_66_7 f :
  nearest_double 667 10 f → f = 0x1.0accccccccccdp+6%float.
Proof.
  unfold nearest_double. destruct (Prim2SF f) as [[]| | |[] m e] eqn:Hf; try done.
  intros (Hm & He & Hnear).
  change (2 ^ 52) with 4503599627370496 in Hm.
  change (2 ^ 53) with 9007199254740992 in Hm.
  assert (e = -46) as ->.
  { destruct (Z.le_gt_cases (- e) 45) as [Hlo|Hlo].
    - assert (2 ^ (- e) ≤ 2 ^ 45) by (apply Z.pow_le_mono_r; lia).
      change (2 ^ 45) with 35184372088832 in *.
      set (x := 2 ^ (- e)) in *. lia.
    - destruct (Z.le_gt_cases 47 (- e)) as [Hhi|Hhi]; [|lia].
      assert (2 ^ 47 ≤ 2 ^ (- e)) by (apply Z.pow_le_mono_r; lia).
      change (2 ^ 47) with 140737488355328 in *.
      set (x := 2 ^ (- e)) in *. lia. }
  change (2 ^ (- -46)) with 70368744177664 in Hnear.
  assert (m = 4693595236650189%positive) as -> by lia.
  rewrite <- (SF2Prim_Prim2SF f), Hf. by vm_compute.
Qed.

End Rounding.

(** ** Analytics and deletion *)

Section Analytics.
Local Arguments select_email : simpl never.
Local Arguments select_email_events : simpl never.
Local Arguments select_unique_opens : simpl never.
Local Arguments select_counts : simpl never.
Local Arguments select_link_stats : simpl never.
Local Arguments select_totals : simpl never.
Local Arguments select_opened : simpl never.
Local Arguments select_activity : simpl never.
Local Arguments select_email_count : simpl never.
Local Arguments select_email_page : simpl never.
Local Arguments select_link : simpl never.
Local Arguments select_ignored_ip : simpl never.
Local Arguments insert_event : simpl never.
Local Arguments sql_delete_email : simpl never.
Local Arguments py_truediv : simpl never.
Local Arguments py_round1 : simpl never.

(** What [get_email] read when it answers with a detail. *)
Lemma get_email_detail E w id det :
  (get_email E id w).1 = Ok (inr det) →
  ∃ email rows evs counts ls,
    select_email id (disk w) = Ok (email :: rows)
    ∧ select_email_events id (disk w) = Ok evs
    ∧ select_unique_opens id (disk w) = Ok (unique_opens det)
    ∧ select_counts id (disk w) = Ok counts
    ∧ select_link_stats id (disk w) = Ok ls
    ∧ det = EmailDetail id email evs (unique_opens det) counts.1 counts.2 ls.
Proof.
  destruct w as [d c t n]. unfold get_email. unfold_monad.
  walk; intros [= <-]; simpl; by eexists _, _, _, _, _.
Qed.

Lemma get_email_succeeds E w id :
  is_Some (emails_of (disk w) !! id) → is_Some (events (disk w)) → is_Some (links (disk w)) →
  ∃ det, (get_email (quiet E) id w).1 = Ok (inr det).
Proof.
  destruct w as [d c t n]. simpl. intros [row Hrow] [evs Hevs] [lk Hlk].
  unfold emails_of in Hrow. destruct (emails d) as [m|] eqn:Hm; [|done]. simpl in Hrow.
  assert (select_email id d = Ok [row]) as H1.
  { unfold select_email. by rewrite Hm, Hrow. }
  assert (∃ x, select_email_events id d = Ok x) as [x2 H2].
  { unfold select_email_events. rewrite Hevs, Hlk. eauto. }
  assert (∃ x, select_unique_opens id d = Ok x) as [x3 H3].
  { unfold select_unique_opens. rewrite Hevs. eauto. }
  assert (∃ x, select_counts id d = Ok x) as [x4 H4].
  { unfold select_counts. rewrite Hevs. eauto. }
  assert (∃ x, select_link_stats id d = Ok x) as [x5 H5].
  { unfold select_link_stats. rewrite Hevs, Hlk. eauto. }
  unfold get_email. unfold_monad. walk. eauto.
Qed.

(** What [get_stats] read when it answers. *)
Lemma get_stats_answer E w st :
  (get_stats E w).1 = Ok st →
  ∃ total opens clicks act,
    select_totals (disk w) = Ok (total, opens, clicks)
    ∧ select_opened (disk w) = Ok (emails_opened st)
    ∧ select_activity E (disk w) = Ok act
    ∧ st = Stats total opens clicks (emails_opened st)
             (if 0 <? total
              then JFloat (py_round1 (float_of_Z (Z.of_nat (emails_opened st))
                                      / float_of_Z (Z.of_nat total) * 100))
              else JInt 0)
             act.
Proof.
  destruct w as [d c t n]. unfold get_stats. unfold_monad.
  walk; intros [= <-]; simpl.
  - destruct a as [[total opens] clicks]. simpl in *. exists total, opens, clicks, a2.
    rewrite Heqb. unfold py_truediv in Heqo6. destruct (total =? 0); [done|].
    by injection Heqo6 as <-.
  - destruct a as [[total opens] clicks]. simpl in *. exists total, opens, clicks, a1.
    by rewrite Heqb.
Qed.

Lemma get_stats_never_divides_by_zero E w : (get_stats E w).1 ≠ Raise ZeroDivisionError.
Proof.
  destruct w as [d c t n]. unfold get_stats. unfold_monad.
  unfold select_totals, select_opened, select_activity, no_such_table.
  walk. unfold py_truediv in *. apply Nat.ltb_lt in Heqb.
  destruct (_ =? _) eqn:Hz; [|done]. apply Nat.eqb_eq in Hz. lia.
Qed.

Lemma get_stats_succeeds E w :
  is_Some (emails (disk w)) → is_Some (events (disk w)) →
  ∃ st, (get_stats (quiet E) w).1 = Ok st.
Proof.
  destruct w as [d c t n]. simpl. intros [m Hm] [evs Hevs].
  assert (∃ x, select_totals d = Ok x) as [x1 H1].
  { unfold select_totals. rewrite Hm, Hevs. eauto. }
  assert (∃ x, select_opened d = Ok x) as [x2 H2].
  { unfold select_opened. rewrite Hevs. eauto. }
  assert (∃ x, select_activity (quiet E) d = Ok x) as [x3 H3].
  { unfold select_activity. rewrite Hevs. eauto. }
  unfold get_stats. unfold_monad. walk; eauto.
  unfold py_truediv in *. apply Nat.ltb_lt in Heqb.
  destruct (_ =? _) eqn:Hz; [|done]. apply Nat.eqb_eq in Hz. lia.
Qed.

Lemma length_remove_dups (l : list string) :
  length (remove_dups l) = size (list_to_set l : gset string).
Proof.
  rewrite <- (size_list_to_set (C := gset string) (remove_dups l))
    by apply NoDup_remove_dups.
  f_equal. apply set_eq. intros x.
  by rewrite !elem_of_list_to_set, elem_of_remove_dups.
Qed.

Lemma has_open_elem evs id :
  has_open evs id ↔ id ∈ ev_email_id <$> filter is_open evs.
Proof.
  unfold has_open. rewrite Exists_exists, list_elem_of_fmap. split.
  - intros (e & He & Hopen & Hid). exists e. split; [done|].
    by apply list_elem_of_filter.
  - intros (e & -> & [Hopen He]%list_elem_of_filter). by exists e.
Qed.

(** With every event pointing at an email row, counting distinct email ids
    among the opens counts the emails that have an open. *)
Lemma select_opened_counts_emails d n :
  referential_integrity d → select_opened d = Ok n → n = emails_with_open d.
Proof.
  intros [Hrefs _]. unfold select_opened, emails_with_open, events_of in *.
  destruct (events d) as [evs|]; [|done]. simpl in *. intros [= <-].
  rewrite length_remove_dups, <- size_dom. f_equal. apply set_eq. intros id.
  rewrite elem_of_list_to_set, elem_of_dom, <- has_open_elem. split.
  - intros Hopen. pose proof Hopen as Hopen'.
    apply Exists_exists in Hopen' as (e & He & _ & Hid).
    rewrite Forall_forall in Hrefs. destruct (Hrefs e He) as [[row Hrow] _].
    exists row. apply map_lookup_filter_Some. rewrite <- Hid. by rewrite Hid in *. 
  - intros [row [_ Hopen]%map_lookup_filter_Some]. exact Hopen.
Qed.

Lemma emails_with_open_le d : emails_with_open d ≤ size (emails_of d).
Proof. unfold emails_with_open. apply map_subseteq_size, map_filter_subseteq. Qed.

(** C7: [get_stats] never raises ZeroDivisionError, and it answers when the
    tables are there and the engine is quiet; on a store whose events point
    at email rows, [emails_opened] is the number of emails with at least one
    open event, [open_rate] is that share of all emails as a percentage
    rounded to one decimal, and it is the integer 0 when there is no
    email.  Rounded to one decimal, in numbers: with fewer than 2^40 emails
    [open_rate] is the double nearest to [d / 10], where [d] is an integer
    nearest to a thousand times the number of opened emails divided by the
    number of emails. *)
Theorem open_rate_is_rounded_share_of_opened_emails E w :
  (get_stats E w).1 ≠ Raise ZeroDivisionError
  ∧ (is_Some (emails (disk w)) → is_Some (events (disk w)) →
     ∃ st, (get_stats (quiet E) w).1 = Ok st)
  ∧ ∀ st, referential_integrity (disk w) → (get_stats E w).1 = Ok st →
      total_emails st = size (emails_of (disk w))
      ∧ emails_opened st = emails_with_open (disk w)
      ∧ open_rate st = percentage (emails_with_open (disk w)) (size (emails_of (disk w)))
      ∧ (total_emails st = 0 → open_rate st = JInt 0)
      ∧ (0 < total_emails st → (Z.of_nat (total_emails st) < 2 ^ 40)%Z →
         rounded_percentage (emails_with_open (disk w)) (total_emails st) (open_rate st)).
Proof.
  split_and!.
  - apply get_stats_never_divides_by_zero.
  - apply get_stats_succeeds.
  - intros st Hrefs Hst.
    apply get_stats_answer in Hst as (total & opens & clicks & act & Htot & Hop & _ & ->).
    simpl in *. apply (select_opened_counts_emails _ _ Hrefs) in Hop.
    assert (total = size (emails_of (disk w))) as ->.
    { unfold select_totals, emails_of in *.
      destruct (emails (disk w)); [|done]. destruct (events (disk w)); [|done].
      by injection Htot as <- _ _. }
    rewrite Hop. unfold percentage. split_and!; try done.
    + by destruct (size _) as [|k].
    + by intros ->.
    + intros Hpos Hlt. pose proof (emails_with_open_le (disk w)) as Hle.
      destruct (round1_of_share (Z.of_nat (emails_with_open (disk w)))
                  (Z.of_nat (size (emails_of (disk w))))) as (d & Hd & Hshare);
        [lia|lia|].
      exists d, (py_round1 (float_of_Z (Z.of_nat (emails_with_open (disk w)))
                            / float_of_Z (Z.of_nat (size (emails_of (disk w)))) * 100)).
      split; [|done].
      destruct (Nat.ltb_spec 0 (size (emails_of (disk w)))); [done|lia].
Qed.

Lemma three_emails_reachable : reachable provisioned three_emails.
Proof.
  unfold three_emails. cbn [foldl]. repeat apply reachable_step. apply reachable_start.
Qed.

Lemma open_rate_is_rounded_share_of_opened_emails_witness :
  ∃ st, (get_stats (quiet calm) three_emails).1 = Ok st
        ∧ total_emails st = 3
        ∧ emails_opened st = 2
        ∧ open_rate st = JFloat 0x1.0accccccccccdp+6%float.
Proof.
  destruct (proj2 (open_rate_is_rounded_share_of_opened_emails (quiet calm) three_emails))
    as [[st Hst] Hrate].
  - vm_compute. eauto.
  - vm_compute. eauto.
  - exists st. split; [exact Hst|].
    destruct (Hrate st) as (Htotal & Hopened & _ & _ & Hround).
    + apply (reachable_invariant provisioned); [exact provisioned_invariant|].
      exact three_emails_reachable.
    + exact Hst.
    + assert (size (emails_of (disk three_emails)) = 3) as H3 by (by vm_compute).
      assert (emails_with_open (disk three_emails) = 2) as H2 by (by vm_compute).
      rewrite H3 in Htotal. rewrite H2 in Hopened, Hround. rewrite Htotal in Hround.
      split; [exact Htotal|]. split; [exact Hopened|].
      destruct Hround as (d & f & -> & Hd & Hshare); [lia|by vm_compute|].
      unfold nearest_tenth in Hshare.
      assert (d = 667%Z) as -> by lia.
      f_equal. exact (nearest_double_66_7 f Hd).
Defined.

Example two_of_three_emails_opened :
  percentage 2 3 = JFloat 0x1.0accccccccccdp+6%float
  ∧ emails_with_open (disk three_emails) = 2
  ∧ size (emails_of (disk three_emails)) = 3.
Proof. vm_compute. repeat split. Qed.

(** C8: in the detail of an email, [unique_opens] is the number of distinct
    client addresses among its open events: as many as there are events when
    the addresses are pairwise different, one when they are all the same.
    The detail is returned whenever the email and the tables exist and the
    engine is quiet. *)
Theorem unique_opens_counts_distinct_ips E w id :
  (is_Some (emails_of (disk w) !! id) → is_Some (events (disk w)) →
   is_Some (links (disk w)) →
   ∃ det, (get_email (quiet E) id w).1 = Ok (inr det))
  ∧ ∀ det, (get_email E id w).1 = Ok (inr det) →
      unique_opens det = size (list_to_set (open_ips id (disk w)) : gset string)
      ∧ (NoDup (open_ips id (disk w)) →
         unique_opens det = length (open_ips id (disk w)))
      ∧ (∀ ip n, open_ips id (disk w) = replicate (S n) ip → unique_opens det = 1).
Proof.
  split; [apply get_email_succeeds|]. intros det Hdet.
  apply get_email_detail in Hdet as (_ & _ & _ & _ & _ & _ & _ & Huniq & _).
  assert (unique_opens det = size (list_to_set (open_ips id (disk w)) : gset string))
    as Hsize.
  { unfold select_unique_opens, open_ips, events_of in *.
    destruct (events (disk w)) as [evs|]; [|done]. injection Huniq as <-. simpl.
    rewrite length_remove_dups, list_filter_filter. do 3 f_equal.
    apply list_filter_iff. tauto. }
  split_and!.
  - exact Hsize.
  - intros Hnodup. rewrite Hsize. by apply size_list_to_set.
  - intros ip n Hips. rewrite Hsize, Hips.
    replace (list_to_set (replicate (S n) ip) : gset string) with ({[ip]} : gset string).
    + apply size_singleton.
    + apply set_eq. intros x. rewrite elem_of_list_to_set, elem_of_singleton. split.
      * intros ->. simpl. left.
      * by intros ?%elem_of_replicate_inv.
Qed.

Lemma unique_opens_counts_distinct_ips_witness :
  ∃ det, (get_email (quiet calm) "x" three_emails).1 = Ok (inr det)
         ∧ unique_opens det
           = size (list_to_set (open_ips "x" (disk three_emails)) : gset string).
Proof.
  destruct (unique_opens_counts_distinct_ips (quiet calm) three_emails "x")
    as [Hruns Hcount].
  destruct Hruns as [det Hdet].
  - vm_compute. eauto.
  - vm_compute. eauto.
  - vm_compute. eauto.
  - exists det. split; [exact Hdet|]. by destruct (Hcount det Hdet) as [Hsize _].
Defined.

Example three_opens_from_two_addresses :
  open_ips "x" (disk three_emails) = ["203.0.113.7"; "203.0.113.7"; "198.51.100.9"]
  ∧ (unique_opens <$> (match (get_email calm "x" three_emails).1 with
                       | Ok (inr det) => Some det
                       | _ => None
                       end)) = Some 2.
Proof. vm_compute. split; reflexivity. Qed.

(** When deletion returns, the file holds the outcome of the cascading
    delete. *)
Lemma delete_email_commits E w id :
  (delete_email E id w).1 = Ok tt →
  sql_delete_email true id (disk w) = Ok (disk (delete_email E id w).2).
Proof.
  destruct w as [d c t n]. unfold delete_email. unfold_monad. walk.
Qed.

Lemma delete_email_completes E w id :
  is_Some (emails (disk w)) → (delete_email (quiet E) id w).1 = Ok tt.
Proof.
  destruct w as [d c t n]. simpl. intros [m Hm].
  assert (∃ d', sql_delete_email true id d = Ok d') as [d' Hd'].
  { unfold sql_delete_email. rewrite Hm. eauto. }
  unfold delete_email. unfold_monad. walk.
Qed.

Lemma filter_agree {A} (P Q : A → Prop) `{∀ x, Decision (P x)} `{∀ x, Decision (Q x)}
    (l : list A) :
  (∀ x, x ∈ l → (P x ↔ Q x)) → filter P l = filter Q l.
Proof.
  induction l as [|x l IH]; intros Hl; [done|]. rewrite !filter_cons.
  rewrite IH by (intros y Hy; apply Hl; by right).
  destruct (Hl x) as [H1 H2]; [by left|].
  destruct (decide (P x)), (decide (Q x)); tauto.
Qed.

Lemma filter_keeps_all {A} (P : A → Prop) `{∀ x, Decision (P x)} (l : list A) :
  Forall P l → filter P l = l.
Proof.
  induction 1 as [|x l Hx Hl IH]; [done|].
  rewrite filter_cons, IH. by destruct (decide (P x)).
Qed.

(** On a consistent store the cascade removes exactly the rows of the
    email: its row, the links it owns, the events that name it. *)
Lemma sql_delete_email_purges id d d' :
  store_invariant d → sql_delete_email true id d = Ok d' →
  emails_of d' = delete id (emails_of d)
  ∧ links_of d' = filter (λ kv, link_email_id kv.2 ≠ id) (links_of d)
  ∧ events_of d' = filter (λ e, ev_email_id e ≠ id) (events_of d).
Proof.
  intros [Hkind [Hrefs Hlinks]] Hdel.
  apply sql_delete_email_rows in Hdel as (m & Hm & Hcases).
  assert (emails_of d = m) as Hem by (unfold emails_of; by rewrite Hm).
  destruct Hcases as [[Hid ->]|(Hin & -> & -> & ->)].
  - rewrite Hem. split_and!.
    + by rewrite delete_id.
    + symmetry. apply map_filter_id. intros l row Hrow. simpl. intros Heq.
      destruct (Hlinks l row Hrow) as [x Hx]. rewrite Hem in Hx. congruence.
    + symmetry. apply filter_keeps_all, Forall_forall. intros e He Heq.
      rewrite Forall_forall in Hrefs. destruct (Hrefs e He) as [[x Hx] _].
      rewrite Hem in Hx. congruence.
  - rewrite Hem. split_and!; [done|done|].
    apply filter_agree. intros e He. unfold event_survives. split; [tauto|].
    intros Hne. split; [done|].
    destruct (ev_link_id e) as [l|] eqn:Hl; simpl; [|done].
    destruct (links_of d !! l) as [row|] eqn:Hrow; simpl; [|done].
    unfold owned_by. intros Hown'. apply Hne.
    unfold kind_link_invariant in Hkind.
    rewrite Forall_forall in Hkind. specialize (Hkind e He). unfold event_ok in Hkind.
    destruct (ev_type e).
    + congruence.
    + destruct Hkind as (l' & row' & Hl' & Hrow' & Hown). congruence.
Qed.

(** Every row of the listing is a row of [emails]. *)
Lemma list_emails_rows E w page per_page search lst :
  (list_emails E page per_page search w).1 = Ok (Some lst) →
  Forall (λ row, is_Some (emails_of (disk w) !! sum_id row)) (lst_emails lst).
Proof.
  destruct w as [d c t n]. unfold list_emails. unfold_monad.
  walk; intros [= <-]; simpl. apply Forall_forall. intros row Hrow.
  match goal with H : select_email_page _ _ _ _ _ = Ok _ |- _ => rename H into Hpage end.
  unfold select_email_page in Hpage.
  destruct (emails d) as [m|] eqn:Hm; [|done]. destruct (events d) as [evs|]; [|done].
  injection Hpage as <-.
  apply subseteq_take, subseteq_drop in Hrow. rewrite merge_sort_Permutation in Hrow.
  apply list_elem_of_fmap in Hrow as ([k r] & -> & [_ Hkr]%list_elem_of_filter).
  apply elem_of_map_to_list in Hkr. unfold emails_of. rewrite Hm. simpl. eauto.
Qed.

Lemma get_email_needs_row E w id det :
  (get_email E id w).1 = Ok (inr det) → is_Some (emails_of (disk w) !! id).
Proof.
  intros (email & rows & _ & _ & _ & Hsel & _)%get_email_detail.
  unfold select_email, emails_of in *. destruct (emails (disk w)) as [m|]; [|done].
  simpl. destruct (m !! id); [eauto|done].
Qed.

Lemma track_click_unknown_link E w link_id rq r :
  links_of (disk w) !! link_id = None →
  (track_click E link_id rq w).1 = Ok r →
  r = JSONResponse (JObj [("error", JStr "Link not found")]) 404.
Proof.
  destruct w as [d c t n]. simpl. intros Hnone.
  assert (select_link link_id d = Ok [] ∨ ∃ e, select_link link_id d = Raise e) as Hsel.
  { unfold select_link, links_of in *. destruct (links d) as [lk|]; simpl in *.
    - left. by rewrite Hnone.
    - right. eauto. }
  unfold track_click. unfold_monad.
  destruct Hsel as [Hsel|[e Hsel]]; walk; by intros [= <-].
Qed.

Lemma get_stats_totals E w st :
  (get_stats E w).1 = Ok st →
  total_emails st = size (emails_of (disk w))
  ∧ st_total_opens st = length (filter is_open (events_of (disk w)))
  ∧ st_total_clicks st = length (filter is_click (events_of (disk w))).
Proof.
  intros (total & opens & clicks & act & Htot & _ & _ & ->)%get_stats_answer. simpl.
  unfold select_totals, emails_of, events_of in *.
  destruct (emails (disk w)); [|done]. destruct (events (disk w)); [|done].
  by injection Htot as <- <- <-.
Qed.

(** C6: when [delete_email] returns on a consistent store, the email row,
    the links it owned and the events that named it are gone and nothing
    else is; no remaining event names one of its links; the detail of the
    email is never returned again, a click on one of its links gets the 404
    answer, the listing has no row with its id, and the totals of
    [get_stats] count the other emails' rows only. *)
Theorem deleted_email_is_gone E w id :
  store_invariant (disk w) → (delete_email E id w).1 = Ok tt →
  let w' := (delete_email E id w).2 in
  emails_of (disk w') = delete id (emails_of (disk w))
  ∧ links_of (disk w') = filter (λ kv, link_email_id kv.2 ≠ id) (links_of (disk w))
  ∧ events_of (disk w') = filter (λ e, ev_email_id e ≠ id) (events_of (disk w))
  ∧ Forall (λ e, ∀ l row, ev_link_id e = Some l → links_of (disk w) !! l = Some row →
                          link_email_id row ≠ id) (events_of (disk w'))
  ∧ (∀ E' det, (get_email E' id w').1 ≠ Ok (inr det))
  ∧ (∀ E' rq l row r, links_of (disk w) !! l = Some row → link_email_id row = id →
       (track_click E' l rq w').1 = Ok r →
       r = JSONResponse (JObj [("error", JStr "Link not found")]) 404)
  ∧ (∀ E' page per_page search lst,
       (list_emails E' page per_page search w').1 = Ok (Some lst) →
       Forall (λ row, sum_id row ≠ id) (lst_emails lst))
  ∧ (∀ E' st, (get_stats E' w').1 = Ok st →
       total_emails st = size (delete id (emails_of (disk w)))
       ∧ st_total_opens st
         = length (filter (λ e, is_open e ∧ ev_email_id e ≠ id) (events_of (disk w)))
       ∧ st_total_clicks st
         = length (filter (λ e, is_click e ∧ ev_email_id e ≠ id) (events_of (disk w)))).
Proof.
  intros Hinv Hdel w'. pose proof (delete_email_commits E w id Hdel) as Hsql.
  fold w' in Hsql.
  destruct (sql_delete_email_purges id (disk w) (disk w') Hinv Hsql) as (Hem & Hlk & Hev).
  pose proof (sql_delete_email_invariant id _ _ Hinv Hsql) as [Hkind' [Hrefs' _]].
  split_and!; try done.
  - apply Forall_forall. intros e He l row Hl Hrow Hown.
    rewrite Forall_forall in Hrefs'. destruct (Hrefs' e He) as [_ Hlink].
    destruct (Hlink l Hl) as [row' Hrow']. rewrite Hlk in Hrow'.
    apply map_lookup_filter_Some in Hrow' as [Hrow' Hne]. simpl in Hne. congruence.
  - intros E' det Hdet. apply get_email_needs_row in Hdet as [row Hrow].
    by rewrite Hem, lookup_delete_eq in Hrow.
  - intros E' rq l row r Hrow Hown. apply track_click_unknown_link.
    rewrite Hlk. apply map_lookup_filter_None. right. intros row' Hrow'. simpl.
    intros Hne. congruence.
  - intros E' page per_page search lst Hlst. apply list_emails_rows in Hlst.
    eapply Forall_impl; [exact Hlst|]. simpl. intros row [x Hx] Heq.
    by rewrite Heq, Hem, lookup_delete_eq in Hx.
  - intros E' st (Htot & Hop & Hcl)%get_stats_totals.
    rewrite Htot, Hop, Hcl, Hem, Hev, !list_filter_filter. done.
Qed.

Lemma deleted_email_is_gone_witness :
  let w' := (delete_email (quiet calm) "x" after_click_and_open).2 in
  emails_of (disk w') = delete "x" (emails_of (disk after_click_and_open))
  ∧ events_of (disk w')
    = filter (λ e, ev_email_id e ≠ "x") (events_of (disk after_click_and_open))
  ∧ (∀ E' det, (get_email E' "x" w').1 ≠ Ok (inr det)).
Proof.
  destruct (deleted_email_is_gone (quiet calm) after_click_and_open "x")
    as (Hem & _ & Hev & _ & Hget & _).
  - apply (reachable_invariant provisioned); [exact provisioned_invariant|].
    unfold after_click_and_open. repeat apply reachable_step. apply reachable_start.
  - vm_compute. reflexivity.
  - split; [exact Hem|]. split; [exact Hev|exact Hget].
Defined.

Example deleting_x_empties_the_store :
  events_of (disk after_click_and_open) ≠ []
  ∧ events_of (disk (delete_email calm "x" after_click_and_open).2) = []
  ∧ links_of (disk (delete_email calm "x" after_click_and_open).2) = ∅.
Proof. vm_compute. repeat split. discriminate. Qed.
End Analytics.

(** ** Strings *)

Lemma append_nil_l (s : string) : "" ++ s = s.
Proof. reflexivity. Qed.

Lemma append_cons c (s t : string) : String c s ++ t = String c (s ++ t).
Proof. reflexivity. Qed.

Ltac string_simpl := rewrite ?append_nil_l, ?append_cons; simpl.

Lemma string_app_assoc (s t u : string) : s ++ t ++ u = (s ++ t) ++ u.
Proof. induction s; string_simpl; congruence. Qed.

Lemma rev_app_app s t : String.rev_app s t = String.rev s ++ t.
Proof.
  unfold String.rev. revert t. induction s as [|c s IH]; intros t; simpl; [done|].
  rewrite IH, (IH (String c "")). by rewrite <- string_app_assoc.
Qed.

Lemma rev_cons c s : String.rev (String c s) = String.rev s ++ String c "".
Proof. unfold String.rev at 1. simpl. apply rev_app_app. Qed.

Lemma string_app_nil_r s : s ++ "" = s.
Proof. induction s; string_simpl; congruence. Qed.

Lemma rev_append s t : String.rev (s ++ t) = String.rev t ++ String.rev s.
Proof.
  induction s as [|c s IH]; string_simpl.
  - by rewrite string_app_nil_r.
  - by rewrite !rev_cons, IH, string_app_assoc.
Qed.

Lemma rev_rev s : String.rev (String.rev s) = s.
Proof.
  induction s as [|c s IH]; [done|]. by rewrite rev_cons, rev_append, IH.
Qed.

Lemma lstrip_blank pre s : blank pre = true → lstrip (pre ++ s) = lstrip s.
Proof.
  induction pre as [|c pre IH]; string_simpl; [done|].
  intros [Hc Hpre]%andb_prop. rewrite Hc. auto.
Qed.

Lemma lstrip_empty s : lstrip s = "" ↔ blank s = true.
Proof.
  induction s as [|c s IH]; simpl; [done|].
  destruct (py_isspace c); simpl; [done|]. split; done.
Qed.

Lemma blank_app s t : blank (s ++ t) = blank s && blank t.
Proof. induction s as [|c s IH]; string_simpl; [done|]. by rewrite IH, andb_assoc. Qed.

Lemma blank_rev s : blank (String.rev s) = blank s.
Proof.
  induction s as [|c s IH]; [done|].
  rewrite rev_cons, blank_app, IH. simpl. rewrite andb_true_r. apply andb_comm.
Qed.

Lemma rev_head s c : last_char s = Some c → ∃ s', String.rev s = String c s'.
Proof.
  induction s as [|c' s IH]; [done|]. rewrite rev_cons. simpl.
  destruct s as [|c'' s].
  - intros [= ->]. by exists "".
  - intros Hc. destruct (IH Hc) as [s' ->]. string_simpl. eauto.
Qed.

Lemma strip_padded pre a post :
  blank pre = true → blank post = true → trimmed a = true → strip (pre ++ a ++ post) = a.
Proof.
  intros Hpre Hpost Ha. unfold strip, trimmed in *.
  destruct a as [|c a]; [done|].
  destruct (last_char (String c a)) as [c'|] eqn:Hlast; [|done].
  apply andb_prop in Ha as [Hc Hc']. apply negb_true_iff in Hc, Hc'.
  rewrite lstrip_blank by done. rewrite append_cons. simpl. rewrite Hc.
  rewrite <- append_cons.
  rewrite rev_append, lstrip_blank by (by rewrite blank_rev).
  destruct (rev_head _ _ Hlast) as [s' Hs']. rewrite Hs'. simpl. rewrite Hc'.
  by rewrite <- Hs', rev_rev.
Qed.

Lemma blank_lstrip s : blank (lstrip s) = blank s.
Proof.
  induction s as [|c s IH]; simpl; [done|].
  destruct (py_isspace c) eqn:Hc; simpl; [done|]. by rewrite Hc.
Qed.

Lemma strip_empty s : strip s = "" ↔ blank s = true.
Proof.
  unfold strip. split.
  - intros Hs. apply (f_equal String.rev) in Hs. rewrite rev_rev in Hs.
    change (String.rev "") with "" in Hs.
    apply lstrip_empty in Hs. by rewrite blank_rev, blank_lstrip in Hs.
  - intros Hs. apply lstrip_empty in Hs. by rewrite Hs.
Qed.

Lemma split_comma_head_app s t :
  has_comma s = false → more_entries t = true → split_comma_head (s ++ t) = s.
Proof.
  intros Hs Ht. induction s as [|c s IH]; string_simpl; simpl in *.
  - destruct t as [|c t]; [done|]. simpl in *. by rewrite Ht.
  - apply orb_false_elim in Hs as [Hc Hs]. rewrite Hc. by rewrite IH.
Qed.

Lemma has_comma_app s t : has_comma (s ++ t) = has_comma s || has_comma t.
Proof. induction s as [|c s IH]; string_simpl; [done|]. by rewrite IH, orb_assoc. Qed.

Lemma blank_no_comma s : blank s = true → has_comma s = false.
Proof.
  induction s as [|c s IH]; simpl; [done|]. intros [Hc Hs]%andb_prop.
  rewrite IH by done. rewrite orb_false_r. apply bool_decide_eq_false. by intros ->.
Qed.


Lemma local_address_split ip :
  bool_decide (ip = "") || bool_decide (ip ∈ ["127.0.0.1"; "::1"; "testclient"])
  = local_address ip.
Proof.
  unfold local_address. rewrite <- bool_decide_or. apply bool_decide_ext.
  rewrite (elem_of_cons _ ip ""). tauto.
Qed.

(** ** What the primitives leave alone *)

Section Frames.
Context (E : env).

Lemma hoare_true {A} (m : M A) (P : world → Prop) : hoare P m (λ _ _, True) (λ _, True).
Proof. intros w _. by destruct (m w) as [[?|?] ?]. Qed.

Lemma disk_attempt a D : hoare (on_disk D) (attempt E a) (λ _, on_disk D) (on_disk D).
Proof. by apply hoare_attempt. Qed.

Lemma disk_execute {A} s (f : bool → db → outcome (A * db)) D :
  hoare (on_disk D) (execute E s f) (λ _, on_disk D) (on_disk D).
Proof.
  intros [d c t n] HD. unfold execute, bind, attempt. unfold on_disk in *. simpl in *.
  destruct (fault E (Execute s)); simpl; [done|].
  destruct c as [c|]; simpl; [|done].
  by destruct (f (foreign_keys c) (c_db c)) as [[a d']|e].
Qed.

Lemma disk_get_db D : hoare (on_disk D) (get_db E) (λ _, on_disk D) (on_disk D).
Proof.
  eapply hoare_conseq; [apply hoare_get_db|done| |done]. by intros _ w [HD _].
Qed.

Lemma disk_close D R : hoare (on_disk D) close (λ _, on_disk D) R.
Proof. intros [d c t n] HD. exact HD. Qed.

Lemma disk_commit D : hoare (on_disk D) (commit E) (λ _ _, True) (on_disk D).
Proof.
  intros [d c t n] HD. unfold commit, bind, attempt. unfold on_disk in *. simpl in *.
  destruct (fault E Commit); simpl; [done|]. by destruct c.
Qed.

Lemma disk_uuid4 D : hoare (on_disk D) (uuid4 E) (λ _, on_disk D) (on_disk D).
Proof. intros w Hw. exact Hw. Qed.

Lemma disk_geolocate_ip ip D :
  hoare (on_disk D) (geolocate_ip E ip) (λ _, on_disk D) (on_disk D).
Proof. intros w Hw. unfold geolocate_ip. destruct (_ || _); exact Hw. Qed.

Lemma disk_request_dict rq D :
  hoare (on_disk D) (request_dict rq) (λ _, on_disk D) (on_disk D).
Proof.
  unfold request_dict. destruct (body rq) as [[]|]; by first [apply hoare_ret | apply hoare_raise].
Qed.

Lemma close_never_raises (P : world → Prop) (Q : world → Prop) R :
  (∀ d c t n, P (World d c t n) → Q (World d None (t ++ [Close]) n)) →
  hoare P close (λ _, Q) R.
Proof. intros HPQ [d c t n] Hw. apply (HPQ _ _ _ _ Hw). Qed.

(** A body that only reads, inside the connection scope. *)
Lemma reads_scoped_then {A B} (body : M A) (k : A → M B) D :
  hoare (on_disk D) body (λ _, on_disk D) (on_disk D) →
  (∀ a, hoare (on_disk D) (k a) (λ _, on_disk D) (on_disk D)) →
  hoare (on_disk D) (get_db E ;; r <- try_finally body close ;; k r)
    (λ _, on_disk D) (on_disk D).
Proof.
  intros Hb Hk. eapply hoare_bind; [apply disk_get_db|]. intros [].
  eapply hoare_bind; [|exact Hk].
  eapply hoare_try_finally; [exact Hb| |]; intros; apply disk_close.
Qed.

Lemma reads_scoped {A} (body : M A) D :
  hoare (on_disk D) body (λ _, on_disk D) (on_disk D) →
  hoare (on_disk D) (get_db E ;; try_finally body close) (λ _, on_disk D) (on_disk D).
Proof.
  intros Hb. eapply hoare_bind; [apply disk_get_db|]. intros [].
  eapply hoare_try_finally; [exact Hb| |]; intros; apply disk_close.
Qed.

(** A body whose last fallible step is the commit, inside the connection
    scope: if anything is raised, the file is as it was. *)
Lemma atomic_scoped_then {A B} (body : M A) (k : A → M B) D :
  hoare (on_disk D) body (λ _ _, True) (on_disk D) →
  (∀ a, hoare (λ _, True) (k a) (λ _ _, True) (λ _, False)) →
  hoare (on_disk D) (get_db E ;; r <- try_finally body close ;; k r)
    (λ _ _, True) (on_disk D).
Proof.
  intros Hb Hk. eapply hoare_bind; [apply disk_get_db|]. intros [].
  eapply hoare_bind with (Q := λ _ _, True).
  - eapply hoare_try_finally; [exact Hb| |].
    + intros a. by apply close_never_raises.
    + apply disk_close.
  - intros a. eapply hoare_raises; [apply Hk|done].
Qed.

Lemma atomic_scoped {A} (body : M A) D :
  hoare (on_disk D) body (λ _ _, True) (on_disk D) →
  hoare (on_disk D) (get_db E ;; try_finally body close) (λ _ _, True) (on_disk D).
Proof.
  intros Hb. eapply hoare_bind; [apply disk_get_db|]. intros [].
  eapply hoare_try_finally; [exact Hb| |].
  - intros a. by apply close_never_raises.
  - apply disk_close.
Qed.

Lemma atomic_write s (f : bool → db → outcome db) D :
  hoare (on_disk D) (execute E s (update f) ;; commit E) (λ _ _, True) (on_disk D).
Proof. eapply hoare_bind; [apply disk_execute|]. intros []. apply disk_commit. Qed.

(** Once [get_db] is through, the connection scope ends released. *)
Lemma get_db_acquires (P : world → Prop) :
  acquires E → hoare P (get_db E) (λ _ _, True) (λ _, False).
Proof.
  intros (Hc & Hj & Hf) [d c t n] _.
  unfold get_db, connect, execute, pragma_foreign_keys, bind, attempt, emit, query.
  rewrite Hc. simpl. rewrite Hj. simpl. rewrite Hf. simpl. done.
Qed.

Lemma released_finally {A} (body : M A) (P : world → Prop) :
  hoare P (try_finally body close) (λ _, released) released.
Proof.
  eapply hoare_try_finally; [apply hoare_true| |].
  - intros a. by apply close_never_raises.
  - by apply close_never_raises.
Qed.

Lemma released_scoped_then {A B} (body : M A) (k : A → M B) (P : world → Prop) :
  acquires E →
  (∀ a, hoare released (k a) (λ _, released) released) →
  hoare P (get_db E ;; r <- try_finally body close ;; k r) (λ _, released) released.
Proof.
  intros HE Hk. eapply hoare_bind.
  { eapply hoare_raises; [by apply get_db_acquires|done]. }
  intros []. eapply hoare_bind; [apply released_finally|exact Hk].
Qed.

Lemma released_scoped {A} (body : M A) (P : world → Prop) :
  acquires E →
  hoare P (get_db E ;; try_finally body close) (λ _, released) released.
Proof.
  intros HE. eapply hoare_bind.
  { eapply hoare_raises; [by apply get_db_acquires|done]. }
  intros []. apply released_finally.
Qed.
End Frames.

Lemma hoare_run {A} (m : M A) P Q R w :
  hoare P m Q R → P w →
  match (m w).1 with Ok a => Q a (m w).2 | Raise _ => R (m w).2 end.
Proof. intros Hm Hw. specialize (Hm w Hw). by destruct (m w) as [[a|e] w']. Qed.

Lemma hoare_run_any {A} (m : M A) P (Q : world → Prop) w :
  hoare P m (λ _, Q) Q → P w → Q (m w).2.
Proof. intros Hm Hw. specialize (Hm w Hw). by destruct (m w) as [[a|e] w']. Qed.

Lemma hoare_run_failure {A} (m : M A) P Q R w :
  hoare P m Q R → P w → is_Some (failure (m w)) → R (m w).2.
Proof.
  intros Hm Hw Hf. specialize (Hm w Hw). unfold failure in Hf.
  destruct (m w) as [[a|e] w']; simpl in *; [by destruct Hf|done].
Qed.

(** ** What the statements write *)

Lemma geolocate_ip_run E ip w :
  geolocate_ip E ip w
  = (Ok (located E ip),
     World (disk w) (conn w)
       (trace w ++ if local_address ip then [] else [HttpGet ip]) (uuid_ctr w)).
Proof.
  destruct w as [d c t n]. unfold located, geolocate_ip. rewrite local_address_split.
  destruct (local_address ip); simpl; [by rewrite app_nil_r|done].
Qed.

Lemma insert_event_rows fk now email_id link_id ty ip ua country d d' :
  insert_event fk now email_id link_id ty ip ua country d = Ok d' →
  events d' = Some (events_of d
                    ++ [EventRow (S (events_seq d)) email_id link_id ty now ip ua country])%list
  ∧ events_seq d' = S (events_seq d)
  ∧ emails d' = emails d ∧ links d' = links d ∧ ignored_ips d' = ignored_ips d.
Proof.
  unfold insert_event, events_of. destruct (events d) as [evs|]; [|done].
  destruct (if fk then _ else _); [|done]. by intros [= <-].
Qed.

Lemma insert_or_ignore_email_rows now id d d' :
  insert_or_ignore_email now id d = Ok d' →
  emails d' = Some (match emails_of d !! id with
                    | Some _ => emails_of d
                    | None => <[id := EmailRow "" "" now]> (emails_of d)
                    end)
  ∧ links d' = links d ∧ events d' = events d ∧ events_seq d' = events_seq d
  ∧ ignored_ips d' = ignored_ips d.
Proof.
  unfold insert_or_ignore_email, emails_of. destruct (emails d) as [m|] eqn:Hm; [|done].
  simpl. destruct (m !! id); intros [= <-]; simpl; by rewrite ?Hm.
Qed.

Ltac unfold_handlers :=
  unfold get_db, connect, execute, pragma_foreign_keys, executescript, commit, close,
    try_finally, bind, attempt, emit, ret, raise, lift, query, update.

(** As [walk], with the answer of the geolocation filled in. *)
Ltac stroll :=
  repeat (simpl in *; try done;
          first
            [ rewrite geolocate_ip_run
            | match goal with
              | |- context [match ?x with _ => _ end] =>
                  let y := innermost x in
                  first [ match goal with H : y = _ |- _ => rewrite H end
                        | destruct y eqn:? ]
              end ]).

Section Commits.
Local Arguments select_ignored_ip : simpl never.
Local Arguments select_link : simpl never.
Local Arguments insert_or_ignore_email : simpl never.
Local Arguments insert_event : simpl never.
Local Arguments geolocate_ip : simpl never.
Local Arguments sql_delete_email : simpl never.
Local Arguments sql_delete_ignored_ip : simpl never.
Local Arguments insert_ignored_ip_stmt : simpl never.
Local Arguments select_ignored_ips : simpl never.
Local Arguments select_email : simpl never.

(** What a successful open has committed. *)
Lemma track_open_commits E w tracking_id rq r :
  select_ignored_ip (client_ip rq) (disk w) = Ok [] →
  (track_open E tracking_id rq w).1 = Ok r →
  ∃ d1, insert_or_ignore_email (now E) tracking_id (disk w) = Ok d1
        ∧ insert_event true (now E) tracking_id None EvOpen (client_ip rq)
            (user_agent rq) (located E (client_ip rq)) d1
          = Ok (disk (track_open E tracking_id rq w).2).
Proof.
  destruct w as [d c t n]. simpl. intros Hign.
  unfold track_open, user_agent. unfold_handlers. stroll. eauto.
Qed.

Lemma track_open_succeeds E w tracking_id rq :
  select_ignored_ip (client_ip rq) (disk w) = Ok [] →
  is_Some (emails (disk w)) → is_Some (links (disk w)) → is_Some (events (disk w)) →
  (track_open (quiet E) tracking_id rq w).1 = Ok pixel_full.
Proof.
  destruct w as [d c t n]. simpl. intros Hign Hem Hlk Hev.
  destruct (insert_or_ignore_email_succeeds (now E) tracking_id d Hem)
    as (d1 & Hd1 & Hrow & Hlk1 & Hev1).
  destruct (insert_event_succeeds (now E) tracking_id None EvOpen (client_ip rq)
              (user_agent rq) (located (quiet E) (client_ip rq)) d1) as [d2 Hd2];
    [by rewrite Hev1|by rewrite Hlk1|done|done|].
  unfold track_open, user_agent in *. unfold_handlers. stroll.
Qed.

(** What a successful click on a known link has committed, when the client
    is not ignored. *)
Lemma track_click_commits E w link_id rq r link :
  links_of (disk w) !! link_id = Some link →
  select_ignored_ip (client_ip rq) (disk w) = Ok [] →
  (track_click E link_id rq w).1 = Ok r →
  r = RedirectResponse (original_url link) 302
  ∧ insert_event true (now E) (link_email_id link) (Some link_id) EvClick (client_ip rq)
      (user_agent rq) (located E (client_ip rq)) (disk w)
    = Ok (disk (track_click E link_id rq w).2).
Proof.
  destruct w as [d c t n]. simpl. intros Hlink Hign.
  assert (select_link link_id d = Ok [link]) as Hsel.
  { unfold select_link, links_of in *. destruct (links d) as [lk|]; simpl in *; [|done].
    by rewrite Hlink. }
  unfold track_click, user_agent. unfold_handlers. stroll. by intros [= <-].
Qed.

Lemma track_click_succeeds E w link_id rq link :
  links_of (disk w) !! link_id = Some link →
  select_ignored_ip (client_ip rq) (disk w) = Ok [] →
  is_Some (emails_of (disk w) !! link_email_id link) → is_Some (events (disk w)) →
  (track_click (quiet E) link_id rq w).1 = Ok (RedirectResponse (original_url link) 302).
Proof.
  destruct w as [d c t n]. simpl. intros Hlink Hign Hem Hev.
  assert (select_link link_id d = Ok [link]) as Hsel.
  { unfold select_link, links_of in *. destruct (links d) as [lk|]; simpl in *; [|done].
    by rewrite Hlink. }
  destruct (insert_event_succeeds (now E) (link_email_id link) (Some link_id) EvClick
              (client_ip rq) (user_agent rq) (located (quiet E) (client_ip rq)) d)
    as [d2 Hd2]; [done| |done|simpl; by rewrite Hlink|].
  { unfold links_of in Hlink. destruct (links d); [eauto|done]. }
  unfold track_click, user_agent in *. unfold_handlers. stroll.
Qed.

(** An ignored client: nothing is written. *)
Lemma track_open_ignored E w tracking_id rq m :
  ignored_ips (disk w) = Some m → is_Some (m !! client_ip rq) →
  disk (track_open E tracking_id rq w).2 = disk w.
Proof.
  intros Hm Hip. destruct w as [d c t n]. simpl in *.
  pose proof (select_ignored_ip_present _ _ _ Hm Hip) as Hign.
  unfold track_open. unfold_handlers. stroll.
Qed.

Lemma track_click_ignored E w link_id rq m :
  ignored_ips (disk w) = Some m → is_Some (m !! client_ip rq) →
  disk (track_click E link_id rq w).2 = disk w.
Proof.
  intros Hm Hip. destruct w as [d c t n]. simpl in *.
  pose proof (select_ignored_ip_present _ _ _ Hm Hip) as Hign.
  unfold track_click. unfold_handlers. stroll.
Qed.

Lemma get_email_not_found E w id r :
  (get_email E id w).1 = Ok (inl r) →
  r = JSONResponse (JObj [("error", JStr "Not found")]) 404
  ∧ select_email id (disk w) = Ok [].
Proof.
  destruct w as [d c t n]. unfold get_email. unfold_handlers.
  stroll; by intros [= <-].
Qed.

Lemma get_email_unknown E w id :
  is_Some (emails (disk w)) → emails_of (disk w) !! id = None →
  (get_email (quiet E) id w).1
  = Ok (inl (JSONResponse (JObj [("error", JStr "Not found")]) 404)).
Proof.
  destruct w as [d c t n]. simpl. intros [m Hm] Hid.
  assert (select_email id d = Ok []) as Hsel.
  { unfold select_email, emails_of in *. rewrite Hm in *. simpl in Hid. by rewrite Hid. }
  unfold get_email. unfold_handlers. stroll.
Qed.
End Commits.

(** ** The ignore list *)

Lemma own_machine_split ip :
  negb (bool_decide (ip = "")) && negb (bool_decide (ip ∈ ["127.0.0.1"; "::1"]))
  = negb (own_machine ip).
Proof.
  unfold own_machine. rewrite <- negb_orb, <- bool_decide_or. f_equal.
  apply bool_decide_ext. rewrite (elem_of_cons _ ip ""). tauto.
Qed.

Lemma insert_ignored_ip_stmt_rows E v l d d' :
  insert_ignored_ip_stmt E v l d = Ok d' →
  ∃ s lbl,
    bind_param E v = Ok (Some s) ∧ bind_param E l = Ok lbl
    ∧ is_Some (ignored_ips d)
    ∧ ignored_ips d' = Some (match ignored_of d !! s with
                             | Some _ => ignored_of d
                             | None => <[s := IgnoredRow lbl (now E)]> (ignored_of d)
                             end)
    ∧ emails d' = emails d ∧ links d' = links d ∧ events d' = events d
    ∧ events_seq d' = events_seq d.
Proof.
  unfold insert_ignored_ip_stmt, insert_or_ignore_ignored_ip, ignored_of.
  destruct (ignored_ips d) as [m|] eqn:Hm; [|done].
  destruct (bind_param E v) as [[s|]|]; try done;
    destruct (bind_param E l) as [lbl|]; try done.
  simpl. intros [= <-]. exists s, lbl.
  destruct (m !! s); simpl; rewrite ?Hm; eauto 10.
Qed.

Lemma sql_delete_ignored_ip_rows ip d d' :
  sql_delete_ignored_ip ip d = Ok d' →
  is_Some (ignored_ips d)
  ∧ ignored_ips d' = Some (delete ip (ignored_of d))
  ∧ emails d' = emails d ∧ links d' = links d ∧ events d' = events d
  ∧ events_seq d' = events_seq d.
Proof.
  unfold sql_delete_ignored_ip, ignored_of.
  destruct (ignored_ips d) as [m|] eqn:Hm; [|done]. intros [= <-]. simpl. eauto 10.
Qed.

Section IgnoreList.
Local Arguments sql_delete_ignored_ip : simpl never.
Local Arguments insert_ignored_ip_stmt : simpl never.
Local Arguments select_ignored_ips : simpl never.
Local Arguments client_ip : simpl never.
Local Arguments py_truthy : simpl never.

Lemma add_ignored_ip_commits E w rq v :
  (add_ignored_ip E rq w).1 = Ok v →
  ∃ kv, body rq = Some (JObj kv)
        ∧ v = address_to_ignore rq kv
        ∧ insert_ignored_ip_stmt E v (dict_get "label" (JStr "") kv) (disk w)
          = Ok (disk (add_ignored_ip E rq w).2).
Proof.
  destruct w as [d c t n]. unfold add_ignored_ip, request_dict, address_to_ignore.
  destruct (body rq) as [[| | | | | |kv]|]; try done.
  unfold_handlers. simpl.
  destruct (dict_lookup "ip" kv) as [x|] eqn:Hip; simpl; stroll; intros [= <-]; simpl;
    exists kv; rewrite ?Hip; simpl;
    repeat match goal with H : py_truthy _ = _ |- _ => rewrite H end; done.
Qed.

Lemma remove_ignored_ip_commits E w ip :
  (remove_ignored_ip E ip w).1 = Ok tt →
  sql_delete_ignored_ip ip (disk w) = Ok (disk (remove_ignored_ip E ip w).2).
Proof.
  destruct w as [d c t n]. unfold remove_ignored_ip. unfold_handlers. stroll.
Qed.

Lemma remove_ignored_ip_completes E w ip :
  is_Some (ignored_ips (disk w)) → (remove_ignored_ip (quiet E) ip w).1 = Ok tt.
Proof.
  destruct w as [d c t n]. simpl. intros [m Hm].
  assert (∃ d', sql_delete_ignored_ip ip d = Ok d') as [d' Hd'].
  { unfold sql_delete_ignored_ip. rewrite Hm. eauto. }
  unfold remove_ignored_ip. unfold_handlers. stroll.
Qed.

Lemma dashboard_commits E w rq page :
  own_machine (client_ip rq) = false →
  (dashboard E rq w).1 = Ok page →
  page = index_html E
  ∧ insert_ignored_ip_stmt E (JStr (client_ip rq)) (JStr "Auto-detected (dashboard visit)")
      (disk w)
    = Ok (disk (dashboard E rq w).2).
Proof.
  destruct w as [d c t n]. unfold dashboard. rewrite own_machine_split. intros ->.
  unfold_handlers. stroll. by intros [= <-].
Qed.

Lemma dashboard_at_home E w rq :
  own_machine (client_ip rq) = true → dashboard E rq w = (Ok (index_html E), w).
Proof.
  destruct w as [d c t n]. unfold dashboard. rewrite own_machine_split. by intros ->.
Qed.

Lemma list_ignored_ips_answer E w rows :
  (list_ignored_ips E w).1 = Ok rows → select_ignored_ips (disk w) = Ok rows.
Proof.
  destruct w as [d c t n]. unfold list_ignored_ips. unfold_handlers.
  stroll; by intros [= <-].
Qed.
End IgnoreList.

Lemma db_ext (d d' : db) :
  emails d' = emails d → links d' = links d → events d' = events d →
  events_seq d' = events_seq d → ignored_ips d' = ignored_ips d → d' = d.
Proof. destruct d, d'. simpl. by intros -> -> -> -> ->. Qed.

Lemma ignored_of_lookup d m k : ignored_ips d = Some m → ignored_of d !! k = m !! k.
Proof. unfold ignored_of. by intros ->. Qed.

Lemma added_last_total : Total added_last.
Proof. intros a b. unfold added_last. lia. Qed.

Lemma added_last_trans : Transitive added_last.
Proof. intros a b c. unfold added_last. lia. Qed.

(** ** Invariants of the store *)

Section Invariant.
Context (E : env) (I : db → Prop) (HI : statements_keep E I).

Local Abbreviation keepsI m := (hoare (opened I I) m (λ _, opened I I) (opened I I)).
Local Abbreviation safeI m := (hoare (on_disk I) m (λ _, on_disk I) (on_disk I)).

Lemma inv_query {A} s (f : db → outcome A) : keepsI (execute E s (query f)).
Proof.
  eapply hoare_conseq; [apply hoare_query|done| |done].
  intros a w [HD (c & Hc & [HJ _] & Hfk)]. split; [done|]. eauto.
Qed.

Lemma inv_update s (f : bool → db → outcome db) :
  (∀ d d', I d → f true d = Ok d' → I d') → keepsI (execute E s (update f)).
Proof. intros Hf. by apply hoare_update. Qed.

Lemma inv_commit : keepsI (commit E).
Proof. by apply hoare_commit. Qed.

Lemma inv_write s (f : bool → db → outcome db) :
  (∀ d d', I d → f true d = Ok d' → I d') →
  keepsI (execute E s (update f) ;; commit E).
Proof.
  intros Hf. eapply hoare_bind; [by apply inv_update|]. intros []. apply inv_commit.
Qed.

Lemma inv_scoped {A} (body : M A) : keepsI body → safeI (get_db E ;; try_finally body close).
Proof.
  intros Hb. eapply hoare_bind; [apply hoare_get_db|]. intros [].
  eapply hoare_try_finally; [exact Hb| |]; intros; apply hoare_close.
Qed.

Lemma inv_scoped_then {A B} (body : M A) (k : A → M B) :
  keepsI body → (∀ a, safeI (k a)) →
  safeI (get_db E ;; r <- try_finally body close ;; k r).
Proof.
  intros Hb Hk. eapply hoare_bind; [apply hoare_get_db|]. intros [].
  eapply hoare_bind; [|exact Hk].
  eapply hoare_try_finally; [exact Hb| |]; intros; apply hoare_close.
Qed.

Lemma inv_upsert_email_stmt email_id subj rcpt d d' :
  I d → upsert_email_stmt E email_id subj rcpt d = Ok d' → I d'.
Proof.
  intros Hd. unfold upsert_email_stmt. destruct (emails d); [|done].
  destruct (bind_param E email_id) as [i|]; [|done].
  destruct (bind_param E subj) as [s|]; [|done].
  destruct (bind_param E rcpt) as [r|]; [|done].
  destruct (not_null _ i) as [i'|]; [|done].
  destruct (not_null _ s) as [s'|]; [|done].
  destruct (not_null _ r) as [r'|]; [|done].
  by apply HI.
Qed.

Lemma inv_insert_link_stmt link_id email_id url d d' :
  I d → insert_link_stmt E true link_id email_id url d = Ok d' → I d'.
Proof.
  intros Hd. unfold insert_link_stmt. destruct (links d); [|done].
  destruct (bind_param E email_id) as [i|]; [|done].
  destruct (bind_param E url) as [u|]; [|done].
  destruct (not_null _ i) as [i'|]; [|done].
  destruct (not_null _ u) as [u'|]; [|done].
  by apply HI.
Qed.

Lemma inv_insert_ignored_ip_stmt ip lbl d d' :
  I d → insert_ignored_ip_stmt E ip lbl d = Ok d' → I d'.
Proof.
  intros Hd. unfold insert_ignored_ip_stmt. destruct (ignored_ips d); [|done].
  destruct (bind_param E ip) as [i|]; [|done].
  destruct (bind_param E lbl) as [l|]; [|done].
  destruct (not_null _ i) as [i'|]; [|done].
  by apply HI.
Qed.

Lemma run_call_keeps c w : I (disk w) → I (disk (run_call E c w)).
Proof.
  intros Hw. change (on_disk I (run_call E c w)).
  destruct c; simpl; try done; apply hoare_run_any with (P := on_disk I); try done.
  - (* init_db *)
    intros [d c t n] HD. unfold on_disk in *. simpl in HD.
    unfold init_db, get_db, connect, execute, pragma_foreign_keys, executescript,
      commit, close, bind, attempt, emit, query.
    assert (I (create_schema d)) by (by apply HI).
    repeat (simpl; match goal with
                   | |- context [fault E ?a] => destruct (fault E a)
                   end); simpl; done.
  - (* track_open *)
    apply inv_scoped_then; [|intros [?|]; by apply hoare_ret]. simpl.
    eapply hoare_bind; [apply inv_query|]. intros ignored.
    destruct (negb _); [by apply hoare_ret|].
    eapply hoare_bind; [apply inv_update; intros d d'; apply HI|]. intros [].
    eapply hoare_bind; [apply hoare_geolocate_ip|]. intros country.
    eapply hoare_bind; [apply inv_update; intros d d'; apply HI|]. intros [].
    eapply hoare_bind; [apply inv_commit|]. intros []. by apply hoare_ret.
  - (* track_click *)
    apply inv_scoped_then; [|intros [?|?]; by apply hoare_ret].
    eapply hoare_bind; [apply inv_query|]. intros [|link rows]; [by apply hoare_ret|].
    simpl. eapply hoare_bind; [apply inv_query|]. intros ignored.
    eapply hoare_bind with (Q := λ _, opened I I); [|intros; by apply hoare_ret].
    destruct (bool_decide _); [|by apply hoare_ret].
    eapply hoare_bind; [apply hoare_geolocate_ip|]. intros country.
    eapply hoare_bind; [apply inv_update; intros d d'; apply HI|]. intros [].
    apply inv_commit.
  - (* create_email *)
    unfold create_email. eapply hoare_bind; [apply disk_request_dict|]. intros kv.
    eapply hoare_bind with (Q := λ _, on_disk I).
    { destruct (py_truthy _); [by apply hoare_ret|].
      eapply hoare_bind; [apply disk_uuid4|]. intros hex. by apply hoare_ret. }
    intros email_id. simpl.
    apply inv_scoped_then; [|intros; by apply hoare_ret].
    eapply hoare_bind; [apply inv_update; intros d d'; apply inv_upsert_email_stmt|].
    intros []. eapply hoare_bind with (Q := λ _, opened I I).
    { eapply hoare_conseq; [apply hoare_lift|done|by intros ?? [_ ?]|done]. }
    intros urls. eapply hoare_bind with (Q := λ _, opened I I).
    { apply hoare_for_each. intros url.
      eapply hoare_bind; [apply hoare_uuid4|]. intros hex. simpl.
      eapply hoare_bind; [apply inv_update; intros d d'; apply inv_insert_link_stmt|].
      intros []. by apply hoare_ret. }
    intros mappings. eapply hoare_bind; [apply inv_commit|]. intros [].
    by apply hoare_ret.
  - (* list_emails *)
    unfold list_emails. destruct (negb _); [by apply hoare_ret|].
    apply inv_scoped. simpl.
    eapply hoare_bind; [apply inv_query|]. intros total.
    eapply hoare_bind; [apply inv_query|]. intros rows. by apply hoare_ret.
  - (* get_email *)
    apply inv_scoped.
    eapply hoare_bind; [apply inv_query|]. intros [|email rows]; [by apply hoare_ret|].
    repeat (eapply hoare_bind; [apply inv_query|]; intros ?). by apply hoare_ret.
  - (* delete_email *)
    apply inv_scoped. apply inv_write. intros d d'. apply HI.
  - (* get_stats *)
    apply inv_scoped.
    eapply hoare_bind; [apply inv_query|]. intros t.
    eapply hoare_bind; [apply inv_query|]. intros cnt.
    eapply hoare_bind with (Q := λ _, opened I I).
    { destruct (_ <? _); [|by apply hoare_ret].
      eapply hoare_bind with (Q := λ _, opened I I).
      - eapply hoare_conseq; [apply hoare_lift|done|by intros ?? [_ ?]|done].
      - intros q. by apply hoare_ret. }
    intros rate. eapply hoare_bind; [apply inv_query|]. intros act.
    by apply hoare_ret.
  - (* list_ignored_ips *)
    apply inv_scoped. apply inv_query.
  - (* add_ignored_ip *)
    unfold add_ignored_ip. eapply hoare_bind; [apply disk_request_dict|]. intros kv.
    simpl. apply inv_scoped_then; [|intros; by apply hoare_ret].
    apply inv_write. intros d d'. apply inv_insert_ignored_ip_stmt.
  - (* remove_ignored_ip *)
    apply inv_scoped. apply inv_write. intros d d'. apply HI.
  - (* dashboard *)
    unfold dashboard. simpl.
    eapply hoare_bind with (Q := λ _, on_disk I); [|intros; by apply hoare_ret].
    destruct (_ && _); [|by apply hoare_ret].
    apply inv_scoped. apply inv_write. intros d d'. apply inv_insert_ignored_ip_stmt.
Qed.
End Invariant.

Lemma reachable_keeps (I : db → Prop) d0 w :
  (∀ E, statements_keep E I) → I d0 → reachable d0 w → I (disk w).
Proof.
  intros HI Hd0 Hw. induction Hw as [|E c w _ IH]; [exact Hd0|].
  by apply run_call_keeps.
Qed.

(** ** Lists *)

Lemma StronglySorted_sublist {A} (R : relation A) l1 l2 :
  l1 `sublist_of` l2 → StronglySorted R l2 → StronglySorted R l1.
Proof.
  induction 1 as [|x l1 l2 Hl IH|x l1 l2 Hl IH]; intros Hs; [done| |].
  - apply StronglySorted_inv in Hs as [Hs Hx]. constructor; [by apply IH|].
    rewrite Forall_forall in *. intros y Hy. apply Hx. by eapply elem_of_sublist.
  - apply StronglySorted_inv in Hs as [Hs _]. by apply IH.
Qed.

Lemma length_remove_dups_le {A} `{EqDecision A} (l : list A) :
  length (remove_dups l) ≤ length l.
Proof.
  induction l as [|x l IH]; simpl; [done|]. destruct (decide_rel _ _ _); simpl; lia.
Qed.

Lemma remove_dups_nil_iff {A} `{EqDecision A} (l : list A) :
  length (remove_dups l) = 0 ↔ length l = 0.
Proof.
  split.
  - intros H%length_zero_iff_nil. destruct l as [|x l]; [done|].
    assert (x ∈ remove_dups (x :: l)) as Hx by (apply elem_of_remove_dups; by left).
    rewrite H in Hx. by apply elem_of_nil in Hx.
  - intros H%length_zero_iff_nil. by rewrite H.
Qed.

Lemma length_opens_clicks (l : list event_row) :
  length (filter is_open l) + length (filter is_click l) = length l.
Proof.
  induction l as [|e l IH]; [done|]. rewrite !filter_cons.
  destruct (decide (is_open e)) as [Ho|Ho], (decide (is_click e)) as [Hc|Hc];
    unfold is_open, is_click in *; simpl; try lia; destruct (ev_type e); done.
Qed.

Lemma sql_max_none l : sql_max l = None ↔ l = [].
Proof. by destruct l. Qed.

Lemma foldr_max_bound x l : (x ≤ foldr N.max x l)%N ∧ Forall (λ y, (y ≤ foldr N.max x l)%N) l.
Proof.
  induction l as [|y l [IH1 IH2]]; simpl; [split; [lia|done]|].
  split; [lia|]. constructor; [lia|]. eapply Forall_impl; [exact IH2|]. simpl. lia.
Qed.

Lemma foldr_max_elem x l : foldr N.max x l ∈ x :: l.
Proof.
  induction l as [|y l IH]; simpl; [by left|].
  destruct (N.max_spec y (foldr N.max x l)) as [[_ ->]|[_ ->]].
  - apply elem_of_cons in IH as [->|IH]; [by left|]. by do 2 right.
  - right. by left.
Qed.

Lemma sql_max_some l t : sql_max l = Some t → t ∈ l ∧ Forall (λ y, (y ≤ t)%N) l.
Proof.
  destruct l as [|x l]; [done|]. intros [= <-]. split; [apply foldr_max_elem|].
  destruct (foldr_max_bound x l). by constructor.
Qed.

Lemma newest_first_total : Total newest_first.
Proof. intros a b. unfold newest_first. lia. Qed.

Lemma newest_first_trans : Transitive newest_first.
Proof. intros a b c. unfold newest_first. lia. Qed.

Lemma latest_first_total : Total latest_first.
Proof. intros a b. unfold latest_first. lia. Qed.

Lemma latest_first_trans : Transitive latest_first.
Proof. intros a b c. unfold latest_first. lia. Qed.

Section Answers.
Local Arguments select_email_count : simpl never.
Local Arguments select_email_page : simpl never.

Lemma list_emails_answer E w page per_page search lst :
  (list_emails E page per_page search w).1 = Ok (Some lst) →
  page_in_bounds page per_page
  ∧ select_email_count E search (disk w) = Ok (lst_total lst)
  ∧ select_email_page E search (Z.to_nat per_page) (page_offset page per_page) (disk w)
    = Ok (lst_emails lst)
  ∧ lst_page lst = page ∧ lst_per_page lst = per_page.
Proof.
  destruct w as [d c t n]. unfold list_emails, page_in_bounds, page_offset.
  destruct (negb _) eqn:Hb; [done|].
  apply negb_false_iff in Hb. rewrite !andb_true_iff, !Z.leb_le in Hb.
  unfold_handlers. stroll; intros [= <-]; simpl; split_and!; try done; tauto.
Qed.

Lemma list_emails_out_of_bounds E w page per_page search :
  ¬ page_in_bounds page per_page → list_emails E page per_page search w = (Ok None, w).
Proof.
  intros Hb. unfold list_emails, page_in_bounds in *.
  destruct (negb _) eqn:Hn; [done|]. exfalso. apply Hb.
  apply negb_false_iff in Hn. rewrite !andb_true_iff, !Z.leb_le in Hn. tauto.
Qed.
End Answers.

(** ** The client address *)

(** X1: without a cf-connecting-ip value, the client address is the first
    entry of X-Forwarded-For, the text before the first comma, with the
    whitespace around it removed. *)
Theorem forwarded_address_is_first_entry hs cl bd pre a post more :
  str_or (headers_get "cf-connecting-ip" hs) "" = "" →
  headers_get "x-forwarded-for" hs = Some (pre ++ a ++ post ++ more) →
  blank pre = true → blank post = true → trimmed a = true → has_comma a = false →
  more_entries more = true →
  client_ip (Request hs cl bd) = a.
Proof.
  intros Hcf Hxff Hpre Hpost Ha Hcomma Hmore. unfold client_ip. simpl. rewrite Hxff. simpl.
  replace (pre ++ a ++ post ++ more) with ((pre ++ a ++ post) ++ more)
    by (by rewrite <- !string_app_assoc).
  rewrite split_comma_head_app, strip_padded; try done.
  - assert (a ≠ "") as Hne by (by intros ->).
    unfold str_or in *. destruct (headers_get "cf-connecting-ip" hs) as [s|].
    + case_bool_decide; [|done]. by rewrite bool_decide_eq_false_2.
    + by rewrite bool_decide_eq_false_2.
  - rewrite !has_comma_app, Hcomma, !blank_no_comma; done.
Qed.

Lemma forwarded_address_is_first_entry_witness :
  client_ip (Request [("x-forwarded-for", " 203.0.113.7 , 10.0.0.1")] (Some "10.0.0.1") None)
  = "203.0.113.7".
Proof.
  apply (forwarded_address_is_first_entry _ _ _ " " "203.0.113.7" " " ", 10.0.0.1");
    reflexivity.
Defined.

(** X2: the client address is empty exactly when cf-connecting-ip is
    missing or empty, the first entry of X-Forwarded-For is missing or
    blank, and there is no peer address; a blank first entry is not made up
    for by later entries. *)
Theorem client_ip_is_empty_without_any_source rq :
  client_ip rq = ""
  ↔ str_or (headers_get "cf-connecting-ip" (headers rq)) "" = ""
    ∧ blank (split_comma_head (default "" (headers_get "x-forwarded-for" (headers rq)))) = true
    ∧ default "" (client rq) = "".
Proof.
  unfold client_ip. rewrite <- strip_empty.
  generalize (strip (split_comma_head (default "" (headers_get "x-forwarded-for" (headers rq))))).
  intros s. unfold str_or.
  destruct (headers_get "cf-connecting-ip" (headers rq)) as [cf|];
    repeat case_bool_decide; intuition congruence.
Qed.

(** ** The handlers as a whole *)

(** X3: [geolocate_ip] never raises and never touches the store or the
    connection; it sends one request, and none at all for the empty address,
    the loopback addresses and "testclient"; its answer is not empty only
    when the service answered 200 with a country, and then it is the country,
    preceded by the city when there is one. *)
Theorem geolocation_is_best_effort E ip w :
  ∃ place,
    geolocate_ip E ip w
    = (Ok place,
       World (disk w) (conn w)
         (trace w ++ if local_address ip then [] else [HttpGet ip]) (uuid_ctr w))
    ∧ (place ≠ "" →
       local_address ip = false
       ∧ ∃ r, ip_api E ip = Some r ∧ geo_status r = 200 ∧ geo_country r ≠ ""
              ∧ place = if bool_decide (geo_city r = "") then geo_country r
                        else geo_city r ++ ", " ++ geo_country r).
Proof.
  destruct w as [d c t n]. unfold geolocate_ip. rewrite local_address_split.
  destruct (local_address ip).
  { eexists. split; [simpl; by rewrite app_nil_r|done]. }
  unfold bind, emit, ret. simpl. eexists. split; [reflexivity|].
  intros Hplace. split; [done|].
  destruct (ip_api E ip) as [r|]; [|done]. exists r. split; [done|].
  destruct (geo_status r =? 200) eqn:Hst; [|done]. apply Nat.eqb_eq in Hst.
  split; [done|].
  destruct (bool_decide (geo_city r = "")); simpl in *; [done|].
  destruct (bool_decide (geo_country r = "")) eqn:Hco; simpl in *.
  - apply bool_decide_eq_true in Hco. by rewrite Hco in Hplace.
  - by apply bool_decide_eq_false in Hco.
Qed.

(** X4: on a day without storage faults [init_db] succeeds on any store: the
    three tables exist afterwards, every row that was there is still
    there, the event counter and the ignore list are as they were, the
    connection is closed, and running it again changes nothing. *)
Theorem init_db_keeps_existing_rows E w :
  let w1 := (init_db (quiet E) w).2 in
  (init_db (quiet E) w).1 = Ok tt
  ∧ is_Some (emails (disk w1)) ∧ is_Some (links (disk w1)) ∧ is_Some (events (disk w1))
  ∧ emails_of (disk w1) = emails_of (disk w)
  ∧ links_of (disk w1) = links_of (disk w)
  ∧ events_of (disk w1) = events_of (disk w)
  ∧ events_seq (disk w1) = events_seq (disk w)
  ∧ ignored_ips (disk w1) = ignored_ips (disk w)
  ∧ conn w1 = None
  ∧ disk (init_db (quiet E) w1).2 = disk w1.
Proof.
  destruct w as [[em lk evs n ig] c t k]. simpl.
  unfold emails_of, links_of, events_of. simpl.
  by destruct em, lk, evs.
Qed.

(** X5: every handler that gets its connection releases it: when [get_db]
    goes through, no connection is open after the call, whether the call
    answered or raised. *)
Theorem handlers_release_the_connection E c w :
  acquires E → c ≠ InitDb → conn w = None → conn (run_call E c w) = None.
Proof.
  intros HE Hc Hw. change (released (run_call E c w)).
  destruct c; simpl; try done; apply hoare_run_any with (P := released); try done.
  - apply released_scoped_then; [done|]. intros [r|]; by apply hoare_ret.
  - apply released_scoped_then; [done|]. intros [r|r]; by apply hoare_ret.
  - unfold create_email. eapply hoare_bind with (Q := λ _, released).
    { unfold request_dict. destruct (body rq) as [[]|];
        by first [apply hoare_ret | apply hoare_raise]. }
    intros kv. eapply hoare_bind with (Q := λ _, released).
    { destruct (py_truthy _); [by apply hoare_ret|].
      eapply hoare_bind with (Q := λ _, released); [by intros ? ?|].
      intros hex. by apply hoare_ret. }
    intros email_id. simpl.
    apply released_scoped_then; [done|]. intros r. by apply hoare_ret.
  - unfold list_emails. destruct (negb _); [by apply hoare_ret|].
    by apply released_scoped.
  - by apply released_scoped.
  - by apply released_scoped.
  - by apply released_scoped.
  - by apply released_scoped.
  - unfold add_ignored_ip. eapply hoare_bind with (Q := λ _, released).
    { unfold request_dict. destruct (body rq) as [[]|];
        by first [apply hoare_ret | apply hoare_raise]. }
    intros kv. simpl.
    apply released_scoped_then; [done|]. intros r. by apply hoare_ret.
  - by apply released_scoped.
  - unfold dashboard. simpl. eapply hoare_bind with (Q := λ _, released);
      [|intros; by apply hoare_ret].
    destruct (_ && _); [by apply released_scoped|by apply hoare_ret].
Qed.

Lemma handlers_release_the_connection_witness :
  conn (run_call calm (TrackOpen "x" reader) (World empty_db None [] 0)) = None.
Proof.
  apply (handlers_release_the_connection calm (TrackOpen "x" reader)
           (World empty_db None [] 0)); [repeat split|discriminate|reflexivity].
Defined.

(** X6: [init_db] has no cleanup: when the schema script or the commit
    fails, it raises with its connection still open, and what the script
    created before a failing commit is already in the file. *)
Theorem init_db_failure_leaves_the_connection_open E w msg :
  acquires E →
  (fault E (Execute CREATE_schema) = Some msg
   → (init_db E w).1 = Raise (OperationalError msg)
     ∧ is_Some (conn (init_db E w).2)
     ∧ disk (init_db E w).2 = disk w)
  ∧ (fault E (Execute CREATE_schema) = None → fault E Commit = Some msg
     → (init_db E w).1 = Raise (OperationalError msg)
       ∧ is_Some (conn (init_db E w).2)
       ∧ disk (init_db E w).2 = create_schema (disk w)).
Proof.
  intros (Hc & Hj & Hf). destruct w as [d c t n].
  unfold init_db, get_db, connect, execute, pragma_foreign_keys, executescript, commit,
    bind, attempt, emit, raise, query.
  rewrite Hc. simpl. rewrite Hj. simpl. rewrite Hf. simpl.
  split.
  - intros ->. simpl. eauto.
  - intros -> ->. simpl. eauto.
Qed.

Lemma init_db_failure_leaves_the_connection_open_witness :
  (init_db frozen (World empty_db None [] 0)).1
  = Raise (OperationalError "attempt to write a readonly database")
  ∧ is_Some (conn (init_db frozen (World empty_db None [] 0)).2).
Proof.
  destruct (init_db_failure_leaves_the_connection_open frozen (World empty_db None [] 0)
              "attempt to write a readonly database") as [H _]; [repeat split|].
  destruct H as (H1 & H2 & _); [reflexivity|]. split; [exact H1|exact H2].
Defined.

(** X7: the listing, the detail view, the statistics, the ignore list and
    [my_ip] never change the store file, whatever they answer. *)
Theorem reading_changes_nothing E c w :
  read_only c = true → disk (run_call E c w) = disk w.
Proof.
  intros Hc. symmetry. change (at_store (disk w) (run_call E c w)).
  destruct c; try done; simpl; apply hoare_run_any with (P := at_store (disk w));
    try done.
  - unfold list_emails. destruct (negb _); [by apply hoare_ret|].
    apply reads_scoped. simpl.
    eapply hoare_bind; [apply disk_execute|]. intros total.
    eapply hoare_bind; [apply disk_execute|]. intros rows. by apply hoare_ret.
  - apply reads_scoped.
    eapply hoare_bind; [apply disk_execute|]. intros [|email rows]; [by apply hoare_ret|].
    repeat (eapply hoare_bind; [apply disk_execute|]; intros ?). by apply hoare_ret.
  - apply reads_scoped.
    eapply hoare_bind; [apply disk_execute|]. intros t.
    eapply hoare_bind; [apply disk_execute|]. intros opened.
    eapply hoare_bind with (Q := λ _, at_store (disk w)).
    { destruct (_ <? _); [|by apply hoare_ret].
      eapply hoare_bind with (Q := λ _, at_store (disk w)).
      - eapply hoare_conseq; [apply hoare_lift|done|by intros ?? [_ ?]|done].
      - intros q. by apply hoare_ret. }
    intros rate. eapply hoare_bind; [apply disk_execute|]. intros act.
    by apply hoare_ret.
  - apply reads_scoped. apply disk_execute.
Qed.

Lemma reading_changes_nothing_witness :
  disk (run_call calm GetStats three_emails) = disk three_emails.
Proof. apply (reading_changes_nothing calm GetStats three_emails). reflexivity. Defined.

(** X8: every handler writes all or nothing: when a call other than
    [init_db] raises, the store file is exactly as it was before the call. *)
Theorem failed_call_changes_nothing E c w :
  c ≠ InitDb → is_Some (call_failure E c w) → disk (run_call E c w) = disk w.
Proof.
  intros Hc Hf. symmetry. change (at_store (disk w) (run_call E c w)).
  destruct c; try done; simpl in *;
    (eapply hoare_run_failure with (P := at_store (disk w)) (Q := λ _ _, True);
     [|done|exact Hf]).
  - apply atomic_scoped_then.
    + eapply hoare_bind; [apply disk_execute|]. intros ignored.
      destruct (negb _); [by apply hoare_ret|].
      eapply hoare_bind; [apply disk_execute|]. intros [].
      eapply hoare_bind; [apply disk_geolocate_ip|]. intros country.
      eapply hoare_bind; [apply disk_execute|]. intros [].
      eapply hoare_bind; [apply disk_commit|]. intros []. by apply hoare_ret.
    + intros [r|]; by apply hoare_ret.
  - apply atomic_scoped_then.
    + eapply hoare_bind; [apply disk_execute|]. intros [|link rows]; [by apply hoare_ret|].
      simpl. eapply hoare_bind; [apply disk_execute|]. intros ignored.
      eapply hoare_bind with (Q := λ _ _, True); [|intros; by apply hoare_ret].
      destruct (bool_decide _); [|by apply hoare_ret].
      eapply hoare_bind; [apply disk_geolocate_ip|]. intros country.
      eapply hoare_bind; [apply disk_execute|]. intros []. apply disk_commit.
    + intros [r|r]; by apply hoare_ret.
  - unfold create_email. eapply hoare_bind; [apply disk_request_dict|]. intros kv.
    eapply hoare_bind with (Q := λ _, at_store (disk w)).
    { destruct (py_truthy _); [by apply hoare_ret|].
      eapply hoare_bind; [apply disk_uuid4|]. intros hex. by apply hoare_ret. }
    intros email_id. simpl.
    apply atomic_scoped_then; [|intros; by apply hoare_ret].
    eapply hoare_bind; [apply disk_execute|]. intros [].
    eapply hoare_bind with (Q := λ _, at_store (disk w)).
    { eapply hoare_conseq; [apply hoare_lift|done|by intros ?? [_ ?]|done]. }
    intros urls. eapply hoare_bind with (Q := λ _, at_store (disk w)).
    { apply hoare_for_each. intros url.
      eapply hoare_bind; [apply disk_uuid4|]. intros hex. simpl.
      eapply hoare_bind; [apply disk_execute|]. intros []. by apply hoare_ret. }
    intros mappings. eapply hoare_bind; [apply disk_commit|]. intros [].
    by apply hoare_ret.
  - unfold list_emails. destruct (negb _); [by apply hoare_ret|].
    apply atomic_scoped. simpl.
    eapply hoare_bind; [apply disk_execute|]. intros total.
    eapply hoare_bind; [apply disk_execute|]. intros rows. by apply hoare_ret.
  - apply atomic_scoped.
    eapply hoare_bind; [apply disk_execute|]. intros [|email rows]; [by apply hoare_ret|].
    repeat (eapply hoare_bind; [apply disk_execute|]; intros ?). by apply hoare_ret.
  - apply atomic_scoped. apply atomic_write.
  - apply atomic_scoped.
    eapply hoare_bind; [apply disk_execute|]. intros t.
    eapply hoare_bind; [apply disk_execute|]. intros opened.
    eapply hoare_bind with (Q := λ _, at_store (disk w)).
    { destruct (_ <? _); [|by apply hoare_ret].
      eapply hoare_bind with (Q := λ _, at_store (disk w)).
      - eapply hoare_conseq; [apply hoare_lift|done|by intros ?? [_ ?]|done].
      - intros q. by apply hoare_ret. }
    intros rate. eapply hoare_bind; [apply disk_execute|]. intros act.
    by apply hoare_ret.
  - apply atomic_scoped. eapply hoare_conseq; [apply disk_execute|done|done|done].
  - unfold add_ignored_ip. eapply hoare_bind; [apply disk_request_dict|]. intros kv.
    simpl. apply atomic_scoped_then; [|intros; by apply hoare_ret]. apply atomic_write.
  - apply atomic_scoped. apply atomic_write.
  - unfold dashboard. simpl.
    eapply hoare_bind with (Q := λ _ _, True); [|intros; by apply hoare_ret].
    destruct (_ && _); [|by apply hoare_ret].
    apply atomic_scoped. apply atomic_write.
Qed.

Lemma failed_call_changes_nothing_witness :
  disk (run_call calm (CreateEmail register_bad_links) (World provisioned None [] 0))
  = disk (World provisioned None [] 0).
Proof.
  apply (failed_call_changes_nothing calm (CreateEmail register_bad_links)
           (World provisioned None [] 0)); [discriminate|].
  exists TypeError. vm_compute. reflexivity.
Defined.

(** ** What the tracking routes record *)

(** X9: a pixel load from a client that is not ignored, when it is
    answered, has appended exactly one open event, numbered by the event
    counter, for the tracking id, with the client address, the User-Agent
    and the place; the email row is created empty when it was missing and is
    left as it was otherwise; links and the ignore list are untouched. *)
Theorem open_appends_one_event E w tracking_id rq r :
  select_ignored_ip (client_ip rq) (disk w) = Ok [] →
  (track_open E tracking_id rq w).1 = Ok r →
  let d := disk w in
  let d' := disk (track_open E tracking_id rq w).2 in
  events_of d'
  = (events_of d
     ++ [EventRow (S (events_seq d)) tracking_id None EvOpen (now E) (client_ip rq)
           (user_agent rq) (located E (client_ip rq))])%list
  ∧ events_seq d' = S (events_seq d)
  ∧ emails_of d' = match emails_of d !! tracking_id with
                   | Some _ => emails_of d
                   | None => <[tracking_id := EmailRow "" "" (now E)]> (emails_of d)
                   end
  ∧ links d' = links d
  ∧ ignored_ips d' = ignored_ips d.
Proof.
  intros Hign Hr. simpl.
  destruct (track_open_commits E w tracking_id rq r Hign Hr) as (d1 & H1 & H2).
  apply insert_or_ignore_email_rows in H1 as (Hem1 & Hlk1 & Hev1 & Hseq1 & Hig1).
  apply insert_event_rows in H2 as (Hev2 & Hseq2 & Hem2 & Hlk2 & Hig2).
  unfold events_of, emails_of in *. rewrite Hev2, Hseq2, Hem2, Hlk2, Hig2.
  rewrite Hev1, Hseq1, Hem1, Hlk1, Hig1. done.
Qed.

Lemma open_appends_one_event_witness :
  events_of (disk (track_open calm "x" reader after_registration).2)
  = [EventRow 1 "x" None EvOpen (now calm) "203.0.113.7" "Mail/1.0" "Paris, France"].
Proof.
  destruct (open_appends_one_event calm after_registration "x" reader pixel_full)
    as (H & _); [vm_compute; reflexivity|vm_compute; reflexivity|].
  etransitivity; [exact H|]. vm_compute. reflexivity.
Defined.

(** X10: a click on a known link from a client that is not ignored, when it
    is answered, is answered with the redirect and has appended exactly one
    click event for the link and the email the link belongs to; emails,
    links and the ignore list are untouched. *)
Theorem click_appends_one_event E w link_id rq r link :
  links_of (disk w) !! link_id = Some link →
  select_ignored_ip (client_ip rq) (disk w) = Ok [] →
  (track_click E link_id rq w).1 = Ok r →
  let d := disk w in
  let d' := disk (track_click E link_id rq w).2 in
  r = RedirectResponse (original_url link) 302
  ∧ events_of d'
    = (events_of d
       ++ [EventRow (S (events_seq d)) (link_email_id link) (Some link_id) EvClick (now E)
             (client_ip rq) (user_agent rq) (located E (client_ip rq))])%list
  ∧ events_seq d' = S (events_seq d)
  ∧ emails d' = emails d
  ∧ links d' = links d
  ∧ ignored_ips d' = ignored_ips d.
Proof.
  intros Hlink Hign Hr. simpl.
  destruct (track_click_commits E w link_id rq r link Hlink Hign Hr) as (-> & H2).
  apply insert_event_rows in H2 as (Hev2 & Hseq2 & Hem2 & Hlk2 & Hig2).
  unfold events_of in *. by rewrite Hev2, Hseq2, Hem2, Hlk2, Hig2.
Qed.

Lemma click_appends_one_event_witness :
  events_of (disk (track_click calm first_link reader after_registration).2)
  = [EventRow 1 "x" (Some first_link) EvClick (now calm) "203.0.113.7" "Mail/1.0"
       "Paris, France"].
Proof.
  destruct (click_appends_one_event calm after_registration first_link reader
              (RedirectResponse "https://example.org/a" 302)
              (LinkRow "x" "https://example.org/a"))
    as (_ & H & _); [vm_compute; reflexivity|vm_compute; reflexivity
                    |vm_compute; reflexivity|].
  etransitivity; [exact H|]. vm_compute. reflexivity.
Defined.

(** X11: the pixel may load before the registration: an open for an unknown
    id creates the email with empty subject and recipient, and a later
    registration under that id fills both in, keeps the creation time of
    the open and keeps the event. *)
Theorem registration_completes_an_opened_email E1 E2 w id subj rcpt rq :
  id ≠ "" →
  select_ignored_ip (client_ip rq) (disk w) = Ok [] →
  is_Some (emails (disk w)) → is_Some (links (disk w)) → is_Some (events (disk w)) →
  emails_of (disk w) !! id = None →
  let w1 := (track_open (quiet E1) id rq w).2 in
  let w2 := (create_email (quiet E2) (registration_of id subj (Some rcpt)) w1).2 in
  emails_of (disk w1) !! id = Some (EmailRow "" "" (now E1))
  ∧ emails_of (disk w2) !! id = Some (EmailRow subj rcpt (now E1))
  ∧ events_of (disk w2)
    = (events_of (disk w)
       ++ [EventRow (S (events_seq (disk w))) id None EvOpen (now E1) (client_ip rq)
             (user_agent rq) (located E1 (client_ip rq))])%list.
Proof.
  intros Hid Hign Hem Hlk Hev Hnew. simpl.
  pose proof (track_open_succeeds E1 w id rq Hign Hem Hlk Hev) as Hr.
  destruct (open_appends_one_event (quiet E1) w id rq _ Hign Hr)
    as (Hev1 & _ & Hem1 & _ & _).
  simpl in Hev1, Hem1. rewrite Hnew in Hem1.
  set (w1 := (track_open (quiet E1) id rq w).2) in *.
  assert (emails_of (disk w1) !! id = Some (EmailRow "" "" (now E1))) as Hrow.
  { rewrite Hem1. apply lookup_insert_eq. }
  split; [done|].
  assert (∃ m1, emails (disk w1) = Some m1) as [m1 Hm1].
  { unfold emails_of in Hrow. destruct (emails (disk w1)); [eauto|done]. }
  destruct (register_without_links E2 w1 id subj (Some rcpt) Hid) as (d2 & Hup & Hd2);
    [by rewrite Hm1|].
  rewrite Hd2.
  destruct (upsert_email_row (now E2) id subj rcpt (disk w1) m1 Hm1)
    as (d2' & Hup' & Hrow2 & _ & _ & Hev2 & _).
  simpl in Hup. rewrite Hup in Hup'. injection Hup' as <-.
  unfold emails_of in Hrow. rewrite Hm1 in Hrow. simpl in Hrow.
  rewrite Hrow in Hrow2. simpl in Hrow2. split; [done|].
  unfold events_of in *. by rewrite Hev2.
Qed.

Lemma registration_completes_an_opened_email_witness :
  let w1 := (track_open (quiet calm) "x" reader (World provisioned None [] 0)).2 in
  let w2 := (create_email (quiet calm)
               (registration_of "x" "Hello" (Some "bob@example.org")) w1).2 in
  emails_of (disk w2) !! "x" = Some (EmailRow "Hello" "bob@example.org" (now calm)).
Proof.
  destruct (registration_completes_an_opened_email calm calm
              (World provisioned None [] 0) "x" "Hello" "bob@example.org" reader)
    as (_ & H & _);
    [discriminate|vm_compute; reflexivity|vm_compute; eauto|vm_compute; eauto
    |vm_compute; eauto|vm_compute; reflexivity|].
  exact H.
Defined.

(** ** Unknown ids *)

(** X12: deleting an id that names no email succeeds and changes nothing. *)
Theorem deleting_an_unknown_email_changes_nothing E w id :
  is_Some (emails (disk w)) → emails_of (disk w) !! id = None →
  (delete_email (quiet E) id w).1 = Ok tt
  ∧ disk (delete_email (quiet E) id w).2 = disk w.
Proof.
  intros Hem Hid. pose proof (delete_email_completes E w id Hem) as Hok.
  split; [done|]. apply delete_email_commits in Hok.
  unfold sql_delete_email, emails_of in *. destruct Hem as [m Hm]. rewrite Hm in *.
  simpl in Hid. rewrite Hid in Hok. by injection Hok.
Qed.

Lemma deleting_an_unknown_email_changes_nothing_witness :
  (delete_email (quiet calm) "nobody" after_click_and_open).1 = Ok tt
  ∧ disk (delete_email (quiet calm) "nobody" after_click_and_open).2
    = disk after_click_and_open.
Proof.
  apply (deleting_an_unknown_email_changes_nothing calm after_click_and_open "nobody");
    [vm_compute; eauto|vm_compute; reflexivity].
Defined.

(** X13: the detail view answers 404 "Not found" exactly for the ids that
    name no email: a 404 means there is no row, a detail is the detail of
    the row stored under the id, and on a day without storage faults an
    unknown id gets the 404. *)
Theorem detail_is_404_exactly_for_unknown_ids E w id :
  (∀ r, (get_email E id w).1 = Ok (inl r) →
        r = JSONResponse (JObj [("error", JStr "Not found")]) 404
        ∧ emails_of (disk w) !! id = None)
  ∧ (∀ det, (get_email E id w).1 = Ok (inr det) →
            det_id det = id ∧ emails_of (disk w) !! id = Some (det_email det))
  ∧ (is_Some (emails (disk w)) → emails_of (disk w) !! id = None →
     (get_email (quiet E) id w).1
     = Ok (inl (JSONResponse (JObj [("error", JStr "Not found")]) 404))).
Proof.
  split_and!.
  - intros r [-> Hsel]%get_email_not_found. split; [done|].
    unfold select_email, emails_of in *. destruct (emails (disk w)) as [m|]; [|done].
    simpl. by destruct (m !! id).
  - intros det (email & rows & evs & counts & ls & Hsel & _ & _ & _ & _ & ->)%get_email_detail.
    split; [done|]. simpl.
    unfold select_email, emails_of in *. destruct (emails (disk w)) as [m|]; [|done].
    simpl. destruct (m !! id); [|done]. simpl in Hsel. by injection Hsel as ->.
  - apply get_email_unknown.
Qed.

(** ** The ignore list *)

(** X14: when [add_ignored_ip] answers, the address it answers with (the
    body's [ip], or the caller's own address when the body has none) is on
    the ignore list; entries that were there are kept as they were, so an
    address that was listed already keeps its first label and the store is
    unchanged; a new address gets the label and the current time; and from
    then on opens and clicks from that address write nothing. *)
Theorem ignoring_an_address_silences_it E w rq v :
  (add_ignored_ip E rq w).1 = Ok v →
  let w' := (add_ignored_ip E rq w).2 in
  ∃ kv s lbl,
    body rq = Some (JObj kv) ∧ v = address_to_ignore rq kv
    ∧ bind_param E v = Ok (Some s)
    ∧ bind_param E (dict_get "label" (JStr "") kv) = Ok lbl
    ∧ is_Some (ignored_of (disk w') !! s)
    ∧ (∀ k row, ignored_of (disk w) !! k = Some row →
                ignored_of (disk w') !! k = Some row)
    ∧ (is_Some (ignored_of (disk w) !! s) → disk w' = disk w)
    ∧ (ignored_of (disk w) !! s = None →
       ignored_of (disk w') = <[s := IgnoredRow lbl (now E)]> (ignored_of (disk w)))
    ∧ (∀ E' id rq', client_ip rq' = s →
         disk (track_open E' id rq' w').2 = disk w'
         ∧ disk (track_click E' id rq' w').2 = disk w').
Proof.
  intros Hv. simpl.
  destruct (add_ignored_ip_commits E w rq v Hv) as (kv & Hbody & Hval & Hins).
  destruct (insert_ignored_ip_stmt_rows _ _ _ _ _ Hins)
    as (s & lbl & Hs & Hlbl & Hig & Hig' & Hem & Hlk & Hev & Hseq).
  set (w' := (add_ignored_ip E rq w).2) in *.
  assert (ignored_of (disk w')
          = match ignored_of (disk w) !! s with
            | Some _ => ignored_of (disk w)
            | None => <[s := IgnoredRow lbl (now E)]> (ignored_of (disk w))
            end) as Hof.
  { unfold ignored_of at 1. by rewrite Hig'. }
  assert (is_Some (ignored_of (disk w') !! s)) as Hin.
  { rewrite Hof. destruct (ignored_of (disk w) !! s) eqn:Hsw; [by rewrite Hsw|].
    rewrite lookup_insert_eq. eauto. }
  exists kv, s, lbl. split_and!; try done.
  - intros k row Hk. rewrite Hof.
    destruct (ignored_of (disk w) !! s) eqn:Hsw; [done|].
    rewrite lookup_insert_ne; [done|]. intros <-. by rewrite Hsw in Hk.
  - intros [row Hrow]. apply db_ext; try done.
    rewrite Hig', Hrow. destruct Hig as [m Hm]. unfold ignored_of. by rewrite Hm.
  - intros Hnone. by rewrite Hof, Hnone.
  - intros E' id rq' Hrq'. subst s.
    split; [eapply track_open_ignored|eapply track_click_ignored];
      try exact Hig'; rewrite <- Hof; exact Hin.
Qed.

Lemma ignoring_an_address_silences_it_witness :
  let w' := (add_ignored_ip calm
               (Request [] None (Some (JObj [("ip", JStr "203.0.113.7")])))
               after_registration).2 in
  disk (track_open calm "x" reader w').2 = disk w'.
Proof.
  destruct (ignoring_an_address_silences_it calm after_registration
              (Request [] None (Some (JObj [("ip", JStr "203.0.113.7")])))
              (JStr "203.0.113.7"))
    as (kv & s & lbl & _ & _ & Hs & _ & _ & _ & _ & _ & Hquiet);
    [vm_compute; reflexivity|].
  simpl in Hs. injection Hs as <-.
  destruct (Hquiet calm "x" reader) as [H _]; [vm_compute; reflexivity|]. exact H.
Defined.

(** X15: when [remove_ignored_ip] answers, the address is off the ignore
    list and nothing else has changed: the other entries, the emails, links
    and events are as they were, the lookup of the tracking routes finds
    nothing for the address, and removing an address that was not listed
    leaves the store as it was. *)
Theorem removing_an_address_only_drops_its_entry E w ip :
  (remove_ignored_ip E ip w).1 = Ok tt →
  let w' := (remove_ignored_ip E ip w).2 in
  ignored_of (disk w') = delete ip (ignored_of (disk w))
  ∧ emails (disk w') = emails (disk w)
  ∧ links (disk w') = links (disk w)
  ∧ events (disk w') = events (disk w)
  ∧ events_seq (disk w') = events_seq (disk w)
  ∧ select_ignored_ip ip (disk w') = Ok []
  ∧ (ignored_of (disk w) !! ip = None → disk w' = disk w).
Proof.
  intros Hok. simpl. apply remove_ignored_ip_commits in Hok.
  apply sql_delete_ignored_ip_rows in Hok as ([m Hm] & Hig' & Hem & Hlk & Hev & Hseq).
  split_and!; try done.
  - unfold ignored_of at 1. by rewrite Hig'.
  - unfold select_ignored_ip. rewrite Hig'.
    rewrite bool_decide_eq_false_2; [done|]. rewrite lookup_delete_eq. by intros [? ?].
  - intros Hnone. apply db_ext; try done. rewrite Hig', Hm.
    unfold ignored_of in *. rewrite Hm in *. simpl in *. by rewrite delete_id.
Qed.

Lemma removing_an_address_only_drops_its_entry_witness :
  ignored_of (disk (remove_ignored_ip calm "203.0.113.7" reader_ignored).2) = ∅
  ∧ select_ignored_ip "203.0.113.7"
      (disk (remove_ignored_ip calm "203.0.113.7" reader_ignored).2) = Ok [].
Proof.
  destruct (removing_an_address_only_drops_its_entry calm reader_ignored "203.0.113.7")
    as (H1 & _ & _ & _ & _ & H2 & _); [vm_compute; reflexivity|].
  split; [|exact H2]. etransitivity; [exact H1|]. vm_compute. reflexivity.
Defined.

(** X16: putting an address that was not listed on the ignore list and
    taking it off again gives back the store as it was. *)
Theorem ignoring_then_removing_restores_the_store E1 E2 w rq v s :
  (add_ignored_ip E1 rq w).1 = Ok v →
  bind_param E1 v = Ok (Some s) →
  ignored_of (disk w) !! s = None →
  (remove_ignored_ip E2 s (add_ignored_ip E1 rq w).2).1 = Ok tt →
  disk (remove_ignored_ip E2 s (add_ignored_ip E1 rq w).2).2 = disk w.
Proof.
  intros Hv Hs Hnone Hok.
  destruct (add_ignored_ip_commits E1 w rq v Hv) as (kv & Hbody & Hval & Hins).
  destruct (insert_ignored_ip_stmt_rows _ _ _ _ _ Hins)
    as (s' & lbl & Hs' & Hlbl & [m Hm] & Hig1 & Hem1 & Hlk1 & Hev1 & Hseq1).
  rewrite Hs in Hs'. injection Hs' as <-. rewrite Hnone in Hig1.
  apply remove_ignored_ip_commits in Hok.
  apply sql_delete_ignored_ip_rows in Hok as (_ & Hig2 & Hem2 & Hlk2 & Hev2 & Hseq2).
  apply db_ext; try congruence.
  rewrite Hig2. unfold ignored_of at 1. rewrite Hig1. simpl.
  rewrite delete_insert_eq. unfold ignored_of in *. rewrite Hm in *. simpl in *.
  by rewrite delete_id.
Qed.

Lemma ignoring_then_removing_restores_the_store_witness :
  disk (remove_ignored_ip calm "203.0.113.7" reader_ignored).2 = disk after_registration.
Proof.
  apply (ignoring_then_removing_restores_the_store calm calm after_registration
           (Request [] None (Some (JObj [("ip", JStr "203.0.113.7")])))
           (JStr "203.0.113.7") "203.0.113.7");
    vm_compute; reflexivity.
Defined.

(** X17: the listing of the ignore list holds every entry once, the most
    recently added first. *)
Theorem ignore_list_is_listed_newest_first E w rows :
  (list_ignored_ips E w).1 = Ok rows →
  rows ≡ₚ map_to_list (ignored_of (disk w))
  ∧ NoDup rows.*1
  ∧ StronglySorted added_last rows.
Proof.
  intros Hsel%list_ignored_ips_answer. unfold select_ignored_ips, ignored_of in *.
  destruct (ignored_ips (disk w)) as [m|]; [|done]. injection Hsel as <-. simpl.
  split_and!.
  - apply merge_sort_Permutation.
  - rewrite merge_sort_Permutation. apply NoDup_fst_map_to_list.
  - apply StronglySorted_merge_sort; [apply added_last_trans|apply added_last_total].
Qed.

Lemma ignore_list_is_listed_newest_first_witness :
  ∃ rows, (list_ignored_ips calm two_ignored).1 = Ok rows
          ∧ rows.*1 = ["198.51.100.9"; "203.0.113.7"]
          ∧ StronglySorted added_last rows.
Proof.
  destruct (list_ignored_ips calm two_ignored) as [[rows|] w'] eqn:Hg;
    try (exfalso; vm_compute in Hg; discriminate).
  exists rows. split; [reflexivity|].
  destruct (ignore_list_is_listed_newest_first calm two_ignored rows) as (_ & _ & H);
    [by rewrite Hg|].
  split; [|exact H].
  vm_compute in Hg. injection Hg as <- _. reflexivity.
Defined.

(** X18: the dashboard serves index.html; a visitor from the empty address
    or a loopback address causes no storage access at all; any other
    visitor, when the page is served, is on the ignore list afterwards
    (labelled as auto-detected when the address is new, unchanged when it
    was listed), so that opens and clicks from the address write nothing
    from then on. *)
Theorem dashboard_ignores_its_visitor E w rq :
  (own_machine (client_ip rq) = true → dashboard E rq w = (Ok (index_html E), w))
  ∧ (own_machine (client_ip rq) = false →
     ∀ page, (dashboard E rq w).1 = Ok page →
       let w' := (dashboard E rq w).2 in
       page = index_html E
       ∧ ignored_of (disk w')
         = match ignored_of (disk w) !! client_ip rq with
           | Some _ => ignored_of (disk w)
           | None => <[client_ip rq
                       := IgnoredRow (Some "Auto-detected (dashboard visit)") (now E)]>
                       (ignored_of (disk w))
           end
       ∧ emails (disk w') = emails (disk w)
       ∧ links (disk w') = links (disk w)
       ∧ events (disk w') = events (disk w)
       ∧ (∀ E' id rq', client_ip rq' = client_ip rq →
            disk (track_open E' id rq' w').2 = disk w'
            ∧ disk (track_click E' id rq' w').2 = disk w')).
Proof.
  split; [apply dashboard_at_home|].
  intros Hip page Hpage. simpl.
  destruct (dashboard_commits E w rq page Hip Hpage) as (-> & Hins).
  destruct (insert_ignored_ip_stmt_rows _ _ _ _ _ Hins)
    as (s & lbl & Hs & Hlbl & Hig & Hig' & Hem & Hlk & Hev & Hseq).
  simpl in Hs, Hlbl. injection Hs as <-. injection Hlbl as <-.
  set (w' := (dashboard E rq w).2) in *.
  assert (ignored_of (disk w')
          = match ignored_of (disk w) !! client_ip rq with
            | Some _ => ignored_of (disk w)
            | None => <[client_ip rq
                        := IgnoredRow (Some "Auto-detected (dashboard visit)") (now E)]>
                        (ignored_of (disk w))
            end) as Hof.
  { unfold ignored_of at 1. by rewrite Hig'. }
  split_and!; try done.
  intros E' id rq' Hrq'.
  assert (is_Some (ignored_of (disk w') !! client_ip rq')) as Hin.
  { rewrite Hof, Hrq'. destruct (ignored_of (disk w) !! client_ip rq) eqn:Hsw;
      [by rewrite Hsw|]. rewrite lookup_insert_eq. eauto. }
  split; [eapply track_open_ignored|eapply track_click_ignored];
    try exact Hig'; rewrite <- Hof; exact Hin.
Qed.

(** ** Invariants of the store *)

Lemma sql_delete_email_seq fk id d d' :
  sql_delete_email fk id d = Ok d' →
  events_seq d' = events_seq d ∧ ignored_ips d' = ignored_ips d
  ∧ (is_Some (emails d) → is_Some (emails d'))
  ∧ (is_Some (links d) → is_Some (links d'))
  ∧ (is_Some (events d) → is_Some (events d'))
  ∧ ∃ P (HP : ∀ e, Decision (P e)), events_of d' = filter P (events_of d).
Proof.
  unfold sql_delete_email. destruct (emails d) as [m|] eqn:Hm; [|done].
  destruct (m !! id); intros [= <-].
  - destruct fk; simpl.
    + split_and!; try done.
      * intros [? ->]. simpl. eauto.
      * intros [? ->]. simpl. eauto.
      * exists (event_survives id (default ∅ (links d))), _. unfold events_of. simpl.
        by destruct (events d).
    + split_and!; try done. exists (λ _, True), _. unfold events_of. simpl.
      by rewrite filter_keeps_all by (by apply Forall_forall).
  - rewrite Hm. split_and!; try done. exists (λ _, True), _.
    by rewrite filter_keeps_all by (by apply Forall_forall).
Qed.

Lemma schema_exists_kept E : statements_keep E schema_exists.
Proof.
  unfold statements_keep, schema_exists. split_and!.
  - intros d _. simpl. eauto.
  - intros id d d' Hd (Hem & Hlk & Hev & _)%insert_or_ignore_email_rows.
    rewrite Hem, Hlk, Hev. destruct Hd as (_ & ? & ?). eauto.
  - intros ???????? Hd (Hev & _ & Hem & Hlk & _)%insert_event_rows.
    rewrite Hev, Hem, Hlk. destruct Hd as (? & ? & _). eauto.
  - intros id subj rcpt d d' ([m Hm] & Hlk & Hev) Hup.
    destruct (upsert_email_row (now E) id subj rcpt d m Hm)
      as (d2 & Hup' & Hrow & _ & Hlk' & Hev' & _).
    rewrite Hup in Hup'. injection Hup' as <-. rewrite Hlk', Hev'.
    split; [|done]. unfold emails_of in Hrow. destruct (emails d'); [eauto|done].
  - intros id email_id url d d' (Hem & Hlk & Hev). unfold insert_link.
    destruct (links d); [|done]. destruct (bool_decide _); [done|].
    destruct (emails d) eqn:Hm; [|by destruct Hem].
    destruct (bool_decide _); [|done]. intros [= <-]. simpl. rewrite Hm.
    split_and!; eauto.
  - intros id d d' (Hem & Hlk & Hev) (_ & _ & H1 & H2 & H3 & _)%sql_delete_email_seq.
    auto.
  - intros ip lbl d d' Hd. unfold insert_or_ignore_ignored_ip.
    destruct (ignored_ips d); [|done]. by destruct (_ !! ip); intros [= <-].
  - intros ip d d' Hd. unfold sql_delete_ignored_ip.
    destruct (ignored_ips d); [|done]. by intros [= <-].
Qed.

Lemma no_ignore_list_kept E : statements_keep E (λ d, ignored_ips d = None).
Proof.
  unfold statements_keep. split_and!.
  - done.
  - intros id d d' Hd (_ & _ & _ & _ & Hig)%insert_or_ignore_email_rows. congruence.
  - intros ???????? Hd (_ & _ & _ & _ & Hig)%insert_event_rows. congruence.
  - intros id subj rcpt d d' Hd Hup. unfold upsert_email in Hup.
    destruct (emails d) as [m|] eqn:Hm; [|done].
    destruct (upsert_email_row (now E) id subj rcpt d m Hm)
      as (d2 & Hup' & _ & _ & _ & _ & Hig).
    unfold upsert_email in Hup'. rewrite Hm in Hup'. congruence.
  - intros id email_id url d d' Hd. unfold insert_link.
    destruct (links d); [|done]. destruct (bool_decide _); [done|].
    destruct (emails d); [|done].
    destruct (bool_decide _); [|done]. by intros [= <-].
  - intros id d d' Hd (_ & Hig & _)%sql_delete_email_seq. congruence.
  - intros ip lbl d d' Hd. unfold insert_or_ignore_ignored_ip. by rewrite Hd.
  - intros ip d d' Hd. unfold sql_delete_ignored_ip. by rewrite Hd.
Qed.

Lemma Forall_filter_keeps {A} (Q P : A → Prop) `{∀ x, Decision (P x)} l :
  Forall Q l → Forall Q (filter P l).
Proof.
  rewrite !Forall_forall. intros Hl x [_ Hx]%list_elem_of_filter. by apply Hl.
Qed.

Lemma StronglySorted_filter {A} (R : relation A) (P : A → Prop) `{∀ x, Decision (P x)} l :
  StronglySorted R l → StronglySorted R (filter P l).
Proof.
  induction 1 as [|x l Hl IH Hx]; [constructor|]. rewrite filter_cons.
  destruct (decide (P x)); [|done]. constructor; [done|].
  by apply Forall_filter_keeps.
Qed.

Lemma ids_in_order_ext d d' :
  events d' = events d → events_seq d' = events_seq d → ids_in_order d → ids_in_order d'.
Proof. unfold ids_in_order, events_of. by intros -> ->. Qed.

Lemma ids_in_order_kept E : statements_keep E ids_in_order.
Proof.
  unfold statements_keep. split_and!.
  - intros d. unfold ids_in_order, events_of. simpl. by destruct (events d).
  - intros id d d' Hd (_ & _ & Hev & Hseq & _)%insert_or_ignore_email_rows.
    by apply (ids_in_order_ext d).
  - intros ???????? [Hle Hsorted] (Hev & Hseq & _)%insert_event_rows.
    unfold ids_in_order, events_of at 1 2. rewrite Hev, Hseq. simpl. split.
    + apply Forall_app. split.
      * eapply Forall_impl; [exact Hle|]. simpl. lia.
      * by apply Forall_singleton.
    + apply StronglySorted_app. split_and!.
      * intros x1 x2 Hx1 ->%list_elem_of_singleton.
        rewrite Forall_forall in Hle. specialize (Hle x1 Hx1). simpl. lia.
      * done.
      * repeat constructor.
  - intros id subj rcpt d d' Hd Hup. unfold upsert_email in Hup.
    destruct (emails d) as [m|] eqn:Hm; [|done].
    destruct (upsert_email_row (now E) id subj rcpt d m Hm)
      as (d2 & Hup' & _ & _ & _ & Hev & _).
    unfold upsert_email in Hup'. rewrite Hm in Hup'.
    assert (d2 = d') as -> by congruence. revert Hd. apply ids_in_order_ext; [done|].
    clear Hup'. by destruct (m !! id); [destruct (_ || _)|]; injection Hup as <-.
  - intros id email_id url d d' Hd. unfold insert_link.
    destruct (links d); [|done]. destruct (bool_decide _); [done|].
    destruct (emails d); [|done].
    destruct (bool_decide _); [|done]. by intros [= <-].
  - intros id d d' [Hle Hsorted] (Hseq & _ & _ & _ & _ & P & HP & Hev)%sql_delete_email_seq.
    unfold ids_in_order. rewrite Hev, Hseq. split.
    + by apply Forall_filter_keeps.
    + by apply StronglySorted_filter.
  - intros ip lbl d d' Hd. unfold insert_or_ignore_ignored_ip.
    destruct (ignored_ips d); [|done]. by destruct (_ !! ip); intros [= <-].
  - intros ip d d' Hd. unfold sql_delete_ignored_ip.
    destruct (ignored_ips d); [|done]. by intros [= <-].
Qed.

Section Missing.
Local Arguments select_ignored_ip : simpl never.
Local Arguments select_ignored_ips : simpl never.
Local Arguments insert_ignored_ip_stmt : simpl never.
Local Arguments client_ip : simpl never.

Lemma track_open_without_ignore_list E w tracking_id rq :
  ignored_ips (disk w) = None →
  (track_open (quiet E) tracking_id rq w).1
  = Raise (OperationalError "no such table: ignored_ips").
Proof.
  destruct w as [d c t n]. simpl. intros Hig.
  assert (select_ignored_ip (client_ip rq) d
          = Raise (OperationalError "no such table: ignored_ips")) as Hsel.
  { unfold select_ignored_ip. by rewrite Hig. }
  unfold track_open. unfold_handlers. stroll.
Qed.

Lemma list_ignored_ips_without_ignore_list E w :
  ignored_ips (disk w) = None →
  (list_ignored_ips (quiet E) w).1
  = Raise (OperationalError "no such table: ignored_ips").
Proof.
  destruct w as [d c t n]. simpl. intros Hig.
  assert (select_ignored_ips d
          = Raise (OperationalError "no such table: ignored_ips")) as Hsel.
  { unfold select_ignored_ips. by rewrite Hig. }
  unfold list_ignored_ips. unfold_handlers. stroll.
Qed.

Lemma dashboard_without_ignore_list E w rq :
  ignored_ips (disk w) = None → own_machine (client_ip rq) = false →
  (dashboard (quiet E) rq w).1
  = Raise (OperationalError "no such table: ignored_ips").
Proof.
  destruct w as [d c t n]. simpl. intros Hig Hip.
  assert (∀ v l, insert_ignored_ip_stmt (quiet E) v l d
                 = Raise (OperationalError "no such table: ignored_ips")) as Hins.
  { intros v l. unfold insert_ignored_ip_stmt. by rewrite Hig. }
  unfold dashboard. rewrite own_machine_split, Hip. unfold_handlers. simpl.
  by rewrite Hins.
Qed.
End Missing.

(** X19: no handler creates the ignore list: on a store without the
    [ignored_ips] table, and so on the store [init_db] makes from a new
    file, the table is missing after any sequence of calls, and at every
    such moment a pixel load, a listing of the ignore list and a dashboard
    visit from an address other than the visitor's own machine fail with
    "no such table: ignored_ips", also on a day without storage faults. *)
Theorem ignore_list_is_never_created d0 w :
  ignored_ips d0 = None → reachable d0 w →
  ignored_ips (disk w) = None
  ∧ (∀ E tracking_id rq,
       (track_open (quiet E) tracking_id rq w).1
       = Raise (OperationalError "no such table: ignored_ips"))
  ∧ (∀ E, (list_ignored_ips (quiet E) w).1
          = Raise (OperationalError "no such table: ignored_ips"))
  ∧ (∀ E rq, own_machine (client_ip rq) = false →
       (dashboard (quiet E) rq w).1
       = Raise (OperationalError "no such table: ignored_ips")).
Proof.
  intros Hd0 Hw.
  assert (ignored_ips (disk w) = None) as Hig.
  { by apply (reachable_keeps (λ d, ignored_ips d = None) d0 w no_ignore_list_kept). }
  split_and!; [done| | |].
  - intros. by apply track_open_without_ignore_list.
  - intros. by apply list_ignored_ips_without_ignore_list.
  - intros. by apply dashboard_without_ignore_list.
Qed.

Lemma ignore_list_is_never_created_witness :
  ignored_ips
    (disk (run_call calm (CreateEmail register_x)
             (run_call calm InitDb (World empty_db None [] 0)))) = None.
Proof.
  destruct (ignore_list_is_never_created empty_db
              (run_call calm (CreateEmail register_x)
                 (run_call calm InitDb (World empty_db None [] 0)))) as (H & _);
    [reflexivity|repeat apply reachable_step; apply reachable_start|exact H].
Defined.

(** X20: no handler drops a table: once [emails], [links] and [events]
    exist they exist after every call, whatever the call did. *)
Theorem tables_are_never_dropped d0 w :
  schema_exists d0 → reachable d0 w → schema_exists (disk w).
Proof. apply reachable_keeps. apply schema_exists_kept. Qed.

Lemma tables_are_never_dropped_witness : schema_exists (disk after_click_and_open).
Proof.
  apply (tables_are_never_dropped provisioned after_click_and_open).
  - unfold schema_exists. simpl. split_and!; eauto.
  - unfold after_click_and_open. repeat apply reachable_step. apply reachable_start.
Defined.

(** X21: event ids are never reused: on a store whose event ids are below
    the counter and grow along the log, they still are after any sequence
    of calls, deletions included; so no two events share an id, and no call
    ever lowers the counter. *)
Theorem event_ids_are_never_reused d0 w :
  ids_in_order d0 → reachable d0 w →
  ids_in_order (disk w)
  ∧ NoDup (ev_id <$> events_of (disk w))
  ∧ ∀ E c, events_seq (disk w) ≤ events_seq (disk (run_call E c w)).
Proof.
  intros Hd0 Hw.
  assert (ids_in_order (disk w)) as Hids.
  { by apply (reachable_keeps ids_in_order d0 w ids_in_order_kept). }
  split_and!; [done| |].
  - destruct Hids as [_ Hsorted]. induction Hsorted as [|e l Hl IH He]; [constructor|].
    rewrite fmap_cons. constructor; [|done].
    intros (e' & Heq & He')%list_elem_of_fmap. rewrite Forall_forall in He.
    specialize (He e' He'). lia.
  - intros E c.
    apply (run_call_keeps E (λ d, events_seq (disk w) ≤ events_seq d)); [|done].
    unfold statements_keep. split_and!.
    + done.
    + intros id d d' Hd (_ & _ & _ & Hseq & _)%insert_or_ignore_email_rows. lia.
    + intros ???????? Hd (_ & Hseq & _)%insert_event_rows. lia.
    + intros id subj rcpt d d' Hd Hup. unfold upsert_email in Hup.
      destruct (emails d) as [m|]; [|done].
      by destruct (m !! id); [destruct (_ || _)|]; injection Hup as <-.
    + intros id email_id url d d' Hd. unfold insert_link.
      destruct (links d); [|done]. destruct (bool_decide _); [done|].
      destruct (emails d); [|done].
      destruct (bool_decide _); [|done]. by intros [= <-].
    + intros id d d' Hd (Hseq & _)%sql_delete_email_seq. lia.
    + intros ip lbl d d' Hd. unfold insert_or_ignore_ignored_ip.
      destruct (ignored_ips d); [|done]. by destruct (_ !! ip); intros [= <-].
    + intros ip d d' Hd. unfold sql_delete_ignored_ip.
      destruct (ignored_ips d); [|done]. by intros [= <-].
Qed.

Lemma event_ids_are_never_reused_witness :
  NoDup (ev_id <$> events_of (disk after_click_and_open)).
Proof.
  destruct (event_ids_are_never_reused provisioned after_click_and_open) as (_ & H & _).
  - split; [apply Forall_nil_2|constructor].
  - unfold after_click_and_open. repeat apply reachable_step. apply reachable_start.
  - exact H.
Defined.

(** ** Registration of links *)

Lemma hoare_pure {A} (φ : Prop) (m : M A) Q R :
  (φ → hoare (λ _, True) m Q R) → hoare (λ _, φ) m Q R.
Proof. intros Hm w Hφ. by apply Hm. Qed.

Lemma insert_link_stmt_registers E acc id email_id url d d' :
  links_registered E email_id acc d →
  insert_link_stmt E true id email_id url d = Ok d' →
  links_registered E email_id (acc ++ [(url, "/c/" ++ id)]) d'.
Proof.
  intros [Hacc Hdup]. unfold insert_link_stmt, insert_link.
  destruct (links d) as [lk|] eqn:Hlk; [|done].
  destruct (bind_param E email_id) as [[eid|]|] eqn:Heid; try done;
    destruct (bind_param E url) as [[u|]|] eqn:Hu; try done.
  simpl. destruct (bool_decide (is_Some (lk !! id))) eqn:Hnew; [done|].
  apply bool_decide_eq_false in Hnew. rewrite <- eq_None_not_Some in Hnew.
  destruct (emails d); [|done]. destruct (bool_decide _); [|done]. intros [= <-].
  assert (∀ p, p ∈ acc → p.2 ≠ "/c/" ++ id) as Hfresh.
  { intros p Hp Heq. rewrite Forall_forall in Hacc.
    destruct (Hacc p Hp) as (id0 & eid0 & url0 & H2 & _ & _ & Hrow).
    rewrite Heq in H2. apply (inj (String.append "/c/")) in H2 as <-.
    unfold links_of in Hrow. rewrite Hlk in Hrow. simpl in Hrow. congruence. }
  split.
  - apply Forall_app. split.
    + rewrite Forall_forall in *. intros p Hp.
      destruct (Hacc p Hp) as (id0 & eid0 & url0 & H2 & H3 & H4 & Hrow).
      exists id0, eid0, url0. split_and!; try done.
      unfold links_of in *. rewrite Hlk in Hrow. simpl in *.
      rewrite lookup_insert_ne; [done|]. intros <-. congruence.
    + apply Forall_singleton. exists id, eid, u. split_and!; try done.
      unfold links_of. simpl. apply lookup_insert_eq.
  - rewrite fmap_app. apply NoDup_app. split_and!; [done| |apply NoDup_singleton].
    intros t Ht ->%list_elem_of_singleton.
    apply list_elem_of_fmap in Ht as (p & Hp2 & Hp). by apply (Hfresh p Hp).
Qed.

Lemma for_each_links E D email_id urls acc :
  hoare (opened D (links_registered E email_id acc))
    (for_each urls (λ url,
       hex <- uuid4 E ;;
       execute E INSERT_link
         (update (λ fk, insert_link_stmt E fk (str_take 10 hex) email_id url)) ;;
       ret (url, "/c/" ++ str_take 10 hex)))
    (λ ys w, opened D (links_registered E email_id (acc ++ ys)) w ∧ ys.*1 = urls)
    (opened D (λ _, True)).
Proof.
  revert acc. induction urls as [|url urls IH]; intros acc; simpl.
  - apply hoare_ret. intros w Hw. by rewrite app_nil_r.
  - eapply hoare_bind
      with (Q := λ y w, opened D (links_registered E email_id (acc ++ [y])) w ∧ y.1 = url).
    + eapply hoare_bind with (Q := λ _, opened D (links_registered E email_id acc)).
      { eapply hoare_raises; [apply hoare_uuid4|]. by apply opened_weaken. }
      intros hex.
      eapply hoare_bind
        with (Q := λ _, opened D (links_registered E email_id
                                    (acc ++ [(url, "/c/" ++ str_take 10 hex)]))).
      { eapply hoare_raises; [apply hoare_update with
          (J' := links_registered E email_id (acc ++ [(url, "/c/" ++ str_take 10 hex)]))|].
        - intros d d'. apply insert_link_stmt_registers.
        - by apply opened_weaken. }
      intros []. by apply hoare_ret.
    + intros y.
      eapply hoare_conseq
        with (P' := λ w, opened D (links_registered E email_id (acc ++ [y])) w ∧ y.1 = url);
        [|done|intros a w' Ha; exact Ha|intros w' Hw'; exact Hw'].
      apply hoare_assume. intros Hy.
      eapply hoare_bind; [apply (IH (acc ++ [y])%list)|]. intros ys.
      apply hoare_ret. intros w [Hw Hys]. rewrite <- app_assoc in Hw. simpl in Hw.
      split; [done|]. rewrite fmap_cons. by rewrite Hy, Hys.
Qed.

Lemma create_email_links E rq :
  hoare (λ _, True) (create_email E rq)
    (λ reg w, ∃ kv, body rq = Some (JObj kv)
                    ∧ py_iter (dict_get "links" (JArr []) kv) = Ok (reg_links reg).*1
                    ∧ links_registered E (reg_email_id reg) (reg_links reg) (disk w))
    (λ _, True).
Proof.
  unfold create_email.
  eapply hoare_bind with (Q := λ kv _, body rq = Some (JObj kv)).
  { unfold request_dict. destruct (body rq) as [[]|];
      by first [apply hoare_ret | apply hoare_raise]. }
  intros kv. apply hoare_pure. intros Hbody.
  eapply hoare_bind with (Q := λ _ _, True); [apply hoare_true|]. intros email_id. simpl.
  set (J := links_registered E email_id).
  eapply hoare_bind; [apply (hoare_get_db E (λ _, True))|]. intros [].
  eapply hoare_bind
    with (Q := λ lm, on_disk (λ d, py_iter (dict_get "links" (JArr []) kv) = Ok lm.*1
                                   ∧ J lm d)).
  2:{ intros lm. apply hoare_ret. intros w Hw. exists kv. split; [done|]. exact Hw. }
  eapply hoare_try_finally
    with (Q := λ lm, opened (λ d, py_iter (dict_get "links" (JArr []) kv) = Ok lm.*1
                                  ∧ J lm d) (λ _, True))
         (R := opened (λ _, True) (λ _, True));
    [|intros; apply hoare_close|].
  2:{ eapply hoare_conseq;
        [apply (hoare_close (λ _, True) (λ _, True) (λ _, True))|done|done|done]. }
  eapply hoare_bind with (Q := λ _, opened (λ _, True) (J [])).
  { eapply hoare_raises; [apply hoare_update with (J' := J [])|done].
    intros d d' _ _. split; [apply Forall_nil_2|constructor]. }
  intros [].
  eapply hoare_bind
    with (Q := λ urls w, opened (λ _, True) (J []) w
                         ∧ py_iter (dict_get "links" (JArr []) kv) = Ok urls).
  { eapply hoare_conseq; [apply hoare_lift|done| |by apply opened_weaken].
    by intros a w [? ?]. }
  intros urls.
  eapply hoare_conseq
    with (P' := λ w, opened (λ _, True) (J []) w
                     ∧ py_iter (dict_get "links" (JArr []) kv) = Ok urls);
    [|done|intros a w' Ha; exact Ha|intros w' Hw'; exact Hw'].
  apply hoare_assume. intros Hurls.
  eapply hoare_bind; [apply (for_each_links E (λ _, True) email_id urls [])|].
  intros lm. simpl.
  eapply hoare_conseq
    with (P' := λ w, opened (λ _, True) (J lm) w ∧ lm.*1 = urls);
    [|done|intros a w' Ha; exact Ha|intros w' Hw'; exact Hw'].
  apply hoare_assume. intros Hlm.
  eapply hoare_bind with (Q := λ _, opened (J lm) (J lm)).
  { eapply hoare_raises; [apply hoare_commit_publishes|]. by apply opened_weaken. }
  intros []. apply hoare_ret. intros w [Hd (c & Hc & _ & Hfk)].
  split; [by rewrite Hlm|]. eauto.
Qed.

(** X22: when a registration answers, the URLs it was given (the elements of
    [links] as Python iterates over them) come back in order, each with a
    tracked URL "/c/<link id>"; the tracked URLs are pairwise distinct, each
    names a stored link of the registered email holding the submitted URL,
    and a click on it, when answered, redirects to that URL. *)
Theorem registered_links_redirect E w rq reg :
  (create_email E rq w).1 = Ok reg →
  let w' := (create_email E rq w).2 in
  ∃ kv, body rq = Some (JObj kv)
        ∧ py_iter (dict_get "links" (JArr []) kv) = Ok (reg_links reg).*1
        ∧ NoDup (reg_links reg).*2
        ∧ Forall (link_registered E (disk w') (reg_email_id reg)) (reg_links reg)
        ∧ ∀ p id url, p ∈ reg_links reg → p.2 = "/c/" ++ id →
            bind_param E p.1 = Ok (Some url) →
            ∀ E' rq' r, (track_click E' id rq' w').1 = Ok r →
                        r = RedirectResponse url 302.
Proof.
  intros Hreg. simpl.
  pose proof (hoare_run _ _ _ _ w (create_email_links E rq) I) as H.
  rewrite Hreg in H. destruct H as (kv & Hbody & Hiter & Hall & Hdup).
  exists kv. split_and!; try done.
  intros p id url Hp Hid Hurl E' rq' r Hr.
  rewrite Forall_forall in Hall.
  destruct (Hall p Hp) as (id0 & eid & url0 & H2 & _ & H4 & Hrow).
  rewrite Hid in H2. apply (inj (String.append "/c/")) in H2 as <-.
  assert (url0 = url) as -> by congruence.
  unfold links_of in Hrow.
  destruct (links (disk (create_email E rq w).2)) as [lk|] eqn:Hlk; [|done].
  by apply (track_click_redirect E' _ id rq' r lk (LinkRow eid url) Hlk Hrow).
Qed.

Lemma registered_links_redirect_witness :
  let w' := (create_email calm register_two_links (World provisioned None [] 0)).2 in
  (track_click calm "0f1e2d3c4b" reader w').1
  = Ok (RedirectResponse "https://example.org/b" 302).
Proof.
  destruct (registered_links_redirect calm (World provisioned None [] 0)
              register_two_links
              (Registration (JStr "x") "/t/x.png"
                 [(JStr "https://example.org/a", "/c/a1b2c3d4e5");
                  (JStr "https://example.org/b", "/c/0f1e2d3c4b")]))
    as (kv & _ & _ & _ & _ & H); [vm_compute; reflexivity|].
  simpl.
  destruct (track_click calm "0f1e2d3c4b" reader
              (create_email calm register_two_links (World provisioned None [] 0)).2)
    as [[r|e] w''] eqn:Hc; [|exfalso; vm_compute in Hc; discriminate].
  simpl. f_equal.
  apply (H (JStr "https://example.org/b", "/c/0f1e2d3c4b") "0f1e2d3c4b"
           "https://example.org/b" (list_elem_of_further _ _ _ (list_elem_of_here _ _))
           eq_refl eq_refl calm reader r).
  by rewrite Hc.
Defined.

Section Nulls.
Local Arguments upsert_email_stmt : simpl never.
Local Arguments dict_get : simpl never.
Local Arguments py_iter : simpl never.

(** X23: the defaults of a registration apply to missing keys only: a body
    whose [subject] is null is refused with the NOT NULL error of the
    [emails] table, and nothing is stored. *)
Theorem null_subject_is_rejected E w hs cl kv s :
  dict_lookup "emailId" kv = Some (JStr s) → s ≠ "" →
  dict_lookup "subject" kv = Some JNull →
  is_Some (emails (disk w)) →
  (∃ r, bind_param E (dict_get "recipient" (JStr "") kv) = Ok r) →
  let r := create_email (quiet E) (Request hs cl (Some (JObj kv))) w in
  r.1 = Raise (IntegrityError "NOT NULL constraint failed: emails.subject")
  ∧ disk r.2 = disk w
  ∧ conn r.2 = None.
Proof.
  intros Hid Hs Hsubj [m Hm] [r Hr]. destruct w as [d c t n]. simpl in *.
  assert (upsert_email_stmt (quiet E) (JStr s) (dict_get "subject" (JStr "") kv)
            (dict_get "recipient" (JStr "") kv) d
          = Raise (IntegrityError "NOT NULL constraint failed: emails.subject")) as Hup.
  { unfold upsert_email_stmt. rewrite Hm. unfold dict_get at 1. rewrite Hsubj. simpl.
    change (bind_param (quiet E)) with (bind_param E). rewrite Hr. by destruct r. }
  unfold create_email, request_dict. unfold_handlers. simpl. rewrite Hid. simpl.
  rewrite (bool_decide_eq_false_2 _ Hs). simpl. by rewrite Hup.
Qed.
End Nulls.

Lemma null_subject_is_rejected_witness :
  (create_email (quiet calm)
     (Request [] None (Some (JObj [("emailId", JStr "x"); ("subject", JNull)])))
     (World provisioned None [] 0)).1
  = Raise (IntegrityError "NOT NULL constraint failed: emails.subject").
Proof.
  destruct (null_subject_is_rejected calm (World provisioned None [] 0) [] None
              [("emailId", JStr "x"); ("subject", JNull)] "x") as (H & _);
    [reflexivity|discriminate|reflexivity|simpl; eauto|simpl; eauto|exact H].
Defined.

(** ** The listing *)

(** X24: a listing that is answered is one page of the matching emails:
    [page] and [per_page] are within their bounds (outside them the handler
    does not run), [total] counts every matching email whatever the page,
    the page holds [per_page] rows or what is left after the pages before
    it, no email comes twice, and newer emails come first. *)
Theorem listing_is_one_page E w page per_page search lst :
  (list_emails E page per_page search w).1 = Ok (Some lst) →
  page_in_bounds page per_page
  ∧ lst_page lst = page ∧ lst_per_page lst = per_page
  ∧ lst_total lst
    = length (filter (matches E search) (map_to_list (emails_of (disk w))))
  ∧ (search = "" → lst_total lst = size (emails_of (disk w)))
  ∧ length (lst_emails lst)
    = Z.to_nat per_page `min` (lst_total lst - page_offset page per_page)
  ∧ NoDup (sum_id <$> lst_emails lst)
  ∧ StronglySorted newest_first (lst_emails lst)
  ∧ ∀ page' per_page',
      ¬ page_in_bounds page' per_page' →
      list_emails E page' per_page' search w = (Ok None, w).
Proof.
  intros (Hb & Hcount & Hpage & Hp & Hpp)%list_emails_answer.
  unfold select_email_count, select_email_page, emails_of in *.
  destruct (emails (disk w)) as [m|]; [|done]. destruct (events (disk w)) as [evs|]; [|done].
  injection Hcount as Hcount. injection Hpage as Hpage. simpl.
  split_and!; try done.
  - intros ->. rewrite <- Hcount. rewrite filter_keeps_all; [apply length_map_to_list|].
    apply Forall_forall. intros kv _. by left.
  - rewrite <- Hpage, length_take, length_drop.
    rewrite (Permutation_length (merge_sort_Permutation _ _)), length_fmap.
    by rewrite Hcount.
  - rewrite <- Hpage.
    eapply sublist_NoDup;
      [|apply fmap_sublist; etransitivity; [apply sublist_take|apply sublist_drop]].
    rewrite merge_sort_Permutation, <- list_fmap_compose.
    eapply sublist_NoDup; [apply (NoDup_fst_map_to_list m)|].
    apply (fmap_sublist fst). apply sublist_filter.
  - rewrite <- Hpage.
    eapply StronglySorted_sublist;
      [etransitivity; [apply sublist_take|apply sublist_drop]|].
    apply StronglySorted_merge_sort; [apply newest_first_trans|apply newest_first_total].
  - intros. by apply list_emails_out_of_bounds.
Qed.

Lemma listing_is_one_page_witness :
  ∃ lst, (list_emails calm 2 2 "" three_emails).1 = Ok (Some lst)
         ∧ lst_total lst = 3 ∧ length (lst_emails lst) = 1.
Proof.
  destruct (list_emails calm 2 2 "" three_emails) as [[[lst|]|] w'] eqn:Hl;
    try (exfalso; vm_compute in Hl; discriminate).
  exists lst. split; [reflexivity|].
  destruct (listing_is_one_page calm three_emails 2 2 "" lst)
    as (_ & _ & _ & _ & Htotal & Hlen & _); [by rewrite Hl|].
  assert (lst_total lst = 3) as H3.
  { rewrite Htotal by reflexivity. vm_compute. reflexivity. }
  split; [exact H3|]. rewrite Hlen, H3. reflexivity.
Defined.

(** X25: every row of a listing is the summary of a stored email that
    matches the search: it carries the email's subject, recipient and
    creation time; its open and click counts add up to the number of events
    of the email; and [last_opened] is null exactly when the email has no
    open, and otherwise is the time of the latest one. *)
Theorem listing_rows_summarise_stored_emails E w page per_page search lst :
  (list_emails E page per_page search w).1 = Ok (Some lst) →
  Forall (λ row,
            ∃ email,
              emails_of (disk w) !! sum_id row = Some email
              ∧ matches E search (sum_id row, email)
              ∧ sum_subject row = subject email
              ∧ sum_recipient row = recipient email
              ∧ sum_created_at row = created_at email
              ∧ open_count row + click_count row
                = length (events_for (sum_id row) (disk w))
              ∧ open_count row = length (open_times (sum_id row) (disk w))
              ∧ (last_opened row = None ↔ open_count row = 0)
              ∧ ∀ t, last_opened row = Some t →
                     t ∈ open_times (sum_id row) (disk w)
                     ∧ Forall (λ t', (t' ≤ t)%N) (open_times (sum_id row) (disk w)))
         (lst_emails lst).
Proof.
  intros (_ & _ & Hpage & _)%list_emails_answer.
  unfold select_email_page, emails_of, open_times, events_for, events_of in *.
  destruct (emails (disk w)) as [m|]; [|done]. destruct (events (disk w)) as [evs|]; [|done].
  injection Hpage as Hpage. simpl. rewrite <- Hpage.
  apply Forall_forall. intros row Hrow.
  apply subseteq_take, subseteq_drop in Hrow. rewrite merge_sort_Permutation in Hrow.
  apply list_elem_of_fmap in Hrow as ([k r] & -> & [Hmatch Hkr]%list_elem_of_filter).
  apply elem_of_map_to_list in Hkr. exists r. simpl.
  split_and!; try done.
  - apply length_opens_clicks.
  - by rewrite length_fmap.
  - rewrite sql_max_none. split.
    + intros H%fmap_nil_inv. by rewrite H.
    + intros H%length_zero_iff_nil. by rewrite H.
  - apply sql_max_some.
Qed.

Lemma listing_rows_summarise_stored_emails_witness :
  ∃ lst, (list_emails calm 1 50 "" three_emails).1 = Ok (Some lst)
         ∧ Forall (λ row, is_Some (emails_of (disk three_emails) !! sum_id row))
             (lst_emails lst).
Proof.
  destruct (list_emails calm 1 50 "" three_emails) as [[[lst|]|] w'] eqn:Hl;
    try (exfalso; vm_compute in Hl; discriminate).
  exists lst. split; [reflexivity|].
  eapply Forall_impl;
    [apply (listing_rows_summarise_stored_emails calm three_emails 1 50 "" lst);
     by rewrite Hl|].
  intros row (email & Hrow & _). rewrite Hrow. eauto.
Defined.

(** ** The detail view and the statistics *)

Lemma length_filter_or {A} (P Q : A → Prop) `{∀ x, Decision (P x)} `{∀ x, Decision (Q x)}
    (l : list A) :
  (∀ x, x ∈ l → P x → Q x → False) →
  length (filter P l) + length (filter Q l) = length (filter (λ x, P x ∨ Q x) l).
Proof.
  induction l as [|x l IH]; intros Hl; [done|]. rewrite !filter_cons.
  specialize (IH (λ y Hy, Hl y (list_elem_of_further _ _ _ Hy))).
  pose proof (Hl x (list_elem_of_here _ _)) as Hx.
  destruct (decide (P x)), (decide (Q x)), (decide (P x ∨ Q x)); simpl; try tauto; lia.
Qed.

(** Clicks on the links [ks], counted link by link. *)
Lemma clicks_by_link (ks : list string) (evs : list event_row) :
  NoDup ks →
  sum_list ((λ k, length (filter (λ e, ev_link_id e = Some k ∧ is_click e) evs)) <$> ks)
  = length (filter (click_on ks) evs).
Proof.
  induction 1 as [|k ks Hk Hks IH].
  - symmetry. apply length_zero_iff_nil.
    induction evs as [|e evs IHe]; [done|]. rewrite filter_cons.
    destruct (decide (click_on [] e)) as [[_ H]|]; [|done].
    destruct (ev_link_id e); simpl in H; [by apply elem_of_nil in H|done].
  - rewrite fmap_cons. cbn [sum_list_with id]. rewrite IH, length_filter_or.
    + f_equal. apply filter_agree. intros e _. unfold click_on.
      destruct (ev_link_id e) as [l|]; simpl; [|intuition discriminate].
      rewrite elem_of_cons. split.
      * intros [[[= ->] ?]|[? ?]]; tauto.
      * intros [? [->|?]]; tauto.
    + intros e _ [Hl _] [_ Hin]. rewrite Hl in Hin. simpl in Hin. done.
Qed.

(** X26: in a detail view the numbers agree with the event list: the events
    listed are exactly the events of the email, latest first, each with the
    URL of the link it names; opens and clicks add up to the number of
    events listed; and the unique opens are at most the opens, and are zero
    exactly when there is no open. *)
Theorem detail_counts_agree E w id det :
  (get_email E id w).1 = Ok (inr det) →
  (det_events det).*1 ≡ₚ events_for id (disk w)
  ∧ StronglySorted latest_first (det_events det)
  ∧ Forall (λ p, p.2 = ev_link_id p.1 ≫= λ l, original_url <$> links_of (disk w) !! l)
      (det_events det)
  ∧ total_opens det + total_clicks det = length (det_events det)
  ∧ unique_opens det ≤ total_opens det
  ∧ (unique_opens det = 0 ↔ total_opens det = 0).
Proof.
  intros (email & rows & evs' & counts & ls & _ & Hevs & Huniq & Hcounts & _ & ->)%get_email_detail.
  unfold select_email_events, select_unique_opens, select_counts, events_for, events_of,
    links_of in *.
  destruct (events (disk w)) as [evs|]; [|done]. destruct (links (disk w)) as [lk|]; [|done].
  injection Hevs as <-. injection Huniq as Huniq. injection Hcounts as <-. simpl in *.
  split_and!.
  - rewrite merge_sort_Permutation, <- list_fmap_compose. by rewrite list_fmap_id.
  - apply StronglySorted_merge_sort; [apply latest_first_trans|apply latest_first_total].
  - apply Forall_forall. intros p Hp. rewrite merge_sort_Permutation in Hp.
    by apply list_elem_of_fmap in Hp as (e & -> & _).
  - rewrite (Permutation_length (merge_sort_Permutation _ _)), length_fmap.
    apply length_opens_clicks.
  - rewrite <- Huniq. etransitivity; [apply length_remove_dups_le|]. by rewrite length_fmap.
  - rewrite <- Huniq, remove_dups_nil_iff. by rewrite length_fmap.
Qed.

Lemma detail_counts_agree_witness :
  ∃ det, (get_email calm "x" three_emails).1 = Ok (inr det)
         ∧ total_opens det + total_clicks det = length (det_events det).
Proof.
  destruct (get_email calm "x" three_emails) as [[[r|det]|] w'] eqn:Hg;
    try (exfalso; vm_compute in Hg; discriminate).
  exists det. split; [reflexivity|].
  destruct (detail_counts_agree calm three_emails "x" det) as (_ & _ & _ & H & _);
    [by rewrite Hg|exact H].
Defined.

(** X27: on a store that obeys the kind/link rule, the link breakdown of a
    detail view adds up: it lists every link of the email, also those
    without a click, and each of them once, with its URL and the number of
    click events that name it; it lists no other link; and these numbers
    sum to the email's total clicks. *)
Theorem link_breakdown_adds_up E w id det :
  kind_link_invariant (disk w) →
  (get_email E id w).1 = Ok (inr det) →
  breakdown_clicks (link_stats det) = total_clicks det
  ∧ NoDup (link_stats det).*1.*1
  ∧ (∀ l row, links_of (disk w) !! l = Some row → link_email_id row = id →
       (l, original_url row,
        length (filter (λ e, ev_link_id e = Some l ∧ is_click e) (events_of (disk w))))
       ∈ link_stats det)
  ∧ Forall (λ s, ∃ row,
               links_of (disk w) !! s.1.1 = Some row
               ∧ link_email_id row = id
               ∧ s.1.2 = original_url row
               ∧ s.2 = length (filter (λ e, ev_link_id e = Some s.1.1 ∧ is_click e)
                                 (events_of (disk w))))
      (link_stats det).
Proof.
  intros Hkind
    (email & rows & evs' & counts & ls & _ & _ & _ & Hcounts & Hls & ->)%get_email_detail.
  unfold select_counts, select_link_stats, kind_link_invariant, events_of, links_of,
    breakdown_clicks in *.
  destruct (events (disk w)) as [evs|]; [|by destruct (links (disk w))].
  destruct (links (disk w)) as [lk|]; [|done].
  injection Hcounts as <-. injection Hls as <-. simpl in *.
  set (L := filter (λ kv : string * link_row, owned_by id kv.2) (map_to_list lk)).
  assert (NoDup L.*1) as Hdup.
  { eapply sublist_NoDup; [apply (NoDup_fst_map_to_list lk)|].
    apply (fmap_sublist fst). apply sublist_filter. }
  split_and!.
  - rewrite <- list_fmap_compose.
    rewrite (list_fmap_ext _
               ((λ k, length (filter (λ e, ev_link_id e = Some k ∧ is_click e) evs)) ∘ fst) L)
      by done.
    rewrite list_fmap_compose, (clicks_by_link _ _ Hdup), list_filter_filter.
    f_equal. apply filter_agree. intros e He. rewrite Forall_forall in Hkind.
    specialize (Hkind e He). unfold event_ok, click_on, is_click, of_email in *. split.
    + intros [Hc Hin]. split; [done|]. rewrite Hc in Hkind.
      destruct Hkind as (l & row & Hl & Hrow & Hown). rewrite Hl in Hin. simpl in Hin.
      apply list_elem_of_fmap in Hin as ([l' row'] & -> & [Ho Hin]%list_elem_of_filter).
      apply elem_of_map_to_list in Hin. simpl in *.
      assert (row' = row) as -> by congruence. by rewrite <- Hown.
    + intros [Hc Hid]. split; [done|]. rewrite Hc in Hkind.
      destruct Hkind as (l & row & Hl & Hrow & Hown). rewrite Hl. simpl.
      apply list_elem_of_fmap. exists (l, row). split; [done|].
      apply list_elem_of_filter. split; [|by apply elem_of_map_to_list].
      unfold owned_by. simpl. congruence.
  - rewrite <- !list_fmap_compose. exact Hdup.
  - intros l row Hrow Hown. apply list_elem_of_fmap. exists (l, row). split; [done|].
    apply list_elem_of_filter. split; [exact Hown|by apply elem_of_map_to_list].
  - apply Forall_forall. intros s ([l row] & -> & [Ho Hin]%list_elem_of_filter)%list_elem_of_fmap.
    apply elem_of_map_to_list in Hin. exists row. by simpl.
Qed.

Lemma two_links_one_click_reachable : reachable provisioned two_links_one_click.
Proof. unfold two_links_one_click. repeat apply reachable_step. apply reachable_start. Qed.

Lemma link_breakdown_adds_up_witness :
  ∃ det, (get_email calm "x" two_links_one_click).1 = Ok (inr det)
         ∧ breakdown_clicks (link_stats det) = total_clicks det
         ∧ (first_link, "https://example.org/a", 1) ∈ link_stats det
         ∧ ("0f1e2d3c4b", "https://example.org/b", 0) ∈ link_stats det.
Proof.
  destruct (get_email calm "x" two_links_one_click) as [[[r|det]|] w'] eqn:Hg;
    try (exfalso; vm_compute in Hg; discriminate).
  exists det. split; [reflexivity|].
  destruct (link_breakdown_adds_up calm two_links_one_click "x" det) as (H & _ & Hall & _).
  - apply (reachable_invariant provisioned); [exact provisioned_invariant|].
    exact two_links_one_click_reachable.
  - by rewrite Hg.
  - split; [exact H|]. split.
    + apply (Hall first_link (LinkRow "x" "https://example.org/a")); vm_compute; reflexivity.
    + apply (Hall "0f1e2d3c4b" (LinkRow "x" "https://example.org/b"));
        vm_compute; reflexivity.
Defined.

(** ** The statistics *)

Lemma StronglySorted_le_lt (l : list N) :
  StronglySorted N.le l → NoDup l → StronglySorted N.lt l.
Proof.
  induction 1 as [|x l Hl IH Hx]; intros Hdup; [constructor|].
  apply NoDup_cons in Hdup as [Hnot Hdup]. constructor; [by apply IH|].
  rewrite Forall_forall in *. intros y Hy. specialize (Hx y Hy).
  assert (x ≠ y) by (by intros ->). lia.
Qed.

(** X28: the numbers of the overview agree with each other: opens and
    clicks add up to the number of events, the emails opened are at most the
    opens and are zero exactly when there is no open, and, on a store whose
    events point at email rows, at most the number of emails. *)
Theorem statistics_agree E w st :
  (get_stats E w).1 = Ok st →
  st_total_opens st + st_total_clicks st = length (events_of (disk w))
  ∧ emails_opened st ≤ st_total_opens st
  ∧ (emails_opened st = 0 ↔ st_total_opens st = 0)
  ∧ (referential_integrity (disk w) → emails_opened st ≤ total_emails st).
Proof.
  intros Hst. destruct (get_stats_totals E w st Hst) as (Htotal & Hopens & Hclicks).
  destruct (get_stats_answer E w st Hst) as (total & opens & clicks & act & _ & Hopened & _).
  rewrite Hopens, Hclicks, Htotal.
  split_and!.
  - apply length_opens_clicks.
  - unfold select_opened, events_of in *. destruct (events (disk w)) as [evs|]; [|done].
    injection Hopened as <-. simpl.
    etransitivity; [apply length_remove_dups_le|]. by rewrite length_fmap.
  - unfold select_opened, events_of in *. destruct (events (disk w)) as [evs|]; [|done].
    injection Hopened as <-. simpl. rewrite remove_dups_nil_iff. by rewrite length_fmap.
  - intros Hrefs. rewrite (select_opened_counts_emails _ _ Hrefs Hopened).
    unfold emails_with_open. apply map_subseteq_size, map_filter_subseteq.
Qed.

Lemma statistics_agree_witness :
  ∃ st, (get_stats calm three_emails).1 = Ok st
        ∧ st_total_opens st + st_total_clicks st = length (events_of (disk three_emails)).
Proof.
  destruct (get_stats calm three_emails) as [[st|] w'] eqn:Hg;
    try (exfalso; vm_compute in Hg; discriminate).
  exists st. split; [reflexivity|].
  destruct (statistics_agree calm three_emails st) as (H & _); [by rewrite Hg|exact H].
Defined.

(** X29: the activity of the overview lists days in ascending order, each
    day once, none older than thirty days; a day is listed only if it has
    an event, and its opens and clicks add up to the number of events of
    that day. *)
Theorem activity_lists_recent_days E w st :
  (get_stats E w).1 = Ok st →
  StronglySorted N.lt (activity st).*1.*1
  ∧ Forall (λ a, (sql_date (now E) - 30 ≤ a.1.1)%N
                 ∧ 0 < a.1.2 + a.2
                 ∧ a.1.2 + a.2
                   = length (filter (λ e, sql_date (ev_timestamp e) = a.1.1)
                               (events_of (disk w))))
      (activity st).
Proof.
  intros Hst.
  destruct (get_stats_answer E w st Hst) as (total & opens & clicks & act & _ & _ & Hact & ->).
  unfold select_activity, events_of in *. destruct (events (disk w)) as [evs|]; [|done].
  injection Hact as <-. simpl.
  set (recent := filter (λ e, (sql_date (now E) - 30 ≤ sql_date (ev_timestamp e))%N) evs).
  set (days := merge_sort N.le (remove_dups (sql_date ∘ ev_timestamp <$> recent))).
  assert (∀ day, day ∈ days → ∃ e, e ∈ recent ∧ sql_date (ev_timestamp e) = day) as Hday.
  { intros day Hin. unfold days in Hin.
    rewrite merge_sort_Permutation, elem_of_remove_dups in Hin.
    apply list_elem_of_fmap in Hin as (e & -> & He). by exists e. }
  split.
  - rewrite <- !list_fmap_compose.
    rewrite (list_fmap_ext _ id days) by done. rewrite list_fmap_id.
    apply StronglySorted_le_lt.
    + apply StronglySorted_merge_sort; [exact N.le_trans|].
      intros x y. apply N.le_ge_cases.
    + unfold days. rewrite merge_sort_Permutation. apply NoDup_remove_dups.
  - apply Forall_forall. intros a (day & -> & Hin)%list_elem_of_fmap. simpl.
    destruct (Hday day Hin) as (e & He & Hdate).
    pose proof He as He'. apply list_elem_of_filter in He' as [Hrecent _].
    assert (filter (λ e0, sql_date (ev_timestamp e0) = day) recent
            = filter (λ e0, sql_date (ev_timestamp e0) = day) evs) as Hsame.
    { unfold recent. rewrite list_filter_filter. apply filter_agree.
      intros e0 _. split; [tauto|]. intros He0. split; [done|]. rewrite He0, <- Hdate.
      exact Hrecent. }
    rewrite length_opens_clicks. split_and!.
    + by rewrite <- Hdate.
    + assert (e ∈ filter (λ e0, sql_date (ev_timestamp e0) = day) recent) as Hin'
        by (by apply list_elem_of_filter).
      destruct (filter _ recent); [by apply elem_of_nil in Hin'|simpl; lia].
    + by rewrite Hsame.
Qed.

Lemma activity_lists_recent_days_witness :
  ∃ st, (get_stats a_day_later two_days).1 = Ok st
        ∧ (activity st).*1.*1 = [19675%N; 19676%N]
        ∧ StronglySorted N.lt (activity st).*1.*1.
Proof.
  destruct (get_stats a_day_later two_days) as [[st|] w'] eqn:Hg;
    try (exfalso; vm_compute in Hg; discriminate).
  exists st. split; [reflexivity|].
  destruct (activity_lists_recent_days a_day_later two_days st) as (H & _);
    [by rewrite Hg|].
  split; [|exact H].
  vm_compute in Hg. injection Hg as <- _. reflexivity.
Defined.
